(** * pyxel-3d: a software 3D pipeline (camera, frustum clipper, renderers)

    Shallow embedding of [threed.py], [wireframe.py] and the renderer
    modules, and the properties of the design document checked on it.

    Numbers.  The Python code computes on [float] and [int].  Here every
    number is an exact rational ([Q]); the comparisons, the branches and
    the loops are those of the source.  Python raises [ZeroDivisionError]
    on [a / 0] and [IndexError] on an index out of range; both are
    results of the embedded functions ([Raise]).  [int(v)] truncates
    toward zero ([py_int]).  The functions of Python's [math] module that
    have no rational value ([sqrt], [sin], [cos], [tan], [pi]) are the
    fields of a record [MathLib] that the functions using them take as an
    argument. *)

From Stdlib Require Import ZArith QArith Qabs Qround Qpower Lia Lqa Bool Sorted.
From stdpp Require Import base option list gmap.

Local Open Scope Q_scope.

(** ** Results of fallible code *)

Inductive PyError : Set :=
| ZeroDivisionError
| IndexError.

Inductive result (A : Type) : Type :=
| Ok (a : A)
| Raise (e : PyError).
Arguments Ok {A} a.
Arguments Raise {A} e.

#[export] Instance result_ret : MRet result := fun A a => Ok a.

#[export] Instance result_bind : MBind result := fun A B k m =>
  match m with
  | Ok a => k a
  | Raise e => Raise e
  end.

(** ** Numbers *)

Definition Qlt_bool (a b : Q) : bool := negb (Qle_bool b a).

(** [a / b] of Python on numbers: an exception when [b] is zero. *)
Definition py_div (a b : Q) : result Q :=
  if Qeq_bool b 0 then Raise ZeroDivisionError else Ok (a / b).

(** [int(v)]: the integer part, truncated toward zero. *)
Definition py_int (v : Q) : Z := Z.quot (Qnum v) (Zpos (Qden v)).

(** ** threed.py *)

Definition Vec3 : Type := Q * Q * Q.

(** Equality of the three coordinates as rational numbers. *)
Definition Vec3_eq (a b : Vec3) : Prop :=
  let '(ax, ay, az) := a in
  let '(bx, b_y, bz) := b in
  ax == bx /\ ay == b_y /\ az == bz.

Record MathLib : Type := {
  m_pi : Q;
  m_sin : Q -> Q;
  m_cos : Q -> Q;
  m_tan : Q -> Q;
  m_sqrt : Q -> Q
}.

Record Camera : Type := {
  cam_tx : Q; cam_ty : Q; cam_tz : Q;
  cam_rx : Q; cam_ry : Q; cam_rz : Q;
  cam_fov_y : Q;
  cam_aspect : Q;
  cam_AY : Q;
  cam_AX : Q;
  cam_cx : Z;
  cam_cy : Z;
  cam_scale : Q
}.

Section Threed.
Variable M : MathLib.

Definition radians (deg : Q) : Q := deg * m_pi M / 180.

(** [Camera.__init__] *)
Definition Camera_init (rx ry rz tx ty tz fov_y_deg aspect_ratio : Q)
    (screen_w screen_h : Z) (scale : Q) : Camera :=
  let fov_y := radians fov_y_deg in
  let AY := m_tan M (fov_y / 2) in
  {| cam_tx := tx; cam_ty := ty; cam_tz := tz;
     cam_rx := rx; cam_ry := ry; cam_rz := rz;
     cam_fov_y := fov_y;
     cam_aspect := aspect_ratio;
     cam_AY := AY;
     cam_AX := AY * aspect_ratio;
     cam_cx := (screen_w / 2)%Z;
     cam_cy := (screen_h / 2)%Z;
     cam_scale := scale |}.

(** [rotate_xyz] *)
Definition rotate_xyz (X Y Z RX RY RZ : Q) : Vec3 :=
  let CRX := m_cos M (RX * m_pi M / 180) in
  let SRX := m_sin M (RX * m_pi M / 180) in
  let CRY := m_cos M (RY * m_pi M / 180) in
  let SRY := m_sin M (RY * m_pi M / 180) in
  let CRZ := m_cos M (RZ * m_pi M / 180) in
  let SRZ := m_sin M (RZ * m_pi M / 180) in
  let R00 := CRY * CRZ in
  let R01 := SRX * SRY * CRZ - CRX * SRZ in
  let R02 := CRX * SRY * CRZ + SRX * SRZ in
  let R10 := CRY * SRZ in
  let R11 := SRX * SRY * SRZ + CRX * CRZ in
  let R12 := CRX * SRY * SRZ - SRX * CRZ in
  let R20 := - SRY in
  let R21 := SRX * CRY in
  let R22 := CRX * CRY in
  (X * R00 + Y * R01 + Z * R02,
   X * R10 + Y * R11 + Z * R12,
   X * R20 + Y * R21 + Z * R22).

Definition rotate_xyz_fast := rotate_xyz.

(** [Camera.world_to_camera] *)
Definition world_to_camera (cam : Camera) (x y z : Q) : Vec3 :=
  rotate_xyz_fast (x - cam_tx cam) (y - cam_ty cam) (z - cam_tz cam)
    (cam_rx cam) (cam_ry cam) (cam_rz cam).

End Threed.

(** [Camera.project] *)
Definition project (cam : Camera) (x y z : Q) : result (Z * Z) :=
  sx ← py_div x z;
  sy ← py_div y z;
  Ok (py_int (inject_Z (cam_cx cam) + sx * cam_scale cam),
      py_int (inject_Z (cam_cy cam) - sy * cam_scale cam)).

(** *** clip_segment *)

(** The 4-bit region code of a point, as both endpoints compute it. *)
Definition outcode (AX AY X Y Zv : Q) : Z :=
  let C := 0%Z in
  let C := if Qlt_bool X (- AX * Zv) then Z.lor C 1 else C in
  let C := if Qlt_bool (AX * Zv) X then Z.lor C 2 else C in
  let C := if Qlt_bool Y (- AY * Zv) then Z.lor C 4 else C in
  let C := if Qlt_bool (AY * Zv) Y then Z.lor C 8 else C in
  C.

Definition Seg : Type := Q * Q * Q * Q * Q * Q.
Definition ClipOut : Type := Z * Q * Q * Q * Q * Q * Q.

Inductive LoopStep (S R : Type) : Type :=
| Continue (s : S)
| Return (r : R).
Arguments Continue {S R} s.
Arguments Return {S R} r.

(** One pass through the body of the [for] loop. *)
Definition clip_body (AX AY : Q) (s : Seg) : result (LoopStep Seg ClipOut) :=
  let '(x0, y0, z0, x1, y1, z1) := s in
  let C1 := outcode AX AY x1 y1 z1 in
  let C0 := outcode AX AY x0 y0 z0 in
  if (Z.lor C0 C1 =? 0)%Z then Ok (Return (0%Z, x0, y0, z0, x1, y1, z1))
  else if negb (Z.land C0 C1 =? 0)%Z then Ok (Return (1%Z, x0, y0, z0, x1, y1, z1))
  else
    let '(x0, y0, z0, x1, y1, z1, C0, C1) :=
      if (C0 =? 0)%Z then (x1, y1, z1, x0, y0, z0, C1, C0)
      else (x0, y0, z0, x1, y1, z1, C0, C1) in
    T ← (if negb (Z.land C0 1 =? 0)%Z then
           py_div (- x0 - AX * z0) ((x1 - x0) + AX * (z1 - z0))
         else if negb (Z.land C0 2 =? 0)%Z then
           py_div (AX * z0 - x0) ((x1 - x0) - AX * (z1 - z0))
         else if negb (Z.land C0 4 =? 0)%Z then
           py_div (- y0 - AY * z0) ((y1 - y0) + AY * (z1 - z0))
         else
           py_div (AY * z0 - y0) ((y1 - y0) - AY * (z1 - z0)));
    Ok (Continue (x0 + (x1 - x0) * T, y0 + (y1 - y0) * T, z0 + (z1 - z0) * T,
                  x1, y1, z1)).

(** [for _ in range(1, 100): ... else: return 1, ...] with [n] passes left. *)
Fixpoint clip_for (n : nat) (AX AY : Q) (s : Seg) : result ClipOut :=
  match n with
  | O => let '(x0, y0, z0, x1, y1, z1) := s in Ok (1%Z, x0, y0, z0, x1, y1, z1)
  | S n' =>
      r ← clip_body AX AY s;
      match r with
      | Continue s' => clip_for n' AX AY s'
      | Return out => Ok out
      end
  end.

(** [len(range(a, b))] *)
Definition range_len (a b : Z) : nat := Z.to_nat (b - a).

Definition clip_segment (x0 y0 z0 x1 y1 z1 AX AY : Q) : result ClipOut :=
  clip_for (range_len 1 100) AX AY (x0, y0, z0, x1, y1, z1).

Definition clip_segment_fast := clip_segment.



(** *** Python lists and indices *)

(** [l[i]]: a negative index counts from the end; out of range raises. *)
Definition py_index {A : Type} (l : list A) (i : Z) : result A :=
  let n := Z.of_nat (length l) in
  let k := if (i <? 0)%Z then (n + i)%Z else i in
  if ((k <? 0) || (n <=? k))%Z then Raise IndexError
  else match l !! Z.to_nat k with
       | Some a => Ok a
       | None => Raise IndexError
       end.

(** [l[i] = a] *)
Definition py_setitem {A : Type} (l : list A) (i : Z) (a : A) : result (list A) :=
  let n := Z.of_nat (length l) in
  let k := if (i <? 0)%Z then (n + i)%Z else i in
  if ((k <? 0) || (n <=? k))%Z then Raise IndexError
  else Ok (<[Z.to_nat k := a]> l).

(** [for x in l: st = f st x], stopping at the first exception. *)
Fixpoint for_each {A S : Type} (f : S -> A -> result S) (l : list A) (st : S)
    : result S :=
  match l with
  | [] => Ok st
  | a :: l' => st' ← f st a; for_each f l' st'
  end.

(** [range(a, b)] *)
Definition range (a b : Z) : list Z := seqZ a (b - a).

(** *** normalize, compute_vertex_normals, Mesh *)

Record Mesh : Type := {
  points : list Vec3;
  segments : list (Z * Z);
  faces : list (Z * Z * Z);
  vertex_normals : list Vec3;
  mesh_tx : Q; mesh_ty : Q; mesh_tz : Q;
  mesh_rx : Q; mesh_ry : Q; mesh_rz : Q;
  mesh_scale : Q
}.

Section ThreedMesh.
Variable M : MathLib.

Definition normalize (v : Vec3) : Vec3 :=
  let '(x, y, z) := v in
  let d := m_sqrt M (x * x + y * y + z * z) in
  if Qeq_bool d 0 then (0, 0, 1) else (x / d, y / d, z / d).

Definition compute_vertex_normals (pts : list Vec3) : list Vec3 :=
  map (fun '(x, y, z) =>
         let length := m_sqrt M (x * x + y * y + z * z) in
         if Qeq_bool length 0 then (0, 0, 1)
         else (x / length, y / length, z / length)) pts.

(** [Mesh.__init__] *)
Definition Mesh_init (pts : list Vec3) (segs : list (Z * Z))
    (fcs : list (Z * Z * Z)) (tx ty tz rx ry rz scale : Q) : Mesh :=
  {| points := pts; segments := segs; faces := fcs;
     vertex_normals := compute_vertex_normals pts;
     mesh_tx := tx; mesh_ty := ty; mesh_tz := tz;
     mesh_rx := rx; mesh_ry := ry; mesh_rz := rz;
     mesh_scale := scale |}.

(** [Mesh.local_to_world] *)
Definition local_to_world (mesh : Mesh) (x y z : Q) : Vec3 :=
  let x := x * mesh_scale mesh in
  let y := y * mesh_scale mesh in
  let z := z * mesh_scale mesh in
  let '(x, y, z) :=
    rotate_xyz_fast M x y z (mesh_rx mesh) (mesh_ry mesh) (mesh_rz mesh) in
  (x + mesh_tx mesh, y + mesh_ty mesh, z + mesh_tz mesh).

(** [Mesh.transformed_points] *)
Definition transformed_points (mesh : Mesh) : list Vec3 :=
  map (fun '(x, y, z) => local_to_world mesh x y z) (points mesh).

(** The first step of every renderer: local, then world, then camera. *)
Definition camera_points (cam : Camera) (mesh : Mesh) : list Vec3 :=
  map (fun '(lx, ly, lz) =>
         let '(wx, wy, wz) := local_to_world mesh lx ly lz in
         world_to_camera M cam wx wy wz) (points mesh).

End ThreedMesh.

(** ** The pixel surface: the calls made to pyxel *)

Inductive PyxelCmd : Type :=
| Line (x0 y0 x1 y1 col : Z)
| Tri (x0 y0 x1 y1 x2 y2 col : Z)
| Pset (x y col : Z).

(** ** wireframe_renderer.py *)

Module Wireframe.

Record WireframeRenderer : Type := {
  camera : Camera;
  color : Z
}.

(** [tuple(sorted((i, j)))] *)
Definition sorted_pair (i j : Z) : Z * Z :=
  if (j <? i)%Z then (j, i) else (i, j).

(** [edges.add(e)]; the model keeps a set as the list of its elements in
    the order of first insertion. *)
Definition set_add (e : Z * Z) (edges : list (Z * Z)) : list (Z * Z) :=
  if decide (e ∈ edges) then edges else edges ++ [e].

Definition face_edges (fcs : list (Z * Z * Z)) : list (Z * Z) :=
  foldl (fun edges '(i0, i1, i2) =>
           let e01 := sorted_pair i0 i1 in
           let e12 := sorted_pair i1 i2 in
           let e20 := sorted_pair i2 i0 in
           set_add e20 (set_add e12 (set_add e01 edges))) [] fcs.

(** The body of the loop over the segments. *)
Definition draw_segment (cam : Camera) (cam_pts : list Vec3) (color : Z)
    (out : list PyxelCmd) (seg : Z * Z) : result (list PyxelCmd) :=
  let '(i, j) := seg in
  '(x0, y0, z0) ← py_index cam_pts i;
  '(x1, y1, z1) ← py_index cam_pts j;
  if Qle_bool z0 0 && Qle_bool z1 0 then Ok out
  else
    '(F, X0c, Y0c, Z0c, X1c, Y1c, Z1c) ←
      clip_segment_fast x0 y0 z0 x1 y1 z1 (cam_AX cam) (cam_AY cam);
    if negb (F =? 0)%Z then Ok out
    else
      '(sx0, sy0) ← project cam X0c Y0c Z0c;
      '(sx1, sy1) ← project cam X1c Y1c Z1c;
      Ok (out ++ [Line sx0 sy0 sx1 sy1 color]).

(** [WireframeRenderer.draw_mesh]: the calls to pyxel, or the exception. *)
Definition draw_mesh (M : MathLib) (self : WireframeRenderer) (mesh : Mesh)
    (col : option Z) : result (list PyxelCmd) :=
  let col := match col with None => color self | Some c => c end in
  let cam := camera self in
  let cam_pts := camera_points M cam mesh in
  let segs :=
    match segments mesh, faces mesh with
    | [], _ :: _ => face_edges (faces mesh)
    | _, _ => segments mesh
    end in
  for_each (draw_segment cam cam_pts col) segs [].

End Wireframe.

(** ** Python's [min] and [max] (the first extremal argument is returned) *)

Definition py_min (a b : Q) : Q := if Qlt_bool b a then b else a.
Definition py_max (a b : Q) : Q := if Qlt_bool a b then b else a.
Definition py_min3 (a b c : Q) : Q := py_min (py_min a b) c.
Definition py_max3 (a b c : Q) : Q := py_max (py_max a b) c.

(** The cross product of the edge vectors [v1 - v0] and [v2 - v0], which
    every renderer writes out in coordinates. *)
Definition face_normal (v0 v1 v2 : Vec3) : Vec3 :=
  let '(v0x, v0y, v0z) := v0 in
  let '(v1x, v1y, v1z) := v1 in
  let '(v2x, v2y, v2z) := v2 in
  let '(ux, uy, uz) := (v1x - v0x, v1y - v0y, v1z - v0z) in
  let '(vx, vy, vz) := (v2x - v0x, v2y - v0y, v2z - v0z) in
  let nx := uy * vz - uz * vy in
  let ny := uz * vx - ux * vz in
  let nz := ux * vy - uy * vx in
  (nx, ny, nz).

(** ** hidden_line_renderer.py *)

Module HiddenLine.

Record HiddenLineRenderer : Type := {
  camera : Camera;
  bg_color : Z;
  light_dir : Vec3;
  shade_levels : Q;
  base_color : Z;
  shade : bool;
  wired : bool
}.

(** [HiddenLineRenderer.__init__] *)
Definition init (M : MathLib) (cam : Camera) (bg : Z) (light : Vec3)
    (levels : Q) (base : Z) (shade_flag wired_flag : bool)
    : HiddenLineRenderer :=
  {| camera := cam; bg_color := bg; light_dir := normalize M light;
     shade_levels := levels; base_color := base;
     shade := shade_flag; wired := wired_flag |}.

(** An entry of [face_info]: [(depth, nz, intensity, (i0, i1, i2))]. *)
Definition FaceInfo : Type := Q * Q * Q * (Z * Z * Z).

(** Step 3: the projected points, with a sentinel behind the camera. *)
Definition project_points (cam : Camera) (cam_pts : list Vec3)
    : result (list (Z * Z)) :=
  for_each (fun proj_pts '(x, y, z) =>
              if Qle_bool z 0 then Ok (proj_pts ++ [(-9999, -9999)%Z])
              else p ← project cam x y z; Ok (proj_pts ++ [p]))
    cam_pts [].

(** Step 4: the body of the loop that fills [face_info]. *)
Definition face_info_step (M : MathLib) (self : HiddenLineRenderer)
    (cam_pts : list Vec3) (face_info : list FaceInfo) (f : Z * Z * Z)
    : result (list FaceInfo) :=
  let '(i0, i1, i2) := f in
  v0 ← py_index cam_pts i0;
  v1 ← py_index cam_pts i1;
  v2 ← py_index cam_pts i2;
  if Qle_bool v0.2 0 && Qle_bool v1.2 0 && Qle_bool v2.2 0 then Ok face_info
  else
    let depth := (v0.2 + v1.2 + v2.2) / 3 in
    let '(nx, ny, nz) := face_normal v0 v1 v2 in
    let n_len := m_sqrt M (nx * nx + ny * ny + nz * nz) in
    if Qeq_bool n_len 0 then Ok face_info
    else
      let nx := nx / n_len in
      let ny := ny / n_len in
      let nz := nz / n_len in
      let '(lx, ly, lz) := light_dir self in
      let intensity := py_max 0 (nx * lx + ny * ly + nz * lz) in
      let intensity := m_sqrt M intensity in
      Ok (face_info ++ [(depth, nz, intensity, (i0, i1, i2))]).

(** [face_info.sort(key=lambda x: x[0], reverse=True)]: a stable sort,
    farthest first. *)
Fixpoint insert_by_depth (x : FaceInfo) (l : list FaceInfo) : list FaceInfo :=
  match l with
  | [] => [x]
  | y :: l' =>
      if Qlt_bool y.1.1.1 x.1.1.1 then x :: y :: l'
      else y :: insert_by_depth x l'
  end.

Definition sort_by_depth (l : list FaceInfo) : list FaceInfo :=
  foldl (fun sorted x => insert_by_depth x sorted) [] l.

(** Three calls of [pyxel.line] around a triangle. *)
Definition outline (x0 y0 x1 y1 x2 y2 ink : Z) : list PyxelCmd :=
  [Line x0 y0 x1 y1 ink; Line x1 y1 x2 y2 ink; Line x2 y2 x0 y0 ink].

(** The ink of the outline when [wired] is set. *)
Definition wired_ink (nz : Q) : Z := if Qle_bool nz 0 then 7 else 1.

(** Step 5: the body of the drawing loop. *)
Definition draw_face (self : HiddenLineRenderer) (proj_pts : list (Z * Z))
    (out : list PyxelCmd) (fi : FaceInfo) : result (list PyxelCmd) :=
  let '(depth, nz, intensity, (i0, i1, i2)) := fi in
  '(x0, y0) ← py_index proj_pts i0;
  '(x1, y1) ← py_index proj_pts i1;
  '(x2, y2) ← py_index proj_pts i2;
  if wired self then
    if Qle_bool nz 0 then Ok (out ++ outline x0 y0 x1 y1 x2 y2 7)
    else Ok (out ++ outline x0 y0 x1 y1 x2 y2 1)
  else
    let shd :=
      if shade self then
        let s := (base_color self - py_int (intensity * shade_levels self))%Z in
        Z.max 0 (Z.min 15 s)
      else 7%Z in
    let out := out ++ [Tri x0 y0 x1 y1 x2 y2 shd] in
    if Qle_bool nz 0 then Ok (out ++ outline x0 y0 x1 y1 x2 y2 0)
    else Ok out.

Definition face_infos (M : MathLib) (self : HiddenLineRenderer)
    (cam_pts : list Vec3) (fcs : list (Z * Z * Z)) : result (list FaceInfo) :=
  for_each (face_info_step M self cam_pts) fcs [].

(** [HiddenLineRenderer.draw_mesh] *)
Definition draw_mesh (M : MathLib) (self : HiddenLineRenderer) (mesh : Mesh)
    : result (list PyxelCmd) :=
  let cam := camera self in
  let world_pts := transformed_points M mesh in
  let cam_pts := map (fun '(x, y, z) => world_to_camera M cam x y z) world_pts in
  proj_pts ← project_points cam cam_pts;
  face_info ← face_infos M self cam_pts (faces mesh);
  for_each (draw_face self proj_pts) (sort_by_depth face_info) [].

End HiddenLine.

(** ** The depth buffer and the pixel surface of the z-buffered renderers

    [zbuf] is a list of [height] rows, each a list of its own (the
    constructor builds the rows one by one, so no two rows are the same
    object).  The surface written by [pyxel.pset] is kept as the grid of
    the colour indices last written; a [pset] outside the grid does
    nothing, as in pyxel. *)

Record Frame : Type := {
  zbuf : list (list Q);
  screen : list (list Z)
}.

Definition grid_set {A : Type} (g : list (list A)) (y x : nat) (a : A)
    : list (list A) :=
  match g !! y with
  | Some row => <[y := <[x := a]> row]> g
  | None => g
  end.

(** [pyxel.pset(x, y, col)] *)
Definition pset (scr : list (list Z)) (x y col : Z) : list (list Z) :=
  if ((x <? 0) || (y <? 0))%Z then scr
  else grid_set scr (Z.to_nat y) (Z.to_nat x) col.

(** [pyxel.cls(col)] *)
Definition cls (scr : list (list Z)) (col : Z) : list (list Z) :=
  map (map (fun _ => col)) scr.

(** [zbuf[y][x]] *)
Definition zbuf_get (zb : list (list Q)) (y x : Z) : result Q :=
  row ← py_index zb y; py_index row x.

(** [zbuf[y][x] = z]: the row object is updated in place. *)
Definition zbuf_set (zb : list (list Q)) (y x : Z) (z : Q)
    : result (list (list Q)) :=
  row ← py_index zb y;
  row' ← py_setitem row x z;
  py_setitem zb y row'.

(** [clear_zbuffer], the same in both z-buffered renderers. *)
Definition clear_rows (height width : Z) (z_far : Q) (zb : list (list Q))
    : result (list (list Q)) :=
  for_each (fun zb y =>
              for_each (fun zb x => zbuf_set zb y x z_far) (range 0 width) zb)
    (range 0 height) zb.

(** A triangle handed to [_draw_triangle]: screen position, depth and a
    shading attribute for each corner. *)
Record Corner (A : Type) : Type := {
  c_x : Q; c_y : Q; c_z : Q; c_attr : A
}.
Arguments c_x {A} _.
Arguments c_y {A} _.
Arguments c_z {A} _.
Arguments c_attr {A} _.

Definition Triangle (A : Type) : Type := Corner A * Corner A * Corner A.

(** ** Views used in the proofs *)

(** The cell [(y, x)] of a grid, if there is one. *)
Definition grid_get {A : Type} (g : list (list A)) (y x : nat) : option A :=
  row ← g !! y; row !! x.

(** The denominator of the barycentric weights; zero for a degenerate
    triangle. *)
Definition tri_denom {A : Type} (t : Triangle A) : Q :=
  let '(p0, p1, p2) := t in
  (c_y p1 - c_y p2) * (c_x p0 - c_x p2) + (c_x p2 - c_x p1) * (c_y p0 - c_y p2).

(** The barycentric weights of the pixel centre [(x + 0.5, y + 0.5)] in
    the triangle, as [_draw_triangle] computes them. *)
Definition bary {A : Type} (t : Triangle A) (y x : Z) : Q * Q * Q :=
  let '(p0, p1, p2) := t in
  let '(x0, y0) := (c_x p0, c_y p0) in
  let '(x1, y1) := (c_x p1, c_y p1) in
  let '(x2, y2) := (c_x p2, c_y p2) in
  let denom := (y1 - y2) * (x0 - x2) + (x2 - x1) * (y0 - y2) in
  let inv_denom := 1 / denom in
  let yy := inject_Z y + (1 # 2) in
  let xx := inject_Z x + (1 # 2) in
  let w0 := ((y1 - y2) * (xx - x2) + (x2 - x1) * (yy - y2)) * inv_denom in
  let w1 := ((y2 - y0) * (xx - x2) + (x0 - x2) * (yy - y2)) * inv_denom in
  let w2 := 1 - w0 - w1 in
  (w0, w1, w2).

(** The pixel is inside the triangle: no weight is negative. *)
Definition covers {A : Type} (t : Triangle A) (y x : Z) : bool :=
  let '(w0, w1, w2) := bary t y x in
  negb (Qlt_bool w0 0 || Qlt_bool w1 0 || Qlt_bool w2 0).

(** The depth interpolated at the pixel. *)
Definition depth_at {A : Type} (t : Triangle A) (y x : Z) : Q :=
  let '(p0, p1, p2) := t in
  let '(w0, w1, w2) := bary t y x in
  w0 * c_z p0 + w1 * c_z p1 + w2 * c_z p2.

(** The depth test and the two writes that follow it, on a cell known by
    its row and column numbers. *)
Definition put (fr : Frame) (y x : nat) (z : Q) (shd : Z) : Frame :=
  {| zbuf := grid_set (zbuf fr) y x z; screen := grid_set (screen fr) y x shd |}.

Definition depth_test_put (fr : Frame) (y x : nat) (z : Q) (shd : Z)
    : result Frame :=
  match grid_get (zbuf fr) y x with
  | None => Raise IndexError
  | Some cur => if Qle_bool cur z then Ok fr else Ok (put fr y x z shd)
  end.

(** ** Steps that the two z-buffered renderers share word for word *)

(** Step 2 of [draw_mesh]: [proj[i]] is [None] behind the camera, else
    the screen position and the depth. *)
Definition project_visible (cam : Camera) (cam_pts : list Vec3)
    : result (list (option Vec3)) :=
  for_each (fun proj '(x, y, z) =>
              if Qle_bool z 0 then Ok (proj ++ [None])
              else
                '(sx, sy) ← project cam x y z;
                Ok (proj ++ [Some (inject_Z sx, inject_Z sy, z)]))
    cam_pts [].

(** Step 3 of [draw_mesh]: the normal of every face is added to [vnorm]
    at each of its three corners.  [add_at] is the body of the loop over
    the corners. *)
Definition add_at (n : Vec3) (vnorm : list Vec3) (idx : Z)
    : result (list Vec3) :=
  let '(nx, ny, nz) := n in
  '(nnx, nny, nnz) ← py_index vnorm idx;
  py_setitem vnorm idx (nnx + nx, nny + ny, nnz + nz).

Definition add_face_normal (cam_pts : list Vec3) (vnorm : list Vec3)
    (f : Z * Z * Z) : result (list Vec3) :=
  let '(i0, i1, i2) := f in
  v0 ← py_index cam_pts i0;
  v1 ← py_index cam_pts i1;
  v2 ← py_index cam_pts i2;
  for_each (add_at (face_normal v0 v1 v2)) [i0; i1; i2] vnorm.

Definition accumulate_normals (pts cam_pts : list Vec3)
    (fcs : list (Z * Z * Z)) : result (list Vec3) :=
  for_each (add_face_normal cam_pts) fcs (map (fun _ => (0, 0, 0)) pts).

(** ** z_gouraud_renderer.py *)

Module ZGouraud.

Record ZBufferedGouraudRenderer : Type := {
  camera : Camera;
  ambient : Q;
  shade_levels : Z;
  width : Z;
  height : Z;
  light_dir : Vec3;
  z_far : Q
}.

(** [ZBufferedGouraudRenderer.__init__]; [Camera] has no [screen_w], so
    the size comes from the screen centre.  Returns the renderer and its
    fresh depth buffer. *)
Definition init (M : MathLib) (cam : Camera) (light : Vec3) (amb : Q)
    (levels : Z) : ZBufferedGouraudRenderer * list (list Q) :=
  let w := (cam_cx cam * 2)%Z in
  let h := (cam_cy cam * 2)%Z in
  let '(lx, ly, lz) := light in
  let L0 := m_sqrt M (lx * lx + ly * ly + lz * lz) in
  let L := if Qeq_bool L0 0 then 1 else L0 in
  let z_far := 1000000000 in
  ({| camera := cam; ambient := amb; shade_levels := levels;
      width := w; height := h;
      light_dir := (lx / L, ly / L, lz / L);
      z_far := z_far |},
   replicate (Z.to_nat h) (replicate (Z.to_nat w) z_far)).

Definition clear_zbuffer (self : ZBufferedGouraudRenderer) (fr : Frame)
    : result Frame :=
  zb ← clear_rows (height self) (width self) (z_far self) (zbuf fr);
  Ok {| zbuf := zb; screen := screen fr |}.

Definition compute_intensity (self : ZBufferedGouraudRenderer)
    (nx ny nz : Q) : Q :=
  let '(lx, ly, lz) := light_dir self in
  let dot := nx * lx + ny * ly + nz * lz in
  let dot := if Qlt_bool dot 0 then 0 else dot in
  let i := ambient self + dot * (1 - ambient self) in
  let i := if Qlt_bool i 0 then 0 else i in
  let i := if Qlt_bool 1 i then 1 else i in
  i.

(** The body of the two nested loops of [_draw_triangle], at pixel
    [(x, y)]. *)
Definition draw_pixel (self : ZBufferedGouraudRenderer) (t : Triangle Q)
    (inv_denom : Q) (y : Z) (fr : Frame) (x : Z) : result Frame :=
  let '(p0, p1, p2) := t in
  let '(x0, y0, z0, c0) := (c_x p0, c_y p0, c_z p0, c_attr p0) in
  let '(x1, y1, z1, c1) := (c_x p1, c_y p1, c_z p1, c_attr p1) in
  let '(x2, y2, z2, c2) := (c_x p2, c_y p2, c_z p2, c_attr p2) in
  let yy := inject_Z y + (1 # 2) in
  let xx := inject_Z x + (1 # 2) in
  let w0 := ((y1 - y2) * (xx - x2) + (x2 - x1) * (yy - y2)) * inv_denom in
  let w1 := ((y2 - y0) * (xx - x2) + (x0 - x2) * (yy - y2)) * inv_denom in
  let w2 := 1 - w0 - w1 in
  if Qlt_bool w0 0 || Qlt_bool w1 0 || Qlt_bool w2 0 then Ok fr
  else
    let z := w0 * z0 + w1 * z1 + w2 * z2 in
    if Qle_bool z 0 then Ok fr
    else
      cur ← zbuf_get (zbuf fr) y x;
      if Qle_bool cur z then Ok fr
      else
        zb ← zbuf_set (zbuf fr) y x z;
        let c := w0 * c0 + w1 * c1 + w2 * c2 in
        let c := if Qlt_bool c 0 then 0 else c in
        let c := if Qlt_bool 1 c then 1 else c in
        let shd := py_int (c * inject_Z (shade_levels self - 1)) in
        Ok {| zbuf := zb; screen := pset (screen fr) x y shd |}.

(** [ZBufferedGouraudRenderer._draw_triangle] *)
Definition _draw_triangle (self : ZBufferedGouraudRenderer) (t : Triangle Q)
    (fr : Frame) : result Frame :=
  let '(p0, p1, p2) := t in
  let '(x0, y0) := (c_x p0, c_y p0) in
  let '(x1, y1) := (c_x p1, c_y p1) in
  let '(x2, y2) := (c_x p2, c_y p2) in
  let denom := (y1 - y2) * (x0 - x2) + (x2 - x1) * (y0 - y2) in
  if Qeq_bool denom 0 then Ok fr
  else
    let w := width self in
    let h := height self in
    let min_x := Z.max (Qfloor (py_min3 x0 x1 x2)) 0 in
    let max_x := Z.min (Qceiling (py_max3 x0 x1 x2)) (w - 1) in
    let min_y := Z.max (Qfloor (py_min3 y0 y1 y2)) 0 in
    let max_y := Z.min (Qceiling (py_max3 y0 y1 y2)) (h - 1) in
    if ((max_x <? min_x) || (max_y <? min_y))%Z then Ok fr
    else
      let inv_denom := 1 / denom in
      for_each (fun fr y =>
                  for_each (draw_pixel self t inv_denom y) (range min_x (max_x + 1)) fr)
        (range min_y (max_y + 1)) fr.

(** The intensity of every vertex, from the accumulated normals. *)
Definition intensities (M : MathLib) (self : ZBufferedGouraudRenderer)
    (vnorm : list Vec3) : list Q :=
  map (fun '(nx, ny, nz) =>
         let length := m_sqrt M (nx * nx + ny * ny + nz * nz) in
         if Qeq_bool length 0 then compute_intensity self 0 0 1
         else compute_intensity self (nx / length) (ny / length) (nz / length))
    vnorm.

(** Step 4 of [draw_mesh]: the body of the loop over the faces. *)
Definition draw_face (self : ZBufferedGouraudRenderer)
    (proj : list (option Vec3)) (intens : list Q) (fr : Frame)
    (f : Z * Z * Z) : result Frame :=
  let '(i0, i1, i2) := f in
  q0 ← py_index proj i0;
  if negb (bool_decide (is_Some q0)) then Ok fr else
  q1 ← py_index proj i1;
  if negb (bool_decide (is_Some q1)) then Ok fr else
  q2 ← py_index proj i2;
  match q0, q1, q2 with
  | Some (x0, y0, z0), Some (x1, y1, z1), Some (x2, y2, z2) =>
      c0 ← py_index intens i0;
      c1 ← py_index intens i1;
      c2 ← py_index intens i2;
      _draw_triangle self
        ({| c_x := x0; c_y := y0; c_z := z0; c_attr := c0 |},
         {| c_x := x1; c_y := y1; c_z := z1; c_attr := c1 |},
         {| c_x := x2; c_y := y2; c_z := z2; c_attr := c2 |}) fr
  | _, _, _ => Ok fr
  end.

(** [ZBufferedGouraudRenderer.draw_mesh] *)
Definition draw_mesh (M : MathLib) (self : ZBufferedGouraudRenderer)
    (mesh : Mesh) (fr : Frame) : result Frame :=
  let cam := camera self in
  let cam_pts := camera_points M cam mesh in
  proj ← project_visible cam cam_pts;
  vnorm ← accumulate_normals (points mesh) cam_pts (faces mesh);
  let intens := intensities M self vnorm in
  for_each (draw_face self proj intens) (faces mesh) fr.

(** The shade index that [draw_pixel] writes when the depth test passes. *)
Definition shade_at (self : ZBufferedGouraudRenderer) (t : Triangle Q)
    (y x : Z) : Z :=
  let '(p0, p1, p2) := t in
  let '(w0, w1, w2) := bary t y x in
  let c := w0 * c_attr p0 + w1 * c_attr p1 + w2 * c_attr p2 in
  let c := if Qlt_bool c 0 then 0 else c in
  let c := if Qlt_bool 1 c then 1 else c in
  py_int (c * inject_Z (shade_levels self - 1)).

End ZGouraud.

(** ** phong_renderer.py *)

Module Phong.

(** [hash01] *)
Definition hash01 (x y : Z) : Q :=
  inject_Z (Z.land (Z.lxor (x * 73856093) (y * 19349663)) 255) / 255.

Record PhongRenderer : Type := {
  camera : Camera;
  ambient : Q;
  diffuse : Q;
  specular : Q;
  shininess : Z;
  shade_levels : Z;
  dithering : bool;
  highlighting : bool;
  width : Z;
  height : Z;
  light_dir : Vec3;
  z_far : Q
}.

(** [PhongRenderer.__init__]: the renderer and its fresh depth buffer. *)
Definition init (M : MathLib) (cam : Camera) (light : Vec3)
    (amb dif spec : Q) (shin levels : Z) (dith high : bool)
    : PhongRenderer * list (list Q) :=
  let w := (cam_cx cam * 2)%Z in
  let h := (cam_cy cam * 2)%Z in
  let '(lx, ly, lz) := light in
  let L0 := m_sqrt M (lx * lx + ly * ly + lz * lz) in
  let L := if Qeq_bool L0 0 then 1 else L0 in
  let z_far := 1000000000 in
  ({| camera := cam; ambient := amb; diffuse := dif; specular := spec;
      shininess := shin; shade_levels := levels;
      dithering := dith; highlighting := high;
      width := w; height := h;
      light_dir := (lx / L, ly / L, lz / L);
      z_far := z_far |},
   replicate (Z.to_nat h) (replicate (Z.to_nat w) z_far)).

Definition clear_zbuffer (self : PhongRenderer) (fr : Frame) : result Frame :=
  zb ← clear_rows (height self) (width self) (z_far self) (zbuf fr);
  Ok {| zbuf := zb; screen := screen fr |}.

(** [PhongRenderer.phong_intensity] *)
Definition phong_intensity (self : PhongRenderer) (nx ny nz : Q) : Q :=
  let '(lx, ly, lz) := light_dir self in
  let diff := nx * lx + ny * ly + nz * lz in
  let diff := if Qlt_bool diff 0 then 0 else diff in
  let spec :=
    if Qlt_bool 0 diff then
      let rx := 2 * diff * nx - lx in
      let ry := 2 * diff * ny - ly in
      let rz := 2 * diff * nz - lz in
      let vr := rz in
      if Qlt_bool 0 vr then (vr ^ shininess self) * specular self else 0
    else 0 in
  let i := ambient self + diff * diffuse self + spec in
  py_max 0 (py_min 1 i).

(** The shade index chosen for intensity [c] at pixel [(x, y)]. *)
Definition choose_shade (self : PhongRenderer) (x y : Z) (c : Q) : Z :=
  if dithering self then
    let v := c * inject_Z (shade_levels self - 1) in
    let s0 := py_int v in
    let frac := v - inject_Z s0 in
    if Qlt_bool (hash01 x y) frac then Z.min (s0 + 1) (shade_levels self - 1)
    else s0
  else py_int (c * inject_Z (shade_levels self - 1)).

(** The body of the two nested loops of [_draw_triangle]. *)
Definition draw_pixel (M : MathLib) (self : PhongRenderer) (t : Triangle Vec3)
    (inv_denom : Q) (y : Z) (fr : Frame) (x : Z) : result Frame :=
  let '(p0, p1, p2) := t in
  let '(x0, y0, z0) := (c_x p0, c_y p0, c_z p0) in
  let '(x1, y1, z1) := (c_x p1, c_y p1, c_z p1) in
  let '(x2, y2, z2) := (c_x p2, c_y p2, c_z p2) in
  let '(nx0, ny0, nz0) := c_attr p0 in
  let '(nx1, ny1, nz1) := c_attr p1 in
  let '(nx2, ny2, nz2) := c_attr p2 in
  let yy := inject_Z y + (1 # 2) in
  let xx := inject_Z x + (1 # 2) in
  let w0 := ((y1 - y2) * (xx - x2) + (x2 - x1) * (yy - y2)) * inv_denom in
  if Qlt_bool w0 0 then Ok fr else
  let w1 := ((y2 - y0) * (xx - x2) + (x0 - x2) * (yy - y2)) * inv_denom in
  if Qlt_bool w1 0 then Ok fr else
  let w2 := 1 - w0 - w1 in
  if Qlt_bool w2 0 then Ok fr else
  let z := w0 * z0 + w1 * z1 + w2 * z2 in
  if Qle_bool z 0 then Ok fr else
  cur ← zbuf_get (zbuf fr) y x;
  if Qle_bool cur z then Ok fr else
  zb ← zbuf_set (zbuf fr) y x z;
  let nx := w0 * nx0 + w1 * nx1 + w2 * nx2 in
  let ny := w0 * ny0 + w1 * ny1 + w2 * ny2 in
  let nz := w0 * nz0 + w1 * nz1 + w2 * nz2 in
  let length := m_sqrt M (nx * nx + ny * ny + nz * nz) in
  let '(nx, ny, nz) :=
    if Qlt_bool 0 length then (nx / length, ny / length, nz / length)
    else (0, 0, 1) in
  let c := phong_intensity self nx ny nz in
  let shd := choose_shade self x y c in
  Ok {| zbuf := zb; screen := pset (screen fr) x y shd |}.

(** [PhongRenderer._draw_triangle] *)
Definition _draw_triangle (M : MathLib) (self : PhongRenderer)
    (t : Triangle Vec3) (fr : Frame) : result Frame :=
  let '(p0, p1, p2) := t in
  let '(x0, y0) := (c_x p0, c_y p0) in
  let '(x1, y1) := (c_x p1, c_y p1) in
  let '(x2, y2) := (c_x p2, c_y p2) in
  let denom := (y1 - y2) * (x0 - x2) + (x2 - x1) * (y0 - y2) in
  if Qeq_bool denom 0 then Ok fr
  else
    let inv_denom := 1 / denom in
    let w := width self in
    let h := height self in
    let min_x := Z.max (py_int (py_min3 x0 x1 x2)) 0 in
    let max_x := Z.min (py_int (py_max3 x0 x1 x2)) (w - 1) in
    let min_y := Z.max (py_int (py_min3 y0 y1 y2)) 0 in
    let max_y := Z.min (py_int (py_max3 y0 y1 y2)) (h - 1) in
    if ((max_x <? min_x) || (max_y <? min_y))%Z then Ok fr
    else
      for_each (fun fr y =>
                  for_each (draw_pixel M self t inv_denom y)
                    (range min_x (max_x + 1)) fr)
        (range min_y (max_y + 1)) fr.

(** The normalisation of the accumulated normals. *)
Definition normalize_normals (M : MathLib) (vnorm : list Vec3) : list Vec3 :=
  map (fun '(nx, ny, nz) =>
         let L := m_sqrt M (nx * nx + ny * ny + nz * nz) in
         if Qlt_bool 0 L then (nx / L, ny / L, nz / L) else (0, 0, 1))
    vnorm.

(** The body of the loop over the faces. *)
Definition draw_face (M : MathLib) (self : PhongRenderer)
    (proj : list (option Vec3)) (vnorm : list Vec3) (fr : Frame)
    (f : Z * Z * Z) : result Frame :=
  let '(i0, i1, i2) := f in
  q0 ← py_index proj i0;
  if negb (bool_decide (is_Some q0)) then Ok fr else
  q1 ← py_index proj i1;
  if negb (bool_decide (is_Some q1)) then Ok fr else
  q2 ← py_index proj i2;
  match q0, q1, q2 with
  | Some (x0, y0, z0), Some (x1, y1, z1), Some (x2, y2, z2) =>
      n0 ← py_index vnorm i0;
      n1 ← py_index vnorm i1;
      n2 ← py_index vnorm i2;
      _draw_triangle M self
        ({| c_x := x0; c_y := y0; c_z := z0; c_attr := n0 |},
         {| c_x := x1; c_y := y1; c_z := z1; c_attr := n1 |},
         {| c_x := x2; c_y := y2; c_z := z2; c_attr := n2 |}) fr
  | _, _, _ => Ok fr
  end.

(** [PhongRenderer.draw_mesh] *)
Definition draw_mesh (M : MathLib) (self : PhongRenderer) (mesh : Mesh)
    (fr : Frame) : result Frame :=
  let cam := camera self in
  let cam_pts := camera_points M cam mesh in
  proj ← project_visible cam cam_pts;
  vnorm ← accumulate_normals (points mesh) cam_pts (faces mesh);
  let vnorm := normalize_normals M vnorm in
  for_each (draw_face M self proj vnorm) (faces mesh) fr.

(** One frame as the demo's [draw] runs it for a z-buffered renderer:
    [pyxel.cls(0)], [clear_zbuffer()] (to be called at the start of every
    frame), then [draw_mesh]. *)
Definition render_frame (M : MathLib) (self : PhongRenderer) (mesh : Mesh)
    (fr : Frame) : result Frame :=
  let fr := {| zbuf := zbuf fr; screen := cls (screen fr) 0 |} in
  fr ← clear_zbuffer self fr;
  draw_mesh M self mesh fr.

End Phong.

(** ** gouraud_renderer.py *)

Module Gouraud.

Record GouraudRenderer : Type := {
  camera : Camera;
  ambient : Q;
  light_dir : Vec3
}.

(** [GouraudRenderer.__init__]: a zero light direction divides by zero. *)
Definition init (M : MathLib) (cam : Camera) (light : Vec3) (amb : Q)
    : result GouraudRenderer :=
  let '(lx, ly, lz) := light in
  let L := m_sqrt M (lx * lx + ly * ly + lz * lz) in
  dx ← py_div lx L;
  dy ← py_div ly L;
  dz ← py_div lz L;
  Ok {| camera := cam; ambient := amb; light_dir := (dx, dy, dz) |}.

Definition compute_intensity (self : GouraudRenderer) (nx ny nz : Q) : Q :=
  let '(lx, ly, lz) := light_dir self in
  let dot := nx * lx + ny * ly + nz * lz in
  let dot := if Qlt_bool dot 0 then 0 else dot in
  py_min 1 (ambient self + dot * (8 # 10)).

Definition interp (a b t : Q) : Q := a + (b - a) * t.

(** [sorted(..., key=lambda x: x[0][1])] on three items: stable, by
    ascending y. *)
Definition ScreenVertex : Type := (Q * Q) * Q.

Fixpoint insert_by_y (v : ScreenVertex) (l : list ScreenVertex)
    : list ScreenVertex :=
  match l with
  | [] => [v]
  | u :: l' =>
      if Qlt_bool v.1.2 u.1.2 then v :: u :: l' else u :: insert_by_y v l'
  end.

Definition sorted_by_y (l : list ScreenVertex) : list ScreenVertex :=
  foldl (fun sorted v => insert_by_y v sorted) [] l.

(** The inner loop of [draw_gouraud_tri]: one horizontal line. *)
Definition draw_span (xl cl xr cr : Q) (y : Z) (scr : list (list Z))
    : list (list Z) :=
  let x_start := Qceiling xl in
  let x_end := Qfloor xr in
  foldl (fun scr x =>
           let t := if negb (Qeq_bool xr xl)
                    then (inject_Z x - xl) / (xr - xl) else 0 in
           let c := interp cl cr t in
           let shd := py_int (c * 7) in
           pset scr x y shd)
    scr (range x_start (x_end + 1)).

(** [GouraudRenderer.draw_gouraud_tri] *)
Definition draw_gouraud_tri (p0 : Q * Q) (c0 : Q) (p1 : Q * Q) (c1 : Q)
    (p2 : Q * Q) (c2 : Q) (scr : list (list Z)) : list (list Z) :=
  match sorted_by_y [(p0, c0); (p1, c1); (p2, c2)] with
  | [((x0, y0), c0); ((x1, y1), c1); ((x2, y2), c2)] =>
      let part2 := Qeq_bool y1 y2 in
      let y_start := Qceiling y0 in
      let y_end := Qfloor y2 in
      foldl (fun scr y =>
               let yq := inject_Z y in
               let t_long := if negb (Qeq_bool y2 y0)
                             then (yq - y0) / (y2 - y0) else 0 in
               let xl := interp x0 x2 t_long in
               let cl := interp c0 c2 t_long in
               let '(xr, cr) :=
                 if Qlt_bool yq y1 || part2 then
                   let t_short := if negb (Qeq_bool y1 y0)
                                  then (yq - y0) / (y1 - y0) else 0 in
                   (interp x0 x1 t_short, interp c0 c1 t_short)
                 else
                   let t_short := if negb (Qeq_bool y2 y1)
                                  then (yq - y1) / (y2 - y1) else 0 in
                   (interp x1 x2 t_short, interp c1 c2 t_short) in
               let '(xl, cl, xr, cr) :=
                 if Qlt_bool xr xl then (xr, cr, xl, cl) else (xl, cl, xr, cr) in
               draw_span xl cl xr cr y scr)
        scr (range y_start (y_end + 1))
  | _ => scr
  end.

(** The projected points: [None] behind the camera. *)
Definition project_visible (cam : Camera) (cam_pts : list Vec3)
    : result (list (option (Z * Z))) :=
  for_each (fun proj_pts '(x, y, z) =>
              if Qle_bool z 0 then Ok (proj_pts ++ [None])
              else p ← project cam x y z; Ok (proj_pts ++ [Some p]))
    cam_pts [].

(** The intensity of every vertex, from the normals stored in the mesh. *)
Definition intensities (self : GouraudRenderer) (mesh : Mesh) : list Q :=
  map (fun '(nx, ny, nz) => compute_intensity self nx ny nz)
    (vertex_normals mesh).

(** An entry of [face_list]: [(avgz, i0, i1, i2)]. *)
Definition FaceEntry : Type := Q * Z * Z * Z.

Definition face_list (cam_pts : list Vec3) (fcs : list (Z * Z * Z))
    : result (list FaceEntry) :=
  for_each (fun fl '(i0, i1, i2) =>
              v0 ← py_index cam_pts i0;
              v1 ← py_index cam_pts i1;
              v2 ← py_index cam_pts i2;
              let avgz := (v0.2 + v1.2 + v2.2) / 3 in
              Ok (fl ++ [(avgz, i0, i1, i2)]))
    fcs [].

(** The order of Python tuples. *)
Definition entry_lt (a b : FaceEntry) : bool :=
  let '(za, a0, a1, a2) := a in
  let '(zb, b0, b1, b2) := b in
  if Qlt_bool za zb then true else if Qlt_bool zb za then false
  else if (a0 <? b0)%Z then true else if (b0 <? a0)%Z then false
  else if (a1 <? b1)%Z then true else if (b1 <? a1)%Z then false
  else (a2 <? b2)%Z.

(** [face_list.sort(reverse=True)] *)
Fixpoint insert_entry (x : FaceEntry) (l : list FaceEntry) : list FaceEntry :=
  match l with
  | [] => [x]
  | y :: l' => if entry_lt y x then x :: y :: l' else y :: insert_entry x l'
  end.

Definition sort_reverse (l : list FaceEntry) : list FaceEntry :=
  foldl (fun sorted x => insert_entry x sorted) [] l.

(** The body of the drawing loop. *)
Definition draw_face (cam_pts : list Vec3) (proj_pts : list (option (Z * Z)))
    (intens : list Q) (scr : list (list Z)) (e : FaceEntry)
    : result (list (list Z)) :=
  let '(avgz, i0, i1, i2) := e in
  q0 ← py_index proj_pts i0;
  if negb (bool_decide (is_Some q0)) then Ok scr else
  q1 ← py_index proj_pts i1;
  if negb (bool_decide (is_Some q1)) then Ok scr else
  q2 ← py_index proj_pts i2;
  match q0, q1, q2 with
  | Some (sx0, sy0), Some (sx1, sy1), Some (sx2, sy2) =>
      v0 ← py_index cam_pts i0;
      v1 ← py_index cam_pts i1;
      v2 ← py_index cam_pts i2;
      let '(nx, ny, nz) := face_normal v0 v1 v2 in
      if Qle_bool nz 0 then Ok scr
      else
        c0 ← py_index intens i0;
        c1 ← py_index intens i1;
        c2 ← py_index intens i2;
        Ok (draw_gouraud_tri (inject_Z sx0, inject_Z sy0) c0
              (inject_Z sx1, inject_Z sy1) c1
              (inject_Z sx2, inject_Z sy2) c2 scr)
  | _, _, _ => Ok scr
  end.

(** [GouraudRenderer.draw_mesh] *)
Definition draw_mesh (M : MathLib) (self : GouraudRenderer) (mesh : Mesh)
    (scr : list (list Z)) : result (list (list Z)) :=
  let cam := camera self in
  let cam_pts := camera_points M cam mesh in
  proj_pts ← project_visible cam cam_pts;
  let intens := intensities self mesh in
  fl ← face_list cam_pts (faces mesh);
  for_each (draw_face cam_pts proj_pts intens) (sort_reverse fl) scr.

End Gouraud.

(** ** wireframe.py: the UV-sphere generator *)

Module Demo.

(** [idx(lat, lon)] *)
Definition idx (lon_steps lat lon : Z) : Z :=
  (lat * lon_steps + lon mod lon_steps)%Z.

(** The second loop nest: two triangles for every quad of a latitude band. *)
Definition sphere_faces (lat_steps lon_steps : Z) : list (Z * Z * Z) :=
  foldl (fun fcs lat =>
    foldl (fun fcs lon =>
      let i0 := idx lon_steps lat lon in
      let i1 := idx lon_steps (lat + 1) lon in
      let i2 := idx lon_steps lat (lon + 1) in
      let i3 := idx lon_steps (lat + 1) (lon + 1) in
      (fcs ++ [(i0, i1, i2)]) ++ [(i2, i1, i3)])
      fcs (range 0 lon_steps))
    [] (range 0 lat_steps).

(** The first loop nest: one point for every latitude and longitude. *)
Definition sphere_points (M : MathLib) (radius : Q) (lat_steps lon_steps : Z)
    : result (list Vec3) :=
  for_each (fun pts lat =>
    theta ← py_div (m_pi M * inject_Z lat) (inject_Z lat_steps);
    let sin_theta := m_sin M theta in
    let cos_theta := m_cos M theta in
    for_each (fun pts lon =>
      phi ← py_div (2 * m_pi M * inject_Z lon) (inject_Z lon_steps);
      let sin_phi := m_sin M phi in
      let cos_phi := m_cos M phi in
      let x := radius * sin_theta * cos_phi in
      let y := radius * cos_theta in
      let z := radius * sin_theta * sin_phi in
      Ok (pts ++ [(x, y, z)]))
      (range 0 lon_steps) pts)
    (range 0 (lat_steps + 1)) [].

Definition generate_sphere_mesh_with_faces (M : MathLib) (radius : Q)
    (lat_steps lon_steps : Z) : result (list Vec3 * list (Z * Z * Z)) :=
  pts ← sphere_points M radius lat_steps lon_steps;
  Ok (pts, sphere_faces lat_steps lon_steps).

End Demo.

(** ** A math module to run the functions on examples

    Rational stand-ins for [math.pi], [math.sin], [math.cos], [math.tan]
    and [math.sqrt], with every value in lowest terms.  [sin], [cos] and
    [tan] are exact at [0] and [sqrt] is exact on the squares of
    rationals, which is all the examples below rely on. *)

Definition sqrt_approx (q : Q) : Q :=
  let q := Qred q in
  Qred (inject_Z (Z.sqrt (Qnum q * Zpos (Qden q))) / inject_Z (Zpos (Qden q))).

Definition rational_math : MathLib :=
  {| m_pi := 355 # 113;
     m_sin := fun x => Qred (x - x * x * x / 6);
     m_cos := fun x => Qred (1 - x * x / 2);
     m_tan := fun x => Qred (x + x * x * x / 3);
     m_sqrt := sqrt_approx |}.

(** [Camera()] with the default arguments of the constructor. *)
Definition default_camera : Camera :=
  Camera_init rational_math 0 0 0 0 0 0 60 (160 / 120) 160 120 50.

(** ** Notions of the design document *)


(** [n] is [v] with its fractional part dropped (rounding toward zero). *)
Definition truncation (v : Q) (n : Z) : Prop :=
  (0 <= v -> inject_Z n <= v /\ v < inject_Z n + 1) /\
  (v <= 0 -> inject_Z n - 1 < v /\ v <= inject_Z n).


(** [v] brought into the interval from 0 to 1. *)
Definition clamp01 (v : Q) : Q :=
  if Qlt_bool v 0 then 0 else if Qlt_bool 1 v then 1 else v.

(** The Phong property as the design document words it, for a normal
    [(nx, ny, nz)]: with [N.L = 1] the intensity is [ambient + diffuse]
    plus the specular term when the reflection has a positive component
    on the view axis, and with [N.L = -1] it is [ambient]. *)
Definition phong_extremes_unclamped (self : Phong.PhongRenderer)
    (nx ny nz : Q) : Prop :=
  let '(lx, ly, lz) := Phong.light_dir self in
  let dot := nx * lx + ny * ly + nz * lz in
  let rz := 2 * nz - lz in
  (dot == 1 ->
   Phong.phong_intensity self nx ny nz
   == Phong.ambient self + Phong.diffuse self
      + (if Qlt_bool 0 rz then rz ^ Phong.shininess self * Phong.specular self
         else 0)) /\
  (dot == -1 -> Phong.phong_intensity self nx ny nz == Phong.ambient self).

(** The colours behind the palette indices belong to pyxel.  This is
    its default palette (red, green and blue in one number); the source
    calls ink 7 white and ink 1 a dark colour. *)
Definition pyxel_default_palette : list Z :=
  [0x000000; 0x2B335F; 0x7E2072; 0x19959C; 0x8B4852; 0x395C98; 0xA9C1FF;
   0xEEEEEE; 0xD4186C; 0xD38441; 0xE9C35B; 0x70C6A9; 0x7696DE; 0xA3A3A3;
   0xFF9798; 0xEDC7B0]%Z.

(** The sum of the three colour channels of a palette index. *)
Definition brightness (ink : Z) : Z :=
  match pyxel_default_palette !! Z.to_nat ink with
  | Some rgb => (rgb / 65536 + (rgb / 256) mod 256 + rgb mod 256)%Z
  | None => 0%Z
  end.

Definition darker (a b : Z) : Prop := (brightness a < brightness b)%Z.

(** The outline rule as the design document words it: a non-positive
    [nz] means facing away from the camera, and triangles facing away
    get the darker of the two inks. *)
Definition away_is_darker (ink : Q -> Z) : Prop :=
  forall nz_away nz_toward : Q,
    nz_away <= 0 -> 0 < nz_toward -> darker (ink nz_away) (ink nz_toward).

(** [math.sqrt] never returns a negative number. *)
Definition sqrt_nonneg (M : MathLib) : Prop := forall q, 0 <= m_sqrt M q.

(** What the hidden-line renderer draws with [wired] set, [out] being
    the calls made to pyxel: every entry of [face_info] is a face of the
    mesh whose [nz] has the sign of its cross-product normal, its three
    edges are drawn in the ink [wired_ink nz], nothing else is drawn, and
    a positive [nz] gets the darker of the two inks. *)
Definition wired_outline_spec (M : MathLib)
    (self : HiddenLine.HiddenLineRenderer) (mesh : Mesh)
    (out : list PyxelCmd) : Prop :=
  let cam_pts :=
    map (fun '(x, y, z) => world_to_camera M (HiddenLine.camera self) x y z)
      (transformed_points M mesh) in
  exists proj_pts face_info,
    HiddenLine.project_points (HiddenLine.camera self) cam_pts = Ok proj_pts /\
    HiddenLine.face_infos M self cam_pts (faces mesh) = Ok face_info /\
    (forall fi, fi ∈ face_info ->
       fi.2 ∈ faces mesh /\
       (exists v0 v1 v2,
          py_index cam_pts fi.2.1.1 = Ok v0 /\
          py_index cam_pts fi.2.1.2 = Ok v1 /\
          py_index cam_pts fi.2.2 = Ok v2 /\
          (fi.1.1.2 <= 0 <-> (face_normal v0 v1 v2).2 <= 0)) /\
       (exists x0 y0 x1 y1 x2 y2,
          py_index proj_pts fi.2.1.1 = Ok (x0, y0) /\
          py_index proj_pts fi.2.1.2 = Ok (x1, y1) /\
          py_index proj_pts fi.2.2 = Ok (x2, y2) /\
          forall c, c ∈ HiddenLine.outline x0 y0 x1 y1 x2 y2
                          (HiddenLine.wired_ink fi.1.1.2) -> c ∈ out)) /\
    (forall c, c ∈ out ->
       exists x0 y0 x1 y1 ink,
         c = Line x0 y0 x1 y1 ink /\ (ink = 7 \/ ink = 1)%Z) /\
    (forall nz, nz <= 0 -> HiddenLine.wired_ink nz = 7%Z) /\
    (forall nz, 0 < nz -> HiddenLine.wired_ink nz = 1%Z) /\
    darker 1 7.


(** All three indices of a face are positions of the point list. *)
Definition valid_face (n : nat) (f : Z * Z * Z) : Prop :=
  let '(i0, i1, i2) := f in
  (0 <= i0 < Z.of_nat n)%Z /\ (0 <= i1 < Z.of_nat n)%Z /\
  (0 <= i2 < Z.of_nat n)%Z.



(** The mesh with other normals stored in it. *)
Definition with_vertex_normals (mesh : Mesh) (vn : list Vec3) : Mesh :=
  {| points := points mesh; segments := segments mesh; faces := faces mesh;
     vertex_normals := vn;
     mesh_tx := mesh_tx mesh; mesh_ty := mesh_ty mesh; mesh_tz := mesh_tz mesh;
     mesh_rx := mesh_rx mesh; mesh_ry := mesh_ry mesh; mesh_rz := mesh_rz mesh;
     mesh_scale := mesh_scale mesh |}.


(** The depth buffer has the size the renderer was built with. *)
Definition zbuf_shaped (h w : Z) (zb : list (list Q)) : Prop :=
  length zb = Z.to_nat h /\ Forall (fun row => length row = Z.to_nat w) zb.










(** ** Example data *)

(** A mesh of one edge, from the camera position to a point straight ahead. *)
Definition origin_edge_mesh : Mesh :=
  Mesh_init rational_math [(0, 0, 0); (0, 0, 1)] [(0, 1)%Z] [] 0 0 0 0 0 0 1.

Definition default_wireframe : Wireframe.WireframeRenderer :=
  {| Wireframe.camera := default_camera; Wireframe.color := 7 |}.

(** A z-buffered Gouraud renderer on a 4 by 4 surface, its cleared frame,
    and two right triangles over the same pixels at depths 1 and 2. *)
Definition small_zgouraud : ZGouraud.ZBufferedGouraudRenderer :=
  {| ZGouraud.camera := default_camera;
     ZGouraud.ambient := 2 # 10;
     ZGouraud.shade_levels := 8;
     ZGouraud.width := 4;
     ZGouraud.height := 4;
     ZGouraud.light_dir := (0, 0, -1);
     ZGouraud.z_far := 1000000000 |}.

Definition small_frame : Frame :=
  {| zbuf := replicate 4 (replicate 4 1000000000);
     screen := replicate 4 (replicate 4 0%Z) |}.

Definition corner (x y z c : Q) : Corner Q :=
  {| c_x := x; c_y := y; c_z := z; c_attr := c |}.

Definition near_triangle : Triangle Q :=
  (corner 0 0 1 1, corner 4 0 1 1, corner 0 4 1 1).

Definition far_triangle : Triangle Q :=
  (corner 0 0 2 0, corner 4 0 2 0, corner 0 4 2 0).

Definition same_depth_triangle : Triangle Q :=
  (corner 0 0 1 0, corner 4 0 1 0, corner 0 4 1 0).

(** [PhongRenderer(camera, light_dir=(0, 0, 1))] with the default
    coefficients, on a 4 by 4 surface. *)
Definition small_phong (dith : bool) : Phong.PhongRenderer :=
  {| Phong.camera := default_camera;
     Phong.ambient := 2 # 10;
     Phong.diffuse := 8 # 10;
     Phong.specular := 4 # 10;
     Phong.shininess := 32;
     Phong.shade_levels := 16;
     Phong.dithering := dith;
     Phong.highlighting := false;
     Phong.width := 4;
     Phong.height := 4;
     Phong.light_dir := (0, 0, 1);
     Phong.z_far := 1000000000 |}.

(** A camera for an 8 by 8 surface and one triangle in front of it, with
    its corners listed in the two possible orders. *)
Definition small_camera : Camera :=
  Camera_init rational_math 0 0 0 0 0 0 60 1 8 8 1.

Definition one_triangle (f : Z * Z * Z) : Mesh :=
  Mesh_init rational_math [(-2, -2, 1); (2, -2, 1); (-2, 2, 1)] [] [f]
    0 0 0 0 0 0 1.

Definition wired_renderer : HiddenLine.HiddenLineRenderer :=
  HiddenLine.init rational_math small_camera 0 (0, 0, -1) 5 7 false true.

(** The three renderers that shade by vertex, on the 8 by 8 surface of
    [small_camera], with the light shining along the view axis. *)
Definition small8_zgouraud : ZGouraud.ZBufferedGouraudRenderer :=
  (ZGouraud.init rational_math small_camera (0, 0, -1) (2 # 10) 8).1.

Definition small8_phong (dith : bool) : Phong.PhongRenderer :=
  (Phong.init rational_math small_camera (0, 0, -1)
     (2 # 10) (8 # 10) (4 # 10) 32 16 dith false).1.

Definition small8_gouraud : Gouraud.GouraudRenderer :=
  {| Gouraud.camera := small_camera;
     Gouraud.ambient := 2 # 10;
     Gouraud.light_dir := (0, 0, -1) |}.

Definition frame8 : Frame :=
  {| zbuf := (ZGouraud.init rational_math small_camera (0, 0, -1) (2 # 10) 8).2;
     screen := replicate 8 (replicate 8 0%Z) |}.

(** Three normals that all point at the camera. *)
Definition toward_camera : list Vec3 := [(0, 0, -1); (0, 0, -1); (0, 0, -1)].

(** A dithering Phong renderer whose ambient level falls between two
    shades, and a frame of the same size left behind by earlier drawing. *)
Definition dither_phong : Phong.PhongRenderer :=
  (Phong.init rational_math small_camera (0, 0, -1)
     (1 # 4) (8 # 10) (4 # 10) 32 16 true false).1.

Definition used_frame8 : Frame :=
  {| zbuf := replicate 8 (replicate 8 1);
     screen := replicate 8 (replicate 8 9%Z) |}.


(** ** Further notions and example data *)

(** The squared length of a vector. *)
Definition norm2 (v : Vec3) : Q :=
  let '(x, y, z) := v in x * x + y * y + z * z.

(** [math.cos] and [math.sin] agree on the angle [a] of a rotation:
    their squares add up to one. *)
Definition on_circle (M : MathLib) (deg : Q) : Prop :=
  let a := deg * m_pi M / 180 in
  m_cos M a * m_cos M a + m_sin M a * m_sin M a == 1.

(** A math module whose [cos] and [sin] are the rational points of the
    unit circle, [((1 - t^2) / (1 + t^2), 2 t / (1 + t^2))]: not the
    functions of Python, but every pair of values is the cosine and sine
    of one angle. *)
Definition circle_math : MathLib :=
  {| m_pi := 355 # 113;
     m_sin := fun t => Qred (2 * t / (1 + t * t));
     m_cos := fun t => Qred ((1 - t * t) / (1 + t * t));
     m_tan := fun t => Qred (2 * t / (1 - t * t));
     m_sqrt := sqrt_approx |}.

(** The three edges of a face, each as the pair of its ends in
    ascending order. *)
Definition edges_of (f : Z * Z * Z) : list (Z * Z) :=
  let '(i0, i1, i2) := f in
  [Wireframe.sorted_pair i0 i1; Wireframe.sorted_pair i1 i2;
   Wireframe.sorted_pair i2 i0].

(** [a] is drawn no later than [b] in the painter's order: it is at
    least as deep. *)
Definition farther_or_equal (a b : HiddenLine.FaceInfo) : Prop :=
  b.1.1.1 <= a.1.1.1.

(** The entries of a list at the depth [d], in their order. *)
Definition at_depth (d : Q) (l : list HiddenLine.FaceInfo)
    : list HiddenLine.FaceInfo :=
  filter (fun e => Qeq_bool e.1.1.1 d = true) l.

(** What a drawing step of a z-buffered renderer may do to a frame: a
    cell keeps its depth and its colour, or its depth strictly decreases
    to a positive value and its colour, where the surface has the cell,
    becomes a shade index below [levels]. *)
Definition brought_nearer (levels : Z) (fr fr' : Frame) : Prop :=
  forall y x : nat,
    (grid_get (zbuf fr') y x = grid_get (zbuf fr) y x /\
     grid_get (screen fr') y x = grid_get (screen fr) y x) \/
    (exists a b,
       grid_get (zbuf fr) y x = Some a /\
       grid_get (zbuf fr') y x = Some b /\
       0 < b /\ b < a /\
       forall s, grid_get (screen fr') y x = Some s -> (0 <= s < levels)%Z).

(** The frames left by drawing [one_triangle] into [frame8]. *)
Definition drawn8_zgouraud : Frame :=
  match ZGouraud.draw_mesh rational_math small8_zgouraud
          (one_triangle (0, 1, 2)%Z) frame8 with
  | Ok fr => fr
  | Raise _ => frame8
  end.

Definition drawn8_phong : Frame :=
  match Phong.draw_mesh rational_math (small8_phong false)
          (one_triangle (0, 1, 2)%Z) frame8 with
  | Ok fr => fr
  | Raise _ => frame8
  end.

(** The depth buffer keeps the size [h] by [w] from one frame to the
    next. *)
Definition same_size (h w : Z) (fr fr' : Frame) : Prop :=
  zbuf_shaped h w (zbuf fr) -> zbuf_shaped h w (zbuf fr').

(** The difference of two vectors and the squared distance between two
    points. *)
Definition vsub (a b : Vec3) : Vec3 :=
  let '(ax, ay, az) := a in
  let '(bx, b_y, bz) := b in
  (ax - bx, ay - b_y, az - bz).

Definition dist2 (a b : Vec3) : Q := norm2 (vsub a b).

(** A camera and a mesh that are moved, turned and, for the mesh,
    scaled. *)
Definition turned_camera : Camera :=
  Camera_init circle_math 10 20 30 1 2 3 60 1 8 8 1.

Definition turned_mesh : Mesh :=
  Mesh_init circle_math [] [] [] 5 6 7 15 25 35 2.

(** A command of the hidden-line renderer in filled mode: a triangle in
    one of the 16 colours, colour 7 without shading, or an outline
    segment in colour 0. *)
Definition filled_cmd (self : HiddenLine.HiddenLineRenderer) (c : PyxelCmd)
    : Prop :=
  match c with
  | Tri _ _ _ _ _ _ col =>
      (0 <= col <= 15)%Z /\ (HiddenLine.shade self = false -> col = 7%Z)
  | Line _ _ _ _ col => col = 0%Z
  | Pset _ _ _ => False
  end.

(** The renderer with another background colour. *)
Definition with_bg_color (self : HiddenLine.HiddenLineRenderer) (bg : Z)
    : HiddenLine.HiddenLineRenderer :=
  {| HiddenLine.camera := HiddenLine.camera self;
     HiddenLine.bg_color := bg;
     HiddenLine.light_dir := HiddenLine.light_dir self;
     HiddenLine.shade_levels := HiddenLine.shade_levels self;
     HiddenLine.base_color := HiddenLine.base_color self;
     HiddenLine.shade := HiddenLine.shade self;
     HiddenLine.wired := HiddenLine.wired self |}.

(** A hidden-line renderer that fills and shades. *)
Definition shaded_renderer : HiddenLine.HiddenLineRenderer :=
  HiddenLine.init rational_math small_camera 0 (0, 0, -1) 5 7 true false.

(** The order of Python tuples on the entries of the scanline
    renderer's face list, as a proposition. *)
Definition lex_lt (a b : Gouraud.FaceEntry) : Prop :=
  let '(za, a0, a1, a2) := a in
  let '(zb, b0, b1, b2) := b in
  za < zb \/
  (za == zb /\
   ((a0 < b0)%Z \/
    (a0 = b0 /\ ((a1 < b1)%Z \/ (a1 = b1 /\ (a2 < b2)%Z))))).

(** [a] is not below [b] in the order in which the face list is
    sorted. *)
Definition entry_ge (a b : Gouraud.FaceEntry) : Prop :=
  Gouraud.entry_lt a b = false.

(** Every cell of the surface [scr'] holds what it holds in [scr] or a
    colour index between 0 and [hi]. *)
Definition painted_within (hi : Z) (scr scr' : list (list Z)) : Prop :=
  forall (y x : nat) (s : Z),
    grid_get scr' y x = Some s ->
    grid_get scr y x = Some s \/ (0 <= s <= hi)%Z.

(** The surface left by the scanline renderer drawing a triangle that
    faces the camera over [used_frame8]. *)
Definition drawn8_gouraud : list (list Z) :=
  match Gouraud.draw_mesh rational_math small8_gouraud
          (one_triangle (0, 1, 2)%Z) (screen used_frame8) with
  | Ok scr => scr
  | Raise _ => screen used_frame8
  end.

(** The depth and the colour held at row [y], column [x] of a frame;
    [None] where the buffer or the surface has no such cell. *)
Definition frame_cell (fr : Frame) (y x : nat) : option Q * option Z :=
  (grid_get (zbuf fr) y x, grid_get (screen fr) y x).

(** What a z-buffered rasterizer makes of the cell at row [y], column
    [x] for the triangle [t]: where the triangle is not degenerate,
    covers the centre of the pixel and has there a positive depth below
    the stored one, that depth and the shade [shade y x]; the cell as it
    was anywhere else. *)
Definition painted_cell {A : Type} (t : Triangle A) (shade : Z -> Z -> Z)
    (y x : nat) (c : option Q * option Z) : option Q * option Z :=
  match c.1 with
  | Some cur =>
      if negb (Qeq_bool (tri_denom t) 0)
         && covers t (Z.of_nat y) (Z.of_nat x)
         && Qlt_bool 0 (depth_at t (Z.of_nat y) (Z.of_nat x))
         && Qlt_bool (depth_at t (Z.of_nat y) (Z.of_nat x)) cur
      then (Some (depth_at t (Z.of_nat y) (Z.of_nat x)),
            (fun _ => shade (Z.of_nat y) (Z.of_nat x)) <$> c.2)
      else c
  | None => c
  end.

(** The shade index that the Phong [draw_pixel] writes when the depth
    test passes: the normal interpolated and normalized, lit, and turned
    into an index. *)
Definition ph_shade_at (M : MathLib) (self : Phong.PhongRenderer)
    (t : Triangle Vec3) (y x : Z) : Z :=
  let '(p0, p1, p2) := t in
  let '(w0, w1, w2) := bary t y x in
  let '(nx0, ny0, nz0) := c_attr p0 in
  let '(nx1, ny1, nz1) := c_attr p1 in
  let '(nx2, ny2, nz2) := c_attr p2 in
  let nx := w0 * nx0 + w1 * nx1 + w2 * nx2 in
  let ny := w0 * ny0 + w1 * ny1 + w2 * ny2 in
  let nz := w0 * nz0 + w1 * nz1 + w2 * nz2 in
  let length := m_sqrt M (nx * nx + ny * ny + nz * nz) in
  let '(nx, ny, nz) :=
    if Qlt_bool 0 length then (nx / length, ny / length, nz / length)
    else (0, 0, 1) in
  Phong.choose_shade self x y (Phong.phong_intensity self nx ny nz).

(** Two triangles with the same screen positions and depths at their
    corners, whatever they carry for shading. *)
Definition same_geometry {A B : Type} (t : Triangle A) (u : Triangle B)
    : Prop :=
  let '(p0, p1, p2) := t in
  let '(q0, q1, q2) := u in
  (c_x p0 = c_x q0 /\ c_y p0 = c_y q0 /\ c_z p0 = c_z q0) /\
  (c_x p1 = c_x q1 /\ c_y p1 = c_y q1 /\ c_z p1 = c_z q1) /\
  (c_x p2 = c_x q2 /\ c_y p2 = c_y q2 /\ c_z p2 = c_z q2).

(** [near_triangle] with a normal at every corner. *)
Definition near_triangle_normals : Triangle Vec3 :=
  ({| c_x := 0; c_y := 0; c_z := 1; c_attr := (0, 0, -1) |},
   {| c_x := 4; c_y := 0; c_z := 1; c_attr := (0, 0, -1) |},
   {| c_x := 0; c_y := 4; c_z := 1; c_attr := (0, 0, -1) |}).

(** ** wireframe.py: the icosphere generator

    [generate_icosphere_mesh] subdivides the 20 faces of an icosahedron.
    The dictionary [midpoint_cache], keyed by the sorted pair of the two
    end points of an edge, is a finite map; [verts] and the cache are
    the state that [midpoint] reads and updates. *)

Module Ico.

(** [norm]: the vector scaled to length [radius]. *)
Definition norm (M : MathLib) (radius : Q) (v : Vec3) : result Vec3 :=
  let '(x, y, z) := v in
  let l := m_sqrt M (x * x + y * y + z * z) in
  a ← py_div (radius * x) l;
  b ← py_div (radius * y) l;
  c ← py_div (radius * z) l;
  Ok (a, b, c).

(** The 12 vertices of the icosahedron before they are normalized. *)
Definition base_verts (M : MathLib) : list Vec3 :=
  let t := (1 + m_sqrt M 5) / 2 in
  [(-1, t, 0); (1, t, 0); (-1, - t, 0); (1, - t, 0);
   (0, -1, t); (0, 1, t); (0, -1, - t); (0, 1, - t);
   (t, 0, -1); (t, 0, 1); (- t, 0, -1); (- t, 0, 1)].

(** The 20 faces of the icosahedron. *)
Definition base_faces : list (Z * Z * Z) :=
  [(0, 11, 5); (0, 5, 1); (0, 1, 7); (0, 7, 10); (0, 10, 11);
   (1, 5, 9); (5, 11, 4); (11, 10, 2); (10, 7, 6); (7, 1, 8);
   (3, 9, 4); (3, 4, 2); (3, 2, 6); (3, 6, 8); (3, 8, 9);
   (4, 9, 5); (2, 4, 11); (6, 2, 10); (8, 6, 7); (9, 8, 1)]%Z.

(** [verts] and [midpoint_cache]. *)
Definition State : Type := list Vec3 * gmap (Z * Z) Z.

(** [midpoint(i0, i1)]: the index of the vertex in the middle of the
    edge, made and cached at the first request. *)
Definition midpoint (M : MathLib) (radius : Q) (st : State) (i0 i1 : Z)
    : result (State * Z) :=
  let '(verts, midpoint_cache) := st in
  let key := Wireframe.sorted_pair i0 i1 in
  match midpoint_cache !! key with
  | Some idx => Ok (st, idx)
  | None =>
      v0 ← py_index verts i0;
      v1 ← py_index verts i1;
      let mx := (v0.1.1 + v1.1.1) * (1 # 2) in
      let my := (v0.1.2 + v1.1.2) * (1 # 2) in
      let mz := (v0.2 + v1.2) * (1 # 2) in
      m ← norm M radius (mx, my, mz);
      let verts := verts ++ [m] in
      let idx := (Z.of_nat (length verts) - 1)%Z in
      Ok ((verts, <[key := idx]> midpoint_cache), idx)
  end.

(** The body of the loop over the faces: one face becomes four. *)
Definition split_face (M : MathLib) (radius : Q)
    (acc : State * list (Z * Z * Z)) (f : Z * Z * Z)
    : result (State * list (Z * Z * Z)) :=
  let '(st, new_faces) := acc in
  let '(i0, i1, i2) := f in
  '(st, a) ← midpoint M radius st i0 i1;
  '(st, b) ← midpoint M radius st i1 i2;
  '(st, c) ← midpoint M radius st i2 i0;
  Ok (st, new_faces ++ [(i0, a, c); (i1, b, a); (i2, c, b); (a, b, c)]).

(** One round of the subdivision: the cache is cleared and every face
    split. *)
Definition subdivide (M : MathLib) (radius : Q)
    (mesh : list Vec3 * list (Z * Z * Z))
    : result (list Vec3 * list (Z * Z * Z)) :=
  let '(verts, fcs) := mesh in
  '((verts, _), new_faces) ←
    for_each (split_face M radius) fcs ((verts, ∅), []);
  Ok (verts, new_faces).

(** [generate_icosphere_mesh] *)
Definition generate_icosphere_mesh (M : MathLib) (subdivisions : Z)
    (radius : Q) : result (list Vec3 * list (Z * Z * Z)) :=
  verts ← for_each (fun verts v => m ← norm M radius v; Ok (verts ++ [m]))
             (base_verts M) [];
  for_each (fun mesh _ => subdivide M radius mesh) (range 0 subdivisions)
    (verts, base_faces).

End Ico.

(** The icosphere after one subdivision, of radius 1. *)
Definition icosphere_1 : list Vec3 * list (Z * Z * Z) :=
  match Ico.generate_icosphere_mesh rational_math 1 1 with
  | Ok mesh => mesh
  | Raise _ => ([], [])
  end.

(** The result is a value that satisfies [P], or the exception
    ZeroDivisionError: no other exception is raised. *)
Definition ok_or_zero_division {A : Type} (P : A -> Prop) (r : result A)
    : Prop :=
  match r with
  | Ok a => P a
  | Raise e => e = ZeroDivisionError
  end.

(** Every index kept in the cache is a position of the vertex list. *)
Definition cache_valid (st : Ico.State) : Prop :=
  map_Forall (fun _ idx => (0 <= idx < Z.of_nat (length st.1))%Z) st.2.

(** The mesh after [k] rounds of subdivision: at least the 12 vertices
    of the icosahedron, [20 * 4 ^ k] faces, every face index a position
    of the vertex list. *)
Definition icosphere_shape (k : nat) (mesh : list Vec3 * list (Z * Z * Z))
    : Prop :=
  (12 <= length mesh.1)%nat /\
  length mesh.2 = (20 * 4 ^ k)%nat /\
  Forall (valid_face (length mesh.1)) mesh.2.

(** [math.cos] and [math.sin] agree at every angle: their squares add
    up to one. *)
Definition pythagorean (M : MathLib) : Prop :=
  forall a, m_cos M a * m_cos M a + m_sin M a * m_sin M a == 1.

(** A UV sphere of radius 2 computed with [circle_math]. *)
Definition sphere_2_3 : list Vec3 * list (Z * Z * Z) :=
  match Demo.generate_sphere_mesh_with_faces circle_math 2 2 3 with
  | Ok mesh => mesh
  | Raise _ => ([], [])
  end.

(** The point [p] is on the line through [a] and [b]: it is
    [a + s * (b - a)] for some [s]. *)
Definition on_line (a b p : Vec3) : Prop :=
  exists s : Q,
    let '(ax, ay, az) := a in
    let '(bx, b_y, bz) := b in
    let '(px, py, pz) := p in
    px == ax + s * (bx - ax) /\ py == ay + s * (b_y - ay) /\
    pz == az + s * (bz - az).

(** * Properties *)

(** ** Numbers *)

Lemma Qlt_bool_iff a b : Qlt_bool a b = true <-> a < b.
Proof.
  unfold Qlt_bool. rewrite negb_true_iff.
  split; intros H.
  - apply Qnot_le_lt. intros Hle. apply Qle_bool_iff in Hle. congruence.
  - destruct (Qle_bool b a) eqn:E; [|reflexivity].
    apply Qle_bool_iff in E. exfalso. apply (Qlt_not_le _ _ H E).
Qed.

Lemma Qlt_bool_false a b : Qlt_bool a b = false <-> b <= a.
Proof.
  unfold Qlt_bool. rewrite negb_false_iff. apply Qle_bool_iff.
Qed.


Lemma Qsquare_nonneg a : 0 <= a * a.
Proof.
  destruct a as [n d]. unfold Qle, Qmult. cbn. nia.
Qed.

(** Boolean comparisons in the context, read as inequalities. *)
Ltac q_bool_hyps :=
  repeat match goal with
  | H : Qlt_bool _ _ = true |- _ => apply Qlt_bool_iff in H
  | H : Qlt_bool _ _ = false |- _ => apply Qlt_bool_false in H
  end.

Lemma py_div_ok a b : ~ b == 0 -> py_div a b = Ok (a / b).
Proof.
  intros Hb. unfold py_div.
  destruct (Qeq_bool b 0) eqn:E; [|reflexivity].
  apply Qeq_bool_iff in E. contradiction.
Qed.

Lemma py_div_zero a b : b == 0 -> py_div a b = Raise ZeroDivisionError.
Proof.
  intros Hb. unfold py_div.
  apply Qeq_bool_iff in Hb. now rewrite Hb.
Qed.

(** ** The frustum clipper *)

Section Clipper.
Variables AX AY : Q.

(** The four bits of a region code, read back one by one. *)
Lemma outcode_bits X Y Zv :
  let C := outcode AX AY X Y Zv in
  (Z.land C 1 =? 0)%Z = negb (Qlt_bool X (- AX * Zv)) /\
  (Z.land C 2 =? 0)%Z = negb (Qlt_bool (AX * Zv) X) /\
  (Z.land C 4 =? 0)%Z = negb (Qlt_bool Y (- AY * Zv)) /\
  (Z.land C 8 =? 0)%Z = negb (Qlt_bool (AY * Zv) Y).
Proof.
  unfold outcode.
  destruct (Qlt_bool X (- AX * Zv)), (Qlt_bool (AX * Zv) X),
    (Qlt_bool Y (- AY * Zv)), (Qlt_bool (AY * Zv) Y); repeat split.
Qed.

Lemma outcode_zero_iff X Y Zv :
  outcode AX AY X Y Zv = 0%Z <->
  - AX * Zv <= X /\ X <= AX * Zv /\ - AY * Zv <= Y /\ Y <= AY * Zv.
Proof.
  unfold outcode. rewrite <- !Qlt_bool_false.
  destruct (Qlt_bool X (- AX * Zv)), (Qlt_bool (AX * Zv) X),
    (Qlt_bool Y (- AY * Zv)), (Qlt_bool (AY * Zv) Y); cbn;
    split; intros H; try discriminate; try tauto;
    repeat split; try reflexivity; destruct H as (?&?&?&?); discriminate.
Qed.

(** Both codes zero says [|x| <= AX*z] and [|y| <= AY*z]. *)
Lemma outcode_zero_abs X Y Zv :
  outcode AX AY X Y Zv = 0%Z <-> Qabs X <= AX * Zv /\ Qabs Y <= AY * Zv.
Proof.
  rewrite outcode_zero_iff, !Qabs_Qle_condition.
  assert (E1 : - AX * Zv == - (AX * Zv)) by ring.
  assert (E2 : - AY * Zv == - (AY * Zv)) by ring.
  rewrite E1, E2. tauto.
Qed.


End Clipper.




(** C4: a segment whose two endpoints satisfy [|x| <= AX*z] and
    [|y| <= AY*z] has both region codes zero and is accepted with its six
    coordinates unchanged; a segment whose two region codes have a common
    bit is rejected. *)
Theorem clip_segment_accept_inside_reject_shared x0 y0 z0 x1 y1 z1 AX AY :
  (Qabs x0 <= AX * z0 -> Qabs y0 <= AY * z0 ->
   Qabs x1 <= AX * z1 -> Qabs y1 <= AY * z1 ->
   outcode AX AY x0 y0 z0 = 0%Z /\ outcode AX AY x1 y1 z1 = 0%Z /\
   clip_segment x0 y0 z0 x1 y1 z1 AX AY = Ok (0%Z, x0, y0, z0, x1, y1, z1)) /\
  (Z.land (outcode AX AY x0 y0 z0) (outcode AX AY x1 y1 z1) <> 0%Z ->
   clip_segment x0 y0 z0 x1 y1 z1 AX AY = Ok (1%Z, x0, y0, z0, x1, y1, z1)).
Proof.
  split.
  - intros Hx0 Hy0 Hx1 Hy1.
    assert (E0 : outcode AX AY x0 y0 z0 = 0%Z) by (apply outcode_zero_abs; auto).
    assert (E1 : outcode AX AY x1 y1 z1 = 0%Z) by (apply outcode_zero_abs; auto).
    repeat split; trivial.
    unfold clip_segment. change (range_len 1 100) with (S 98).
    cbn [clip_for]. unfold clip_body. rewrite E0, E1. reflexivity.
  - intros Hand.
    unfold clip_segment. change (range_len 1 100) with (S 98).
    cbn [clip_for]. unfold clip_body.
    destruct (Z.lor _ _ =? 0)%Z eqn:El.
    + apply Z.eqb_eq, Z.lor_eq_0_iff in El. destruct El as [E0 E1].
      rewrite E0 in Hand. now rewrite Z.land_0_l in Hand.
    + apply Z.eqb_neq in Hand. rewrite Hand. reflexivity.
Qed.

Lemma clip_segment_accept_inside_reject_shared_witness :
  clip_segment 0 0 1 (1 # 2) 0 2 1 1 = Ok (0%Z, 0, 0, 1, 1 # 2, 0, 2) /\
  clip_segment 5 0 1 7 0 2 1 1 = Ok (1%Z, 5, 0, 1, 7, 0, 2).
Proof.
  split.
  - apply (clip_segment_accept_inside_reject_shared 0 0 1 (1 # 2) 0 2 1 1);
      vm_compute; discriminate.
  - apply (clip_segment_accept_inside_reject_shared 5 0 1 7 0 2 1 1).
    vm_compute. discriminate.
Defined.



(** ** Projection *)

Lemma py_int_truncation v : truncation v (py_int v).
Proof.
  destruct v as [a b]. unfold truncation, py_int. cbn [Qnum Qden].
  split; intros Hv.
  - assert (Ha : (0 <= a)%Z).
    { unfold Qle in Hv. cbn in Hv. lia. }
    rewrite Z.quot_div_nonneg by lia.
    change (a / Z.pos b)%Z with (Qfloor (a # b)).
    split; [apply Qfloor_le|].
    rewrite <- (inject_Z_plus _ 1). apply Qlt_floor.
  - assert (Ha : (a <= 0)%Z).
    { unfold Qle in Hv. cbn in Hv. lia. }
    assert (E : (a ÷ Z.pos b = Qceiling (a # b))%Z).
    { unfold Qceiling, Qfloor. cbn [Qopp Qnum Qden].
      rewrite <- (Z.quot_div_nonneg (- a) (Z.pos b)) by lia.
      rewrite Z.quot_opp_l by lia. lia. }
    rewrite E. split; [|apply Qle_ceiling].
    apply Qle_lt_trans with (inject_Z (Qceiling (a # b) - 1)).
    + unfold Z.sub. rewrite inject_Z_plus, inject_Z_opp.
      change (inject_Z 1) with 1. lra.
    + apply Qceiling_lt.
Qed.




(** ** The wireframe renderer *)

(** A defect of the wireframe renderer: an edge from the camera position
    [(0,0,0)] to a point in front of the camera is not skipped (only one
    end has [z <= 0]), is accepted by the clipper unchanged (both region
    codes are zero) and is then projected, which divides by [z = 0]. *)
Theorem wireframe_draw_mesh_origin_endpoint_raises :
  Forall2 Vec3_eq
    (camera_points rational_math default_camera origin_edge_mesh)
    [(0, 0, 0); (0, 0, 1)] /\
  Wireframe.draw_mesh rational_math default_wireframe origin_edge_mesh None
    = Raise ZeroDivisionError.
Proof.
  split; [|vm_compute; reflexivity].
  repeat constructor; vm_compute; reflexivity.
Qed.

(** ** The UV-sphere generator *)

Lemma range_length a b : length (range a b) = Z.to_nat (b - a).
Proof. unfold range. apply length_seqZ. Qed.

Lemma sphere_faces_inner_length lon_steps lat (l : list Z) fcs :
  length (foldl (fun fcs lon =>
      let i0 := Demo.idx lon_steps lat lon in
      let i1 := Demo.idx lon_steps (lat + 1) lon in
      let i2 := Demo.idx lon_steps lat (lon + 1) in
      let i3 := Demo.idx lon_steps (lat + 1) (lon + 1) in
      (fcs ++ [(i0, i1, i2)]) ++ [(i2, i1, i3)]) fcs l)
  = (length fcs + 2 * length l)%nat.
Proof.
  revert fcs. induction l as [|lon l IH]; intros fcs; cbn [foldl length].
  - lia.
  - rewrite IH, !length_app. cbn. lia.
Qed.

(** Every quad of every latitude band gives two triangles. *)
Lemma sphere_faces_length lat_steps lon_steps :
  length (Demo.sphere_faces lat_steps lon_steps)
  = (2 * (Z.to_nat lat_steps * Z.to_nat lon_steps))%nat.
Proof.
  unfold Demo.sphere_faces.
  assert (G : forall (l : list Z) acc,
    length (foldl (fun fcs lat =>
      foldl (fun fcs lon =>
        let i0 := Demo.idx lon_steps lat lon in
        let i1 := Demo.idx lon_steps (lat + 1) lon in
        let i2 := Demo.idx lon_steps lat (lon + 1) in
        let i3 := Demo.idx lon_steps (lat + 1) (lon + 1) in
        (fcs ++ [(i0, i1, i2)]) ++ [(i2, i1, i3)])
        fcs (range 0 lon_steps)) acc l)
    = (length acc + 2 * (length l * Z.to_nat lon_steps))%nat).
  { induction l as [|lat l IH]; intros acc; cbn [foldl length]; [lia|].
    rewrite IH, sphere_faces_inner_length, range_length.
    rewrite Z.sub_0_r. lia. }
  rewrite G, range_length, Z.sub_0_r. cbn [length]. lia.
Qed.

(** C3, as amended: with one latitude step and four longitude steps the
    generator returns 8 points, which is [(lat_steps+1) * lon_steps], and
    8 faces: two triangles for each of the four quads of the single
    latitude band. *)
Theorem sphere_1_4_counts (M : MathLib) (radius : Q) :
  exists pts fcs,
    Demo.generate_sphere_mesh_with_faces M radius 1 4 = Ok (pts, fcs) /\
    length pts = Z.to_nat ((1 + 1) * 4) /\
    length fcs = (2 * (1 * 4))%nat /\
    fcs = [(0, 4, 1); (1, 4, 5); (1, 5, 2); (2, 5, 6);
           (2, 6, 3); (3, 6, 7); (3, 7, 0); (0, 7, 4)]%Z.
Proof.
  eexists. eexists. split; [vm_compute; reflexivity|].
  repeat split.
Qed.

(** C3 as stated fails: the mesh has 8 faces, not 2. *)
Lemma sphere_1_4_not_two_faces :
  exists pts fcs,
    Demo.generate_sphere_mesh_with_faces rational_math 1 1 4 = Ok (pts, fcs) /\
    length fcs = 8%nat /\ length fcs <> 2%nat.
Proof.
  eexists. eexists. split; [vm_compute; reflexivity|].
  split; [reflexivity|discriminate].
Qed.

(** ** Python lists *)

Lemma py_index_nonneg {A : Type} (l : list A) (i : Z) :
  (0 <= i)%Z ->
  py_index l i = match l !! Z.to_nat i with
                 | Some a => Ok a
                 | None => Raise IndexError
                 end.
Proof.
  intros Hi. unfold py_index.
  destruct (i <? 0)%Z eqn:E; [lia|]. rewrite E. cbn [orb].
  destruct (Z.of_nat (length l) <=? i)%Z eqn:E2; [|reflexivity].
  rewrite lookup_ge_None_2; [reflexivity|lia].
Qed.

Lemma py_setitem_nonneg {A : Type} (l : list A) (i : Z) (a : A) :
  (0 <= i)%Z ->
  py_setitem l i a = match l !! Z.to_nat i with
                     | Some _ => Ok (<[Z.to_nat i := a]> l)
                     | None => Raise IndexError
                     end.
Proof.
  intros Hi. unfold py_setitem.
  destruct (i <? 0)%Z eqn:E; [lia|]. rewrite E. cbn [orb].
  destruct (Z.of_nat (length l) <=? i)%Z eqn:E2.
  - rewrite lookup_ge_None_2; [reflexivity|lia].
  - destruct (lookup_lt_is_Some_2 l (Z.to_nat i)) as [b ->]; [lia|reflexivity].
Qed.

(** ** Grids *)

Section Grid.
Context {A : Type}.
Implicit Types (g : list (list A)) (y x : nat) (a b : A).

Lemma grid_set_length g y x a : length (grid_set g y x a) = length g.
Proof.
  unfold grid_set. destruct (g !! y); [apply length_insert|reflexivity].
Qed.

Lemma grid_get_set_eq g y x a :
  is_Some (grid_get g y x) -> grid_get (grid_set g y x a) y x = Some a.
Proof.
  unfold grid_get, grid_set. intros [c Hc].
  destruct (g !! y) as [row|] eqn:Hrow; [|discriminate]. cbn in Hc.
  rewrite list_lookup_insert_eq by (eapply lookup_lt_Some; eauto). cbn.
  apply list_lookup_insert_eq. eapply lookup_lt_Some; eauto.
Qed.

Lemma grid_get_set_ne g y x a y' x' :
  (y, x) <> (y', x') -> grid_get (grid_set g y x a) y' x' = grid_get g y' x'.
Proof.
  unfold grid_get, grid_set. intros Hne.
  destruct (g !! y) as [row|] eqn:Hrow; [|reflexivity].
  destruct (decide (y = y')) as [<-|Hy].
  - rewrite list_lookup_insert_eq by (eapply lookup_lt_Some; eauto).
    rewrite Hrow. cbn. apply list_lookup_insert_ne. congruence.
  - now rewrite list_lookup_insert_ne.
Qed.

Lemma grid_set_set g y x a b :
  grid_set (grid_set g y x a) y x b = grid_set g y x b.
Proof.
  unfold grid_set.
  destruct (g !! y) as [row|] eqn:Hrow; [|now rewrite Hrow].
  rewrite list_lookup_insert_eq by (eapply lookup_lt_Some; eauto).
  now rewrite list_insert_insert_eq, list_insert_insert_eq.
Qed.

Lemma grid_set_commute g y x a y' x' b :
  (y, x) <> (y', x') ->
  grid_set (grid_set g y x a) y' x' b = grid_set (grid_set g y' x' b) y x a.
Proof.
  unfold grid_set. intros Hne.
  destruct (g !! y) as [row|] eqn:Hrow; destruct (g !! y') as [row'|] eqn:Hrow';
    rewrite ?Hrow, ?Hrow'; try reflexivity.
  - destruct (decide (y = y')) as [<-|Hy].
    + assert (row' = row) as -> by congruence.
      rewrite !list_lookup_insert_eq by (eapply lookup_lt_Some; eauto).
      rewrite !list_insert_insert_eq.
      f_equal. apply list_insert_insert_ne. congruence.
    + rewrite list_lookup_insert_ne by done.
      rewrite (list_lookup_insert_ne _ y' y) by done.
      rewrite Hrow, Hrow'. now apply list_insert_insert_ne.
  - destruct (decide (y = y')) as [<-|Hy]; [congruence|].
    rewrite list_lookup_insert_ne by done. now rewrite Hrow'.
  - destruct (decide (y = y')) as [<-|Hy]; [congruence|].
    rewrite list_lookup_insert_ne by done. now rewrite Hrow.
Qed.

End Grid.

(** ** Loops *)

Lemma for_each_app {A S : Type} (f : S -> A -> result S) l1 l2 st :
  for_each f (l1 ++ l2) st = (for_each f l1 st ≫= for_each f l2).
Proof.
  revert st. induction l1 as [|a l1 IH]; intros st; cbn; [reflexivity|].
  destruct (f st a); cbn; auto.
Qed.

Lemma result_bind_assoc {A B C : Type} (m : result A)
    (f : A -> result B) (g : B -> result C) :
  ((m ≫= f) ≫= g) = (m ≫= fun a => f a ≫= g).
Proof. destruct m; reflexivity. Qed.

Lemma result_bind_ext {A B : Type} (m : result A) (f g : A -> result B) :
  (forall a, f a = g a) -> (m ≫= f) = (m ≫= g).
Proof. intros H. destruct m; cbn; auto. Qed.

(** One step commutes with a loop when it commutes with its body. *)
Lemma step_for_each_commute {B S : Type}
    (h : S -> result S) (g : S -> B -> result S) lb :
  (forall b st, b ∈ lb -> (h st ≫= fun s => g s b) = (g st b ≫= h)) ->
  forall st, (h st ≫= for_each g lb) = (for_each g lb st ≫= h).
Proof.
  induction lb as [|b lb IH]; intros Hc st.
  - cbn. destruct (h st); reflexivity.
  - cbn [for_each].
    rewrite result_bind_assoc.
    rewrite <- (result_bind_ext (g st b) _ _
                  (IH (fun b' st' Hb' => Hc b' st' (list_elem_of_further _ _ _ Hb')))).
    rewrite <- (result_bind_assoc (g st b)).
    rewrite <- (Hc b st (list_elem_of_here _ _)).
    rewrite result_bind_assoc. apply result_bind_ext. reflexivity.
Qed.

(** Two loops over the same state commute when their bodies do. *)
Lemma for_each_commute {A B S : Type}
    (f : S -> A -> result S) (g : S -> B -> result S) la lb :
  (forall a b st, a ∈ la -> b ∈ lb ->
     (f st a ≫= fun s => g s b) = (g st b ≫= fun s => f s a)) ->
  forall st,
    (for_each f la st ≫= for_each g lb) = (for_each g lb st ≫= for_each f la).
Proof.
  induction la as [|a la IH]; intros Hc st.
  - cbn. destruct (for_each g lb st); reflexivity.
  - cbn [for_each].
    rewrite result_bind_assoc.
    rewrite (result_bind_ext (f st a) _ _
               (IH (fun a' b st' Ha' => Hc a' b st' (list_elem_of_further _ _ _ Ha')))).
    rewrite <- (result_bind_assoc (f st a)).
    rewrite (step_for_each_commute (fun s => f s a) g lb
               (fun b st' Hb => Hc a b st' (list_elem_of_here _ _) Hb)).
    rewrite result_bind_assoc. reflexivity.
Qed.

(** ** The depth buffer *)

Lemma zbuf_get_nonneg zb y x :
  (0 <= y)%Z -> (0 <= x)%Z ->
  zbuf_get zb y x = match grid_get zb (Z.to_nat y) (Z.to_nat x) with
                    | Some c => Ok c
                    | None => Raise IndexError
                    end.
Proof.
  intros Hy Hx. unfold zbuf_get, grid_get.
  rewrite py_index_nonneg by done.
  destruct (zb !! Z.to_nat y) as [row|]; cbn; [|reflexivity].
  now rewrite py_index_nonneg.
Qed.

Lemma zbuf_set_nonneg zb y x z :
  (0 <= y)%Z -> (0 <= x)%Z ->
  is_Some (grid_get zb (Z.to_nat y) (Z.to_nat x)) ->
  zbuf_set zb y x z = Ok (grid_set zb (Z.to_nat y) (Z.to_nat x) z).
Proof.
  intros Hy Hx [c Hc]. unfold zbuf_set, grid_get, grid_set in *.
  rewrite py_index_nonneg by done.
  destruct (zb !! Z.to_nat y) as [row|] eqn:Hrow; [|discriminate]. cbn in *.
  rewrite py_setitem_nonneg by done. rewrite Hc. cbn.
  rewrite py_setitem_nonneg by done. now rewrite Hrow.
Qed.

Lemma pset_nonneg scr x y col :
  (0 <= y)%Z -> (0 <= x)%Z ->
  pset scr x y col = grid_set scr (Z.to_nat y) (Z.to_nat x) col.
Proof.
  intros Hy Hx. unfold pset.
  destruct (x <? 0)%Z eqn:E1; [lia|]. destruct (y <? 0)%Z eqn:E2; [lia|].
  reflexivity.
Qed.

(** The nearest depth wins whatever the order, when the two depths differ. *)
Lemma depth_test_put_commute fr y x z s y' x' z' s' :
  ((y, x) = (y', x') -> ~ z == z') ->
  (depth_test_put fr y x z s ≫= fun f => depth_test_put f y' x' z' s')
  = (depth_test_put fr y' x' z' s' ≫= fun f => depth_test_put f y x z s).
Proof.
  intros Hd. destruct (decide ((y, x) = (y', x'))) as [E|Hne].
  - specialize (Hd E). injection E as <- <-.
    unfold depth_test_put.
    destruct (grid_get (zbuf fr) y x) as [cur|] eqn:Hcur; [|reflexivity].
    assert (Hs : is_Some (grid_get (zbuf fr) y x)) by eauto.
    destruct (Qle_bool cur z) eqn:E1, (Qle_bool cur z') eqn:E2; cbn;
      rewrite ?Hcur, ?E1, ?E2, ?(grid_get_set_eq _ _ _ _ Hs); try reflexivity.
    + destruct (Qle_bool z' z) eqn:E3; [reflexivity|].
      apply Qle_bool_iff in E1.
      apply not_true_iff_false in E2, E3.
      rewrite Qle_bool_iff in E2, E3. lra.
    + destruct (Qle_bool z z') eqn:E3; [reflexivity|].
      apply Qle_bool_iff in E2.
      apply not_true_iff_false in E1, E3.
      rewrite Qle_bool_iff in E1, E3. lra.
    + destruct (Qle_bool z z') eqn:E3, (Qle_bool z' z) eqn:E4.
      * apply Qle_bool_iff in E3, E4. exfalso. apply Hd. lra.
      * unfold put; cbn. now rewrite !grid_set_set.
      * unfold put; cbn. now rewrite !grid_set_set.
      * apply not_true_iff_false in E3, E4.
        rewrite Qle_bool_iff in E3, E4. lra.
  - unfold depth_test_put.
    destruct (grid_get (zbuf fr) y x) as [cur|] eqn:Hcur,
             (grid_get (zbuf fr) y' x') as [cur'|] eqn:Hcur'; cbn.
    + destruct (Qle_bool cur z) eqn:E1, (Qle_bool cur' z') eqn:E2; cbn;
        rewrite ?Hcur, ?Hcur', ?E1, ?E2; try reflexivity.
      * rewrite (grid_get_set_ne _ _ _ _ _ _ (not_eq_sym Hne)), Hcur, E1.
        reflexivity.
      * rewrite (grid_get_set_ne _ _ _ _ _ _ Hne), Hcur', E2. reflexivity.
      * rewrite (grid_get_set_ne _ _ _ _ _ _ Hne), Hcur', E2.
        rewrite (grid_get_set_ne _ _ _ _ _ _ (not_eq_sym Hne)), Hcur, E1.
        unfold put; cbn. f_equal. f_equal; now apply grid_set_commute.
    + destruct (Qle_bool cur z) eqn:E1; cbn; rewrite ?Hcur'; try reflexivity.
      now rewrite (grid_get_set_ne _ _ _ _ _ _ Hne), Hcur'.
    + destruct (Qle_bool cur' z') eqn:E2; cbn; rewrite ?Hcur; try reflexivity.
      now rewrite (grid_get_set_ne _ _ _ _ _ _ (not_eq_sym Hne)), Hcur.
    + reflexivity.
Qed.

(** ** The z-buffered Gouraud rasterizer *)

(** The body of the pixel loops is the depth test and the writes of
    [depth_test_put], at the pixels the triangle covers in front of the
    camera. *)
Lemma zg_draw_pixel_view self (t : Triangle Q) y x fr :
  (0 <= y)%Z -> (0 <= x)%Z ->
  ZGouraud.draw_pixel self t (1 / tri_denom t) y fr x
  = if covers t y x && negb (Qle_bool (depth_at t y x) 0)
    then depth_test_put fr (Z.to_nat y) (Z.to_nat x)
           (depth_at t y x) (ZGouraud.shade_at self t y x)
    else Ok fr.
Proof.
  intros Hy Hx. destruct t as [[p0 p1] p2].
  unfold ZGouraud.draw_pixel, covers, depth_at, ZGouraud.shade_at, bary,
    tri_denom, depth_test_put.
  cbv zeta beta iota.
  match goal with |- context [negb (?a || ?b || ?c)] =>
    destruct (a || b || c) eqn:Ew end; [reflexivity|].
  cbn [negb andb].
  match goal with |- context [Qle_bool ?z 0] =>
    destruct (Qle_bool z 0) eqn:Ez end; [reflexivity|].
  cbn [negb].
  rewrite zbuf_get_nonneg by done.
  destruct (grid_get (zbuf fr) (Z.to_nat y) (Z.to_nat x)) as [cur|] eqn:Hc;
    [|reflexivity].
  cbn.
  match goal with |- context [Qle_bool cur ?z] =>
    destruct (Qle_bool cur z) eqn:Ec end; [reflexivity|].
  rewrite zbuf_set_nonneg by eauto. cbn.
  rewrite pset_nonneg by done. reflexivity.
Qed.

Lemma result_bind_ret {A : Type} (m : result A) : (m ≫= Ok) = m.
Proof. destruct m; reflexivity. Qed.

Lemma range_elem a b x : x ∈ range a b -> (a <= x < b)%Z.
Proof. unfold range. rewrite elem_of_seqZ. lia. Qed.

(** [_draw_triangle] either returns at once or runs the pixel loops over
    rows and columns that lie on the surface. *)
Lemma zg_draw_triangle_cases self (t : Triangle Q) :
  (forall fr, ZGouraud._draw_triangle self t fr = Ok fr) \/
  (exists ys xs,
     (forall y, y ∈ ys -> (0 <= y < ZGouraud.height self)%Z) /\
     (forall x, x ∈ xs -> (0 <= x < ZGouraud.width self)%Z) /\
     forall fr,
       ZGouraud._draw_triangle self t fr
       = for_each (fun fr y =>
                     for_each (ZGouraud.draw_pixel self t (1 / tri_denom t) y) xs fr)
           ys fr).
Proof.
  destruct t as [[p0 p1] p2].
  unfold ZGouraud._draw_triangle, tri_denom. cbv zeta beta iota.
  destruct (Qeq_bool _ 0); [left; reflexivity|].
  destruct (_ || _)%Z; [left; reflexivity|].
  right. eexists. eexists. split; [|split; [|reflexivity]].
  - intros y Hy%range_elem. lia.
  - intros x Hx%range_elem. lia.
Qed.

(** C6: drawing two triangles through the depth buffer gives the same
    depth buffer and the same pixels in either order, when the two
    interpolated depths differ at every pixel of the surface that both
    triangles cover. *)
Theorem zbuffer_order_independent self (A B : Triangle Q) (fr : Frame) :
  (forall y x,
     (0 <= y < ZGouraud.height self)%Z -> (0 <= x < ZGouraud.width self)%Z ->
     covers A y x = true -> covers B y x = true ->
     ~ depth_at A y x == depth_at B y x) ->
  (ZGouraud._draw_triangle self A fr ≫= ZGouraud._draw_triangle self B)
  = (ZGouraud._draw_triangle self B fr ≫= ZGouraud._draw_triangle self A).
Proof.
  intros Hd.
  destruct (zg_draw_triangle_cases self A) as [HA|(ysA & xsA & HyA & HxA & HA)].
  { rewrite HA. cbn. rewrite (result_bind_ext _ _ Ok HA).
    now rewrite result_bind_ret. }
  destruct (zg_draw_triangle_cases self B) as [HB|(ysB & xsB & HyB & HxB & HB)].
  { rewrite HB. cbn. rewrite (result_bind_ext _ _ Ok HB).
    now rewrite result_bind_ret. }
  rewrite HA, HB.
  rewrite (result_bind_ext _ _ _ HB), (result_bind_ext _ _ _ HA).
  apply for_each_commute. intros yA yB st HyA' HyB'.
  apply for_each_commute. intros xA xB st' HxA' HxB'.
  specialize (HyA _ HyA'). specialize (HyB _ HyB').
  specialize (HxA _ HxA'). specialize (HxB _ HxB').
  assert (EA : forall s, ZGouraud.draw_pixel self A (1 / tri_denom A) yA s xA
                = if covers A yA xA && negb (Qle_bool (depth_at A yA xA) 0)
                  then depth_test_put s (Z.to_nat yA) (Z.to_nat xA)
                         (depth_at A yA xA) (ZGouraud.shade_at self A yA xA)
                  else Ok s)
    by (intros s; apply zg_draw_pixel_view; lia).
  assert (EB : forall s, ZGouraud.draw_pixel self B (1 / tri_denom B) yB s xB
                = if covers B yB xB && negb (Qle_bool (depth_at B yB xB) 0)
                  then depth_test_put s (Z.to_nat yB) (Z.to_nat xB)
                         (depth_at B yB xB) (ZGouraud.shade_at self B yB xB)
                  else Ok s)
    by (intros s; apply zg_draw_pixel_view; lia).
  rewrite EA, EB.
  rewrite (result_bind_ext _ _ _ EA), (result_bind_ext _ _ _ EB).
  destruct (covers A yA xA && negb (Qle_bool (depth_at A yA xA) 0)) eqn:CA.
  2:{ cbn. now rewrite result_bind_ret. }
  destruct (covers B yB xB && negb (Qle_bool (depth_at B yB xB) 0)) eqn:CB.
  2:{ cbn. now rewrite result_bind_ret. }
  apply andb_true_iff in CA, CB. destruct CA as [CA _], CB as [CB _].
  apply depth_test_put_commute.
  intros [= Ey Ex].
  assert (yA = yB) as -> by lia. assert (xA = xB) as -> by lia.
  now apply Hd.
Qed.

Lemma zbuffer_order_independent_witness :
  (ZGouraud._draw_triangle small_zgouraud near_triangle small_frame
     ≫= ZGouraud._draw_triangle small_zgouraud far_triangle)
  = (ZGouraud._draw_triangle small_zgouraud far_triangle small_frame
       ≫= ZGouraud._draw_triangle small_zgouraud near_triangle).
Proof.
  apply (zbuffer_order_independent small_zgouraud near_triangle far_triangle).
  intros y x Hy Hx _ _.
  change (ZGouraud.height small_zgouraud) with 4%Z in Hy.
  change (ZGouraud.width small_zgouraud) with 4%Z in Hx.
  assert (Ey : y = 0%Z \/ y = 1%Z \/ y = 2%Z \/ y = 3%Z) by lia.
  assert (Ex : x = 0%Z \/ x = 1%Z \/ x = 2%Z \/ x = 3%Z) by lia.
  destruct Ey as [->|[->|[->| ->]]], Ex as [->|[->|[->| ->]]];
    vm_compute; discriminate.
Defined.

(** Without distinct depths the order shows: of two triangles at the
    same depth the one drawn first keeps the pixels. *)
Lemma zbuffer_equal_depth_order_matters :
  (ZGouraud._draw_triangle small_zgouraud near_triangle small_frame
     ≫= ZGouraud._draw_triangle small_zgouraud same_depth_triangle)
  <> (ZGouraud._draw_triangle small_zgouraud same_depth_triangle small_frame
        ≫= ZGouraud._draw_triangle small_zgouraud near_triangle).
Proof. vm_compute. discriminate. Qed.

(** ** Phong lighting *)

Lemma clamp_py_max_min i j : i == j -> py_max 0 (py_min 1 i) == clamp01 j.
Proof.
  intros E. unfold py_max, py_min, clamp01.
  destruct (Qlt_bool i 1) eqn:E1, (Qlt_bool j 0) eqn:E2, (Qlt_bool 1 j) eqn:E3;
    try (destruct (Qlt_bool 0 i) eqn:E4);
    try (destruct (Qlt_bool 0 1) eqn:E5);
    q_bool_hyps; try lra; try reflexivity.
Qed.

Lemma clamp01_id v : 0 <= v -> v <= 1 -> clamp01 v == v.
Proof.
  intros H0 H1. unfold clamp01.
  destruct (Qlt_bool v 0) eqn:E1, (Qlt_bool 1 v) eqn:E2; q_bool_hyps;
    try lra; reflexivity.
Qed.

Lemma Qlt_bool_comp a b c d : a == c -> b == d -> Qlt_bool a b = Qlt_bool c d.
Proof.
  intros E1 E2.
  destruct (Qlt_bool a b) eqn:H1, (Qlt_bool c d) eqn:H2; q_bool_hyps;
    try reflexivity; lra.
Qed.

(** C7, as amended: the intensity is clamped to the interval from 0 to 1.
    For unit [N] and [L] with [N.L = 1] it is [ambient + diffuse] plus the
    specular term [lz ^ shininess * specular] when the reflection (which
    is [L] itself) has a positive component [lz] on the view axis, brought
    into [0, 1]; with [N.L = -1] it is [ambient] brought into [0, 1], hence
    [ambient] itself when [0 <= ambient <= 1]. *)
Theorem phong_intensity_extremes self nx ny nz :
  let '(lx, ly, lz) := Phong.light_dir self in
  nx * nx + ny * ny + nz * nz == 1 ->
  lx * lx + ly * ly + lz * lz == 1 ->
  (nx * lx + ny * ly + nz * lz == 1 ->
   Phong.phong_intensity self nx ny nz
   == clamp01 (Phong.ambient self + Phong.diffuse self
               + (if Qlt_bool 0 lz
                  then lz ^ Phong.shininess self * Phong.specular self
                  else 0))) /\
  (nx * lx + ny * ly + nz * lz == -1 ->
   Phong.phong_intensity self nx ny nz == clamp01 (Phong.ambient self) /\
   (0 <= Phong.ambient self -> Phong.ambient self <= 1 ->
    Phong.phong_intensity self nx ny nz == Phong.ambient self)).
Proof.
  unfold Phong.phong_intensity.
  destruct (Phong.light_dir self) as [[lx ly] lz].
  intros Hn Hl. split; intros Hd.
  - assert (Hnz : nz == lz).
    { assert (S : (nx - lx) * (nx - lx) + (ny - ly) * (ny - ly)
                  + (nz - lz) * (nz - lz) == 0) by lra.
      pose proof (Qsquare_nonneg (nx - lx)) as Sx.
      pose proof (Qsquare_nonneg (ny - ly)) as Sy.
      pose proof (Qsquare_nonneg (nz - lz)) as Sz.
      assert (Z0 : (nz - lz) * (nz - lz) == 0) by lra.
      apply Qmult_integral in Z0. destruct Z0; lra. }
    set (dot := nx * lx + ny * ly + nz * lz) in *.
    assert (E1 : Qlt_bool dot 0 = false) by (apply Qlt_bool_false; lra).
    assert (E2 : Qlt_bool 0 dot = true) by (apply Qlt_bool_iff; lra).
    rewrite E1, E2.
    assert (Erz : 2 * dot * nz - lz == lz) by (rewrite Hd, Hnz; ring).
    rewrite (Qlt_bool_comp 0 (2 * dot * nz - lz) 0 lz) by (trivial; reflexivity).
    apply clamp_py_max_min.
    destruct (Qlt_bool 0 lz); rewrite ?Erz, Hd; ring.
  - set (dot := nx * lx + ny * ly + nz * lz) in *.
    assert (E1 : Qlt_bool dot 0 = true) by (apply Qlt_bool_iff; lra).
    rewrite E1.
    assert (E2 : Qlt_bool 0 0 = false) by reflexivity. rewrite E2.
    assert (E : Phong.ambient self + 0 * Phong.diffuse self + 0
                == Phong.ambient self) by ring.
    split.
    + now apply clamp_py_max_min.
    + intros H0 H1. rewrite (clamp_py_max_min _ _ E). now apply clamp01_id.
Qed.

Lemma phong_intensity_extremes_witness :
  Phong.phong_intensity (small_phong false) 0 0 1
    == clamp01 ((2 # 10) + (8 # 10) + 1 ^ 32 * (4 # 10)) /\
  Phong.phong_intensity (small_phong false) 0 0 (-1) == 2 # 10.
Proof.
  split.
  - apply (phong_intensity_extremes (small_phong false) 0 0 1); reflexivity.
  - apply (phong_intensity_extremes (small_phong false) 0 0 (-1));
      try reflexivity; vm_compute; discriminate.
Defined.

(** C7 as stated fails: with the default coefficients, a light along the
    view axis and the normal parallel to it, the sum
    [0.2 + 0.8 + 0.4 = 1.4] is returned as [1]. *)
Lemma phong_extremes_unclamped_fails :
  0 * 0 + 0 * 0 + 1 * 1 == 1 /\
  ~ phong_extremes_unclamped (small_phong false) 0 0 1.
Proof.
  split; [reflexivity|].
  intros [H _]. specialize (H ltac:(reflexivity)).
  vm_compute in H. discriminate.
Qed.

(** ** The hidden-line renderer *)

Lemma insert_by_depth_perm x l : HiddenLine.insert_by_depth x l ≡ₚ x :: l.
Proof.
  induction l as [|y l IH]; cbn; [reflexivity|].
  destruct (Qlt_bool _ _); [reflexivity|].
  rewrite IH. apply perm_swap.
Qed.

(** Sorting keeps every face and adds none. *)
Lemma sort_by_depth_perm l : HiddenLine.sort_by_depth l ≡ₚ l.
Proof.
  unfold HiddenLine.sort_by_depth.
  assert (G : forall acc,
    foldl (fun sorted x => HiddenLine.insert_by_depth x sorted) acc l ≡ₚ acc ++ l).
  { induction l as [|x l IH]; intros acc; cbn [foldl].
    - now rewrite app_nil_r.
    - rewrite IH, insert_by_depth_perm.
      now rewrite <- Permutation_middle. }
  apply (G []).
Qed.

Lemma wired_ink_cases nz :
  (nz <= 0 -> HiddenLine.wired_ink nz = 7%Z) /\
  (0 < nz -> HiddenLine.wired_ink nz = 1%Z).
Proof.
  unfold HiddenLine.wired_ink.
  destruct (Qle_bool nz 0) eqn:E; split; intros H; try reflexivity.
  - apply Qle_bool_iff in E. lra.
  - apply Qle_bool_iff in H. congruence.
Qed.

(** With [wired] set, one pass of the drawing loop appends the three
    edges of the face in the ink that [wired_ink] names. *)
Lemma draw_face_wired self proj_pts out fi out' :
  HiddenLine.wired self = true ->
  HiddenLine.draw_face self proj_pts out fi = Ok out' ->
  exists x0 y0 x1 y1 x2 y2,
    py_index proj_pts fi.2.1.1 = Ok (x0, y0) /\
    py_index proj_pts fi.2.1.2 = Ok (x1, y1) /\
    py_index proj_pts fi.2.2 = Ok (x2, y2) /\
    out' = out ++ HiddenLine.outline x0 y0 x1 y1 x2 y2
                    (HiddenLine.wired_ink fi.1.1.2).
Proof.
  intros Hw. destruct fi as [[[depth nz] intensity] [[i0 i1] i2]].
  unfold HiddenLine.draw_face, HiddenLine.wired_ink. rewrite Hw. cbn.
  destruct (py_index proj_pts i0) as [[x0 y0]|]; [|discriminate].
  destruct (py_index proj_pts i1) as [[x1 y1]|]; [|discriminate].
  destruct (py_index proj_pts i2) as [[x2 y2]|]; [|discriminate].
  cbn. intros H. exists x0, y0, x1, y1, x2, y2.
  destruct (Qle_bool nz 0); injection H as <-; auto.
Qed.

Lemma draw_faces_wired self proj_pts l out0 out :
  HiddenLine.wired self = true ->
  for_each (HiddenLine.draw_face self proj_pts) l out0 = Ok out ->
  (forall c, c ∈ out0 -> c ∈ out) /\
  (forall fi, fi ∈ l ->
     exists x0 y0 x1 y1 x2 y2,
       py_index proj_pts fi.2.1.1 = Ok (x0, y0) /\
       py_index proj_pts fi.2.1.2 = Ok (x1, y1) /\
       py_index proj_pts fi.2.2 = Ok (x2, y2) /\
       forall c, c ∈ HiddenLine.outline x0 y0 x1 y1 x2 y2
                       (HiddenLine.wired_ink fi.1.1.2) -> c ∈ out) /\
  (forall c, c ∈ out ->
     c ∈ out0 \/ exists x0 y0 x1 y1 ink,
       c = Line x0 y0 x1 y1 ink /\ (ink = 7 \/ ink = 1)%Z).
Proof.
  intros Hw. revert out0. induction l as [|fi l IH]; intros out0 H.
  - cbn in H. injection H as <-. repeat split; auto.
    intros fi Hfi. inversion Hfi.
  - cbn [for_each] in H.
    destruct (HiddenLine.draw_face self proj_pts out0 fi) as [out1|] eqn:E;
      [|discriminate].
    cbn in H. destruct (IH _ H) as (Hsub & Hall & Honly).
    destruct (draw_face_wired _ _ _ _ _ Hw E)
      as (x0 & y0 & x1 & y1 & x2 & y2 & H0 & H1 & H2 & ->).
    repeat split.
    + intros c Hc. apply Hsub, elem_of_app. now left.
    + intros fi' Hfi'. apply elem_of_cons in Hfi' as [->|Hfi']; [|now apply Hall].
      exists x0, y0, x1, y1, x2, y2. repeat split; trivial.
      intros c Hc. apply Hsub, elem_of_app. now right.
    + intros c Hc. destruct (Honly c Hc) as [Hc'|Hc']; [|now right].
      apply elem_of_app in Hc' as [Hc'|Hc']; [now left|right].
      unfold HiddenLine.outline in Hc'.
      assert (Hink : (HiddenLine.wired_ink fi.1.1.2 = 7 \/
                      HiddenLine.wired_ink fi.1.1.2 = 1)%Z).
      { unfold HiddenLine.wired_ink. destruct (Qle_bool _ _); auto. }
      repeat (apply elem_of_cons in Hc' as [->|Hc']; [eauto 10|]).
      inversion Hc'.
Qed.

Lemma Qdiv_pos_sign a b : 0 < b -> (a / b <= 0 <-> a <= 0).
Proof.
  intros Hb. unfold Qdiv.
  pose proof (Qinv_lt_0_compat b Hb) as Hi.
  split; intros H.
  - assert (E : a == a * / b * b) by (field; lra).
    rewrite E. nra.
  - nra.
Qed.

(** An entry of [face_info] stands for a face of the mesh, and its [nz]
    has the sign of the z component of the face's cross-product normal. *)
Lemma face_info_step_entry M self cam_pts acc f acc' :
  sqrt_nonneg M ->
  HiddenLine.face_info_step M self cam_pts acc f = Ok acc' ->
  acc' = acc \/
  exists depth nz intensity v0 v1 v2,
    acc' = acc ++ [(depth, nz, intensity, f)] /\
    py_index cam_pts f.1.1 = Ok v0 /\
    py_index cam_pts f.1.2 = Ok v1 /\
    py_index cam_pts f.2 = Ok v2 /\
    (nz <= 0 <-> (face_normal v0 v1 v2).2 <= 0).
Proof.
  intros Hs. destruct f as [[i0 i1] i2].
  unfold HiddenLine.face_info_step. cbn [fst snd].
  destruct (py_index cam_pts i0) as [v0|]; [|discriminate].
  destruct (py_index cam_pts i1) as [v1|]; [|discriminate].
  destruct (py_index cam_pts i2) as [v2|]; [|discriminate].
  cbn.
  destruct (Qle_bool v0.2 0 && Qle_bool v1.2 0 && Qle_bool v2.2 0);
    [intros [= <-]; now left|].
  destruct (face_normal v0 v1 v2) as [[nx ny] nz] eqn:En.
  destruct (Qeq_bool _ 0) eqn:El; [intros [= <-]; now left|].
  destruct (HiddenLine.light_dir self) as [[lx ly] lz].
  intros [= <-]. right.
  do 3 eexists. exists v0, v1, v2. repeat split; try reflexivity.
  - rewrite En. cbn. intros H. eapply Qdiv_pos_sign; [|exact H].
    apply Qeq_bool_neq in El. specialize (Hs (nx * nx + ny * ny + nz * nz)).
    lra.
  - rewrite En. cbn. intros H. apply Qdiv_pos_sign; [|exact H].
    apply Qeq_bool_neq in El. specialize (Hs (nx * nx + ny * ny + nz * nz)).
    lra.
Qed.

Lemma face_infos_entries M self cam_pts fcs acc0 face_info :
  sqrt_nonneg M ->
  for_each (HiddenLine.face_info_step M self cam_pts) fcs acc0 = Ok face_info ->
  forall fi, fi ∈ face_info ->
    fi ∈ acc0 \/
    (fi.2 ∈ fcs /\
     exists v0 v1 v2,
       py_index cam_pts fi.2.1.1 = Ok v0 /\
       py_index cam_pts fi.2.1.2 = Ok v1 /\
       py_index cam_pts fi.2.2 = Ok v2 /\
       (fi.1.1.2 <= 0 <-> (face_normal v0 v1 v2).2 <= 0)).
Proof.
  intros Hs. revert acc0. induction fcs as [|f fcs IH]; intros acc0 H fi Hfi.
  - cbn in H. injection H as <-. now left.
  - cbn [for_each] in H.
    destruct (HiddenLine.face_info_step M self cam_pts acc0 f) as [acc1|] eqn:E;
      [|discriminate].
    cbn in H. destruct (IH _ H fi Hfi) as [Hin|[Hin Hv]].
    + destruct (face_info_step_entry _ _ _ _ _ _ Hs E)
        as [->|(d & nz & i & v0 & v1 & v2 & -> & H0 & H1 & H2 & Hsgn)];
        [now left|].
      apply elem_of_app in Hin as [Hin|Hin]; [now left|right].
      apply list_elem_of_singleton in Hin as ->. cbn [fst snd].
      split; [left|]. exists v0, v1, v2. auto.
    + right. split; [now right|exact Hv].
Qed.

Lemma sqrt_approx_nonneg : sqrt_nonneg rational_math.
Proof.
  intros q. cbn. unfold sqrt_approx. rewrite Qred_correct.
  apply Qle_shift_div_l; [reflexivity|].
  rewrite Qmult_0_l. change 0 with (inject_Z 0). rewrite <- Zle_Qle.
  apply Z.sqrt_nonneg.
Qed.

(** C8, as amended: with the wireframe overlay requested every surviving
    triangle has its three screen edges drawn, in ink 7 when the z
    component of its camera-space normal is non-positive and in the
    strictly darker ink 1 when it is positive. *)
Theorem hidden_line_wired_outline M self mesh out :
  sqrt_nonneg M ->
  HiddenLine.wired self = true ->
  HiddenLine.draw_mesh M self mesh = Ok out ->
  wired_outline_spec M self mesh out.
Proof.
  intros Hs Hw H. unfold HiddenLine.draw_mesh in H. unfold wired_outline_spec.
  cbv zeta in *.
  destruct (HiddenLine.project_points _ _) as [proj_pts|]; [|discriminate].
  cbn in H.
  destruct (HiddenLine.face_infos M self _ (faces mesh)) as [face_info|] eqn:Ef;
    [|discriminate].
  cbn in H. exists proj_pts, face_info.
  destruct (draw_faces_wired _ _ _ _ _ Hw H) as (_ & Hall & Honly).
  split; [reflexivity|]. split; [reflexivity|]. split; [|split; [|split; [|split]]].
  - intros fi Hfi.
    destruct (face_infos_entries _ _ _ _ _ _ Hs Ef fi Hfi) as [Hnil|[Hin Hv]];
      [inversion Hnil|].
    split; [exact Hin|]. split; [exact Hv|].
    apply Hall. now rewrite sort_by_depth_perm.
  - intros c Hc. destruct (Honly c Hc) as [Hnil|Hl]; [inversion Hnil|exact Hl].
  - intros nz. apply wired_ink_cases.
  - intros nz. apply wired_ink_cases.
  - reflexivity.
Qed.

Lemma hidden_line_wired_outline_witness :
  wired_outline_spec rational_math wired_renderer (one_triangle (0, 2, 1)%Z)
    [Line 2 6 2 2 7; Line 2 2 6 6 7; Line 6 6 2 6 7].
Proof.
  apply (hidden_line_wired_outline rational_math wired_renderer
           (one_triangle (0, 2, 1)%Z)).
  - exact sqrt_approx_nonneg.
  - reflexivity.
  - vm_compute. reflexivity.
Defined.

(** C8 as stated fails: the face whose normal has a non-positive z
    component is drawn in ink 7 (white) and the face with a positive one
    in ink 1, so the ink of the triangles the claim calls facing away is
    not the darker one. *)
Lemma away_is_darker_fails :
  HiddenLine.draw_mesh rational_math wired_renderer (one_triangle (0, 2, 1)%Z)
    = Ok [Line 2 6 2 2 7; Line 2 2 6 6 7; Line 6 6 2 6 7] /\
  HiddenLine.draw_mesh rational_math wired_renderer (one_triangle (0, 1, 2)%Z)
    = Ok [Line 2 6 6 6 1; Line 6 6 2 2 1; Line 2 2 2 6 1] /\
  ~ away_is_darker HiddenLine.wired_ink.
Proof.
  split; [vm_compute; reflexivity|]. split; [vm_compute; reflexivity|].
  intros H. specialize (H (-1) 1 ltac:(discriminate) ltac:(reflexivity)).
  vm_compute in H. discriminate.
Qed.

(** ** Per-vertex normals of the z-buffered renderers *)

Lemma for_each_ok_ind {A S : Type} (P : S -> Prop) (f : S -> A -> result S) l :
  (forall st a, a ∈ l -> P st -> exists st', f st a = Ok st' /\ P st') ->
  forall st, P st -> exists st', for_each f l st = Ok st' /\ P st'.
Proof.
  induction l as [|a l IH]; intros Hf st Hst; cbn [for_each]; [eauto|].
  destruct (Hf st a (list_elem_of_here _ _) Hst) as (st1 & -> & H1). cbn.
  apply IH; [|exact H1].
  intros st' b Hb. apply Hf. now right.
Qed.









(** The contrast between the renderers on one triangle: storing other
    normals in the mesh changes what the scanline Gouraud renderer draws (shade 1
    becomes shade 7) and leaves the z-buffered renderers' frame as it
    was. *)
Lemma gouraud_reads_stored_normals :
  Gouraud.draw_mesh rational_math small8_gouraud
    (with_vertex_normals (one_triangle (0, 1, 2)%Z) toward_camera)
    (screen frame8)
  <> Gouraud.draw_mesh rational_math small8_gouraud
       (one_triangle (0, 1, 2)%Z) (screen frame8).
Proof. vm_compute. discriminate. Qed.

(** ** Clearing the surface and the depth buffer *)

Lemma cls_shape (s1 s2 : list (list Z)) col :
  map length s1 = map length s2 -> cls s1 col = cls s2 col.
Proof.
  unfold cls. revert s2. induction s1 as [|r1 s1 IH]; intros [|r2 s2] H;
    try discriminate; [reflexivity|].
  cbn in H. injection H as Hr Hs. cbn. f_equal; [|now apply IH].
  clear -Hr. revert r2 Hr.
  induction r1 as [|a r1 IH]; intros [|b r2] H; try discriminate;
    [reflexivity|].
  cbn in *. f_equal. apply IH. congruence.
Qed.

(** The inner loop of [clear_zbuffer] on row [y], from column [a] on. *)
Lemma clear_row_loop (zb : list (list Q)) (y : nat) row z (k a : nat) :
  zb !! y = Some row -> (a + k <= length row)%nat ->
  for_each (fun zb x => zbuf_set zb (Z.of_nat y) x z)
    (seqZ (Z.of_nat a) (Z.of_nat k)) zb
  = Ok (<[y := take a row ++ replicate k z ++ drop (a + k) row]> zb).
Proof.
  revert a zb row. induction k as [|k IH]; intros a zb row Hy Hk.
  - cbn. f_equal. symmetry. apply list_insert_id.
    now rewrite Nat.add_0_r, take_drop.
  - rewrite seqZ_cons by lia. cbn [for_each].
    assert (Hcell : is_Some (grid_get zb y a)).
    { unfold grid_get. rewrite Hy. cbn. apply lookup_lt_is_Some_2. lia. }
    rewrite zbuf_set_nonneg by (rewrite ?Nat2Z.id; trivial; lia).
    rewrite !Nat2Z.id. cbn.
    unfold grid_set. rewrite Hy.
    replace (Z.succ (Z.of_nat a)) with (Z.of_nat (S a)) by lia.
    replace (Z.pred (Z.of_nat (S k))) with (Z.of_nat k) by lia.
    rewrite (IH (S a) _ (<[a := z]> row)).
    + rewrite list_insert_insert_eq. do 2 f_equal.
      rewrite (take_S_r _ a z) by (apply list_lookup_insert_eq; lia).
      rewrite take_insert_ge by lia.
      rewrite drop_insert_lt by lia.
      rewrite <- app_assoc. cbn. now rewrite Nat.add_succ_r.
    + apply list_lookup_insert_eq. eapply lookup_lt_Some; eauto.
    + rewrite length_insert. lia.
Qed.

(** The outer loop of [clear_zbuffer], from row [b] on. *)
Lemma clear_rows_loop (zb : list (list Q)) z (w : nat) (j b : nat) :
  Forall (fun row => length row = w) zb -> (b + j <= length zb)%nat ->
  for_each (fun zb y =>
              for_each (fun zb x => zbuf_set zb y x z)
                (seqZ 0 (Z.of_nat w)) zb)
    (seqZ (Z.of_nat b) (Z.of_nat j)) zb
  = Ok (take b zb ++ replicate j (replicate w z) ++ drop (b + j) zb).
Proof.
  revert b zb. induction j as [|j IH]; intros b zb Hw Hj.
  - cbn. now rewrite Nat.add_0_r, take_drop.
  - rewrite (seqZ_cons (Z.of_nat b)) by lia. cbn [for_each].
    destruct (lookup_lt_is_Some_2 zb b) as [row Hrow]; [lia|].
    assert (Hlen : length row = w).
    { eapply Forall_lookup_1 in Hw; eauto. }
    pose proof (clear_row_loop zb b row z w 0 Hrow ltac:(lia)) as Hr.
    change (Z.of_nat 0) with 0%Z in Hr. rewrite Hr. clear Hr.
    cbn [mbind result_bind].
    rewrite take_0, (drop_ge row) by lia. cbn [app]. rewrite app_nil_r.
    replace (Z.succ (Z.of_nat b)) with (Z.of_nat (S b)) by lia.
    replace (Z.pred (Z.of_nat (S j))) with (Z.of_nat j) by lia.
    rewrite IH.
    + f_equal.
      rewrite (take_S_r _ b (replicate w z))
        by (apply list_lookup_insert_eq; eapply lookup_lt_Some; eauto).
      rewrite take_insert_ge by lia.
      rewrite drop_insert_lt by lia.
      rewrite <- app_assoc. cbn. now rewrite Nat.add_succ_r.
    + apply Forall_insert; [exact Hw|apply length_replicate].
    + rewrite length_insert. lia.
Qed.

(** On a depth buffer of the renderer's size [clear_zbuffer] leaves the
    far value in every cell, whatever the buffer held. *)
Lemma clear_rows_shaped h w z zb :
  zbuf_shaped h w zb ->
  clear_rows h w z zb
  = Ok (replicate (Z.to_nat h) (replicate (Z.to_nat w) z)).
Proof.
  intros [Hh Hw]. unfold clear_rows, range. rewrite !Z.sub_0_r.
  assert (Eh : seqZ 0 h = seqZ (Z.of_nat 0) (Z.of_nat (Z.to_nat h))).
  { unfold seqZ. now rewrite Nat2Z.id. }
  assert (Ew : seqZ 0 w = seqZ 0 (Z.of_nat (Z.to_nat w))).
  { unfold seqZ. now rewrite Nat2Z.id. }
  rewrite Eh, Ew.
  rewrite (clear_rows_loop zb z (Z.to_nat w) (Z.to_nat h) 0 Hw) by (cbn; lia).
  rewrite take_0, drop_ge by (cbn; lia). cbn [app]. now rewrite app_nil_r.
Qed.

(** ** Dithering *)

Lemma hash01_bounds x y : 0 <= Phong.hash01 x y /\ Phong.hash01 x y <= 1.
Proof.
  unfold Phong.hash01.
  set (a := Z.lxor (x * 73856093) (y * 19349663)).
  assert (E : Z.land a 255 = (a mod 2 ^ 8)%Z).
  { change 255%Z with (Z.ones 8). apply Z.land_ones. lia. }
  rewrite E. pose proof (Z.mod_pos_bound a (2 ^ 8) ltac:(lia)) as [H0 H1].
  split.
  - apply Qle_shift_div_l; [reflexivity|]. rewrite Qmult_0_l.
    change 0 with (inject_Z 0). rewrite <- Zle_Qle. exact H0.
  - apply Qle_shift_div_r; [reflexivity|]. rewrite Qmult_1_l.
    change 255 with (inject_Z 255). rewrite <- Zle_Qle.
    change (2 ^ 8)%Z with 256%Z in *. lia.
Qed.

(** C9: the shade written at a pixel is [choose_shade] of the pixel
    coordinates and the intensity, which with dithering rounds up
    exactly when [hash01 x y], a number between 0 and 1 computed from
    the coordinates alone, is below the fractional part; and a frame
    (clear the surface, clear the depth buffer, draw the mesh) comes out
    the same whatever earlier frames left in the depth buffer and on the
    surface. *)
Theorem phong_frame_reproducible M self mesh fr1 fr2 :
  zbuf_shaped (Phong.height self) (Phong.width self) (zbuf fr1) ->
  zbuf_shaped (Phong.height self) (Phong.width self) (zbuf fr2) ->
  map length (screen fr1) = map length (screen fr2) ->
  Phong.render_frame M self mesh fr1 = Phong.render_frame M self mesh fr2 /\
  (forall x y, 0 <= Phong.hash01 x y /\ Phong.hash01 x y <= 1) /\
  (forall x y c,
     Phong.dithering self = true ->
     let v := c * inject_Z (Phong.shade_levels self - 1) in
     Phong.choose_shade self x y c
     = if Qlt_bool (Phong.hash01 x y) (v - inject_Z (py_int v))
       then Z.min (py_int v + 1) (Phong.shade_levels self - 1)
       else py_int v).
Proof.
  intros H1 H2 Hs. split; [|split].
  - unfold Phong.render_frame, Phong.clear_zbuffer. cbn [zbuf screen].
    rewrite (clear_rows_shaped _ _ _ _ H1), (clear_rows_shaped _ _ _ _ H2).
    now rewrite (cls_shape _ _ 0 Hs).
  - apply hash01_bounds.
  - intros x y c Hd. unfold Phong.choose_shade. now rewrite Hd.
Qed.

Lemma phong_frame_reproducible_witness :
  Phong.render_frame rational_math dither_phong (one_triangle (0, 1, 2)%Z)
    frame8
  = Phong.render_frame rational_math dither_phong (one_triangle (0, 1, 2)%Z)
      used_frame8.
Proof.
  apply (phong_frame_reproducible rational_math dither_phong
           (one_triangle (0, 1, 2)%Z) frame8 used_frame8).
  - split; [reflexivity|]. repeat constructor.
  - split; [reflexivity|]. repeat constructor.
  - reflexivity.
Defined.

(** ** No renderer fails on a mesh with vertices behind the camera *)

Lemma py_index_valid {A : Type} (l : list A) (i : Z) :
  (0 <= i < Z.of_nat (length l))%Z ->
  exists a, py_index l i = Ok a /\ l !! Z.to_nat i = Some a.
Proof.
  intros Hi. rewrite py_index_nonneg by lia.
  destruct (lookup_lt_is_Some_2 l (Z.to_nat i)) as [a Ha]; [lia|].
  rewrite Ha. eauto.
Qed.








Lemma grid_set_shaped h w (zb : list (list Q)) y x z :
  zbuf_shaped h w zb -> zbuf_shaped h w (grid_set zb y x z).
Proof.
  intros [Hh Hw]. unfold grid_set.
  destruct (zb !! y) as [row|] eqn:Hrow; [|now split].
  split; [now rewrite length_insert|].
  apply Forall_insert; [exact Hw|].
  rewrite length_insert. eapply Forall_lookup_1 in Hw; eauto.
Qed.

Lemma zbuf_cell_shaped h w (zb : list (list Q)) y x :
  zbuf_shaped h w zb -> (0 <= y < h)%Z -> (0 <= x < w)%Z ->
  is_Some (grid_get zb (Z.to_nat y) (Z.to_nat x)).
Proof.
  intros [Hh Hw] Hy Hx. unfold grid_get.
  destruct (lookup_lt_is_Some_2 zb (Z.to_nat y)) as [row Hrow]; [lia|].
  rewrite Hrow. cbn. apply lookup_lt_is_Some_2.
  eapply Forall_lookup_1 in Hw; eauto. cbn in Hw. lia.
Qed.

Lemma zbuf_get_shaped h w zb y x :
  zbuf_shaped h w zb -> (0 <= y < h)%Z -> (0 <= x < w)%Z ->
  exists c, zbuf_get zb y x = Ok c.
Proof.
  intros Hs Hy Hx. rewrite zbuf_get_nonneg by lia.
  destruct (zbuf_cell_shaped h w zb y x Hs Hy Hx) as [c ->]. eauto.
Qed.

Lemma zbuf_set_shaped h w zb y x z :
  zbuf_shaped h w zb -> (0 <= y < h)%Z -> (0 <= x < w)%Z ->
  exists zb', zbuf_set zb y x z = Ok zb' /\ zbuf_shaped h w zb'.
Proof.
  intros Hs Hy Hx.
  rewrite zbuf_set_nonneg by (try lia; eapply zbuf_cell_shaped; eauto).
  eexists. split; [reflexivity|]. now apply grid_set_shaped.
Qed.

(** On a depth buffer of the renderer's size no pixel of the surface
    raises, and the size stays. *)
Lemma zg_draw_pixel_total self (t : Triangle Q) inv_denom y x fr :
  zbuf_shaped (ZGouraud.height self) (ZGouraud.width self) (zbuf fr) ->
  (0 <= y < ZGouraud.height self)%Z -> (0 <= x < ZGouraud.width self)%Z ->
  exists fr',
    ZGouraud.draw_pixel self t inv_denom y fr x = Ok fr' /\
    zbuf_shaped (ZGouraud.height self) (ZGouraud.width self) (zbuf fr').
Proof.
  intros Hs Hy Hx. destruct t as [[p0 p1] p2].
  unfold ZGouraud.draw_pixel. cbv zeta beta iota.
  destruct (_ || _ || _); [eauto|].
  destruct (Qle_bool _ 0); [eauto|].
  destruct (zbuf_get_shaped _ _ _ y x Hs Hy Hx) as [cur ->]. cbn.
  destruct (Qle_bool cur _); [eauto|].
  match goal with |- context [zbuf_set _ _ _ ?z] =>
    destruct (zbuf_set_shaped _ _ _ y x z Hs Hy Hx) as (zb' & -> & Hs') end.
  cbn. eauto.
Qed.

Lemma zg_draw_triangle_total self (t : Triangle Q) fr :
  zbuf_shaped (ZGouraud.height self) (ZGouraud.width self) (zbuf fr) ->
  exists fr',
    ZGouraud._draw_triangle self t fr = Ok fr' /\
    zbuf_shaped (ZGouraud.height self) (ZGouraud.width self) (zbuf fr').
Proof.
  intros Hs.
  destruct (zg_draw_triangle_cases self t) as [H|(ys & xs & Hy & Hx & H)];
    rewrite H; [eauto|].
  apply (for_each_ok_ind
           (fun fr => zbuf_shaped (ZGouraud.height self) (ZGouraud.width self)
                        (zbuf fr))); [|exact Hs].
  intros st y Hyin Hst.
  apply (for_each_ok_ind
           (fun fr => zbuf_shaped (ZGouraud.height self) (ZGouraud.width self)
                        (zbuf fr))); [|exact Hst].
  intros st' x Hxin Hst'. apply zg_draw_pixel_total; auto.
Qed.




Lemma camera_points_length M cam mesh :
  length (camera_points M cam mesh) = length (points mesh).
Proof. unfold camera_points. apply length_map. Qed.


Lemma ph_draw_pixel_total M self (t : Triangle Vec3) inv_denom y x fr :
  zbuf_shaped (Phong.height self) (Phong.width self) (zbuf fr) ->
  (0 <= y < Phong.height self)%Z -> (0 <= x < Phong.width self)%Z ->
  exists fr',
    Phong.draw_pixel M self t inv_denom y fr x = Ok fr' /\
    zbuf_shaped (Phong.height self) (Phong.width self) (zbuf fr').
Proof.
  intros Hs Hy Hx. destruct t as [[p0 p1] p2].
  unfold Phong.draw_pixel. cbv zeta beta iota.
  destruct (c_attr p0) as [[nx0 ny0] nz0].
  destruct (c_attr p1) as [[nx1 ny1] nz1].
  destruct (c_attr p2) as [[nx2 ny2] nz2].
  destruct (Qlt_bool _ 0); [eauto|].
  destruct (Qlt_bool _ 0); [eauto|].
  destruct (Qlt_bool _ 0); [eauto|].
  destruct (Qle_bool _ 0); [eauto|].
  destruct (zbuf_get_shaped _ _ _ y x Hs Hy Hx) as [cur ->].
  cbn -[Phong.phong_intensity Phong.choose_shade].
  destruct (Qle_bool cur _); [eauto|].
  match goal with |- context [zbuf_set _ _ _ ?z] =>
    destruct (zbuf_set_shaped _ _ _ y x z Hs Hy Hx) as (zb' & -> & Hs') end.
  cbn -[Phong.phong_intensity Phong.choose_shade].
  destruct (Qlt_bool 0 _); eauto.
Qed.

Lemma ph_draw_triangle_total M self (t : Triangle Vec3) fr :
  zbuf_shaped (Phong.height self) (Phong.width self) (zbuf fr) ->
  exists fr',
    Phong._draw_triangle M self t fr = Ok fr' /\
    zbuf_shaped (Phong.height self) (Phong.width self) (zbuf fr').
Proof.
  intros Hs. destruct t as [[p0 p1] p2].
  unfold Phong._draw_triangle. cbv zeta beta iota.
  destruct (Qeq_bool _ 0); [eauto|].
  destruct (_ || _)%Z; [eauto|].
  apply (for_each_ok_ind
           (fun fr => zbuf_shaped (Phong.height self) (Phong.width self)
                        (zbuf fr))); [|exact Hs].
  intros st y Hy%range_elem Hst.
  apply (for_each_ok_ind
           (fun fr => zbuf_shaped (Phong.height self) (Phong.width self)
                        (zbuf fr))); [|exact Hst].
  intros st' x Hx%range_elem Hst'. apply ph_draw_pixel_total; auto; lia.
Qed.





Lemma insert_entry_perm x l : Gouraud.insert_entry x l ≡ₚ x :: l.
Proof.
  induction l as [|y l IH]; cbn; [reflexivity|].
  destruct (Gouraud.entry_lt y x); [reflexivity|].
  rewrite IH. apply perm_swap.
Qed.

Lemma sort_reverse_perm l : Gouraud.sort_reverse l ≡ₚ l.
Proof.
  unfold Gouraud.sort_reverse.
  assert (G : forall acc,
    foldl (fun sorted x => Gouraud.insert_entry x sorted) acc l ≡ₚ acc ++ l).
  { induction l as [|x l IH]; intros acc; cbn [foldl].
    - now rewrite app_nil_r.
    - rewrite IH, insert_entry_perm. now rewrite <- Permutation_middle. }
  apply (G []).
Qed.



(** *** Faces and edges that are left out *)


Lemma py_index_lookup {A : Type} (l : list A) (i : Z) (a : A) :
  (0 <= i)%Z -> l !! Z.to_nat i = Some a -> py_index l i = Ok a.
Proof. intros Hi H. rewrite py_index_nonneg by trivial. now rewrite H. Qed.










(** The frame of the witness above: the ambient level 3.75 is dithered
    between the shades 3 and 4 by the position of the pixel. *)
Lemma phong_dithered_frame_example :
  exists fr,
    Phong.render_frame rational_math dither_phong (one_triangle (0, 1, 2)%Z)
      used_frame8 = Ok fr /\
    screen fr
    = [[0; 0; 0; 0; 0; 0; 0; 0]; [0; 0; 0; 0; 0; 0; 0; 0];
       [0; 0; 4; 0; 0; 0; 0; 0]; [0; 0; 4; 3; 0; 0; 0; 0];
       [0; 0; 3; 4; 4; 0; 0; 0]; [0; 0; 4; 4; 4; 3; 0; 0];
       [0; 0; 0; 0; 0; 0; 0; 0]; [0; 0; 0; 0; 0; 0; 0; 0]]%Z.
Proof. eexists. split; vm_compute; reflexivity. Qed.

(** * Further properties of the code *)

(** ** Rotation and the transform pipeline *)

Lemma circle_math_on_circle deg : on_circle circle_math deg.
Proof.
  unfold on_circle. cbn. set (t := deg * (355 # 113) / 180).
  rewrite !Qred_correct.
  assert (H : ~ 1 + t * t == 0).
  { pose proof (Qsquare_nonneg t). lra. }
  field. exact H.
Qed.

Lemma rotate_xyz_norm2 M X Y Z RX RY RZ :
  on_circle M RX -> on_circle M RY -> on_circle M RZ ->
  norm2 (rotate_xyz M X Y Z RX RY RZ) == norm2 (X, Y, Z).
Proof.
  unfold on_circle, rotate_xyz, norm2. cbv zeta.
  set (cx := m_cos M (RX * m_pi M / 180)). set (sx := m_sin M (RX * m_pi M / 180)).
  set (cy := m_cos M (RY * m_pi M / 180)). set (sy := m_sin M (RY * m_pi M / 180)).
  set (cz := m_cos M (RZ * m_pi M / 180)). set (sz := m_sin M (RZ * m_pi M / 180)).
  intros Hx Hy Hz.
  pose (Y1 := cx * Y - sx * Z). pose (Z1 := sx * Y + cx * Z).
  pose (x2 := cy * X + sy * Z1). pose (z2 := - sy * X + cy * Z1).
  transitivity ((cz * cz + sz * sz) * (x2 * x2 + Y1 * Y1) + z2 * z2).
  { unfold x2, z2, Z1, Y1. ring. }
  rewrite Hz.
  transitivity ((cy * cy + sy * sy) * (X * X + Z1 * Z1) + Y1 * Y1).
  { unfold x2, z2. ring. }
  rewrite Hy.
  transitivity (X * X + (cx * cx + sx * sx) * (Y * Y + Z * Z)).
  { unfold Z1, Y1. ring. }
  rewrite Hx. ring.
Qed.

(** X1: a rotation keeps the length of the vector, whenever the cosine
    and sine used for each of the three angles lie on the unit circle. *)
Theorem rotate_xyz_preserves_length M X Y Z RX RY RZ :
  on_circle M RX -> on_circle M RY -> on_circle M RZ ->
  norm2 (rotate_xyz M X Y Z RX RY RZ) == norm2 (X, Y, Z).
Proof. apply rotate_xyz_norm2. Qed.

Lemma rotate_xyz_preserves_length_witness :
  norm2 (rotate_xyz circle_math 1 2 3 30 40 50) == norm2 (1, 2, 3).
Proof.
  apply (rotate_xyz_preserves_length circle_math 1 2 3 30 40 50);
    vm_compute; reflexivity.
Defined.

(** X2: the rotation by the angles [(0, 0, 0)] returns the point, when
    the cosine of the zero angle is 1 and its sine 0. *)
Theorem rotate_xyz_zero_angles M X Y Z :
  m_cos M (0 * m_pi M / 180) == 1 ->
  m_sin M (0 * m_pi M / 180) == 0 ->
  Vec3_eq (rotate_xyz M X Y Z 0 0 0) (X, Y, Z).
Proof.
  intros Hc Hs. unfold rotate_xyz, Vec3_eq. cbv zeta.
  rewrite !Hc, !Hs. repeat split; ring.
Qed.

Lemma rotate_xyz_zero_angles_witness :
  Vec3_eq (rotate_xyz rational_math 1 2 3 0 0 0) (1, 2, 3).
Proof.
  apply (rotate_xyz_zero_angles rational_math 1 2 3); vm_compute; reflexivity.
Defined.

(** ** Projection *)

Lemma py_int_inject v n : v == inject_Z n -> py_int v = n.
Proof.
  destruct v as [a b]. unfold Qeq, py_int. cbn. intros H.
  rewrite Z.mul_1_r in H. rewrite H. apply Z.quot_mul. lia.
Qed.

(** X3: a point on the view axis, at any depth other than zero, is
    projected to the screen centre [(cx, cy)] exactly. *)
Theorem project_on_axis_is_centre cam z :
  ~ z == 0 -> project cam 0 0 z = Ok (cam_cx cam, cam_cy cam).
Proof.
  intros Hz. unfold project. rewrite !py_div_ok by trivial. cbn.
  f_equal. f_equal; apply py_int_inject; field; trivial.
Qed.

Lemma project_on_axis_is_centre_witness :
  project default_camera 0 0 7 = Ok (80, 60)%Z.
Proof.
  apply (project_on_axis_is_centre default_camera 7). vm_compute. discriminate.
Defined.




(** ** More on the frustum clipper *)

(** A pass that returns hands back the segment it was given, with flag 0
    when both region codes are zero and flag 1 otherwise. *)
Lemma clip_body_return AX AY s r :
  clip_body AX AY s = Ok (Return r) ->
  let '(x0, y0, z0, x1, y1, z1) := s in
  (r = (0%Z, x0, y0, z0, x1, y1, z1) /\
   outcode AX AY x0 y0 z0 = 0%Z /\ outcode AX AY x1 y1 z1 = 0%Z) \/
  r = (1%Z, x0, y0, z0, x1, y1, z1).
Proof.
  destruct s as [[[[[x0 y0] z0] x1] y1] z1]. unfold clip_body.
  destruct (Z.lor _ _ =? 0)%Z eqn:El.
  - intros [= <-]. left. apply Z.eqb_eq, Z.lor_eq_0_iff in El. tauto.
  - destruct (negb _); [intros [= <-]; now right|].
    destruct (outcode AX AY x0 y0 z0 =? 0)%Z;
      match goal with
      | |- context [mbind _ ?m] => destruct m; cbn; discriminate
      end.
Qed.

Lemma clip_for_accept AX AY n s a0 b0 c0 a1 b1 c1 F :
  clip_for n AX AY s = Ok (F, a0, b0, c0, a1, b1, c1) ->
  (F = 0%Z \/ F = 1%Z) /\
  (F = 0%Z ->
   outcode AX AY a0 b0 c0 = 0%Z /\ outcode AX AY a1 b1 c1 = 0%Z).
Proof.
  revert s. induction n as [|n IH]; intros s.
  - destruct s as [[[[[x0 y0] z0] x1] y1] z1]. cbn. intros [= <- <- <- <- <- <- <-].
    split; [now right|discriminate].
  - cbn [clip_for]. destruct (clip_body AX AY s) as [[s'|r]|e] eqn:E;
      cbn; try discriminate.
    + apply IH.
    + intros [= ->]. apply clip_body_return in E.
      destruct s as [[[[[x0 y0] z0] x1] y1] z1].
      destruct E as [(E & H0 & H1)|E]; injection E as -> -> -> -> -> -> ->.
      * split; [now left|auto].
      * split; [now right|discriminate].
Qed.


(** X5: the flag that [clip_segment] returns is 0 or 1, and when it is
    0 both returned endpoints satisfy [|x| <= AX*z] and [|y| <= AY*z]:
    what is accepted lies inside the frustum. *)
Theorem clip_segment_accepted_is_inside
    x0 y0 z0 x1 y1 z1 AX AY F a0 b0 c0 a1 b1 c1 :
  clip_segment x0 y0 z0 x1 y1 z1 AX AY = Ok (F, a0, b0, c0, a1, b1, c1) ->
  (F = 0%Z \/ F = 1%Z) /\
  (F = 0%Z ->
   Qabs a0 <= AX * c0 /\ Qabs b0 <= AY * c0 /\
   Qabs a1 <= AX * c1 /\ Qabs b1 <= AY * c1).
Proof.
  intros H. apply clip_for_accept in H. destruct H as [HF H].
  split; [exact HF|]. intros E. destruct (H E) as [H0 H1].
  apply outcode_zero_abs in H0, H1. tauto.
Qed.

Lemma clip_segment_accepted_is_inside_witness :
  exists a0 b0 c0 a1 b1 c1,
    clip_segment 2 0 1 0 0 1 1 1 = Ok (0%Z, a0, b0, c0, a1, b1, c1) /\
    Qabs a0 <= 1 * c0 /\ Qabs b0 <= 1 * c0 /\
    Qabs a1 <= 1 * c1 /\ Qabs b1 <= 1 * c1.
Proof.
  do 6 eexists. split; [vm_compute; reflexivity|].
  apply (clip_segment_accepted_is_inside 2 0 1 0 0 1 1 1 0%Z);
    [vm_compute; reflexivity|reflexivity].
Defined.



(** ** More on the wireframe renderer *)



Lemma set_add_elem e x l : x ∈ Wireframe.set_add e l <-> x = e \/ x ∈ l.
Proof.
  unfold Wireframe.set_add. destruct (decide (e ∈ l)) as [He|He].
  - split; [now right|]. intros [->|H]; trivial.
  - rewrite elem_of_app, list_elem_of_singleton. tauto.
Qed.

Lemma set_add_NoDup e l : NoDup l -> NoDup (Wireframe.set_add e l).
Proof.
  intros Hl. unfold Wireframe.set_add. destruct (decide (e ∈ l)) as [He|He];
    [exact Hl|].
  apply NoDup_app. split; [exact Hl|]. split.
  - intros x Hx Hx'. apply list_elem_of_singleton in Hx'. congruence.
  - apply NoDup_singleton.
Qed.

Lemma face_edges_acc fcs acc :
  NoDup acc ->
  let step := fun edges '(i0, i1, i2) =>
    let e01 := Wireframe.sorted_pair i0 i1 in
    let e12 := Wireframe.sorted_pair i1 i2 in
    let e20 := Wireframe.sorted_pair i2 i0 in
    Wireframe.set_add e20 (Wireframe.set_add e12 (Wireframe.set_add e01 edges)) in
  NoDup (foldl step acc fcs) /\
  forall e, e ∈ foldl step acc fcs <->
            e ∈ acc \/ exists f, f ∈ fcs /\ e ∈ edges_of f.
Proof.
  intros Hacc step. revert acc Hacc.
  induction fcs as [|f fcs IH]; intros acc Hacc; cbn [foldl].
  - split; [exact Hacc|]. intros e. split; [now left|].
    intros [H|(f & Hf & _)]; [exact H|inversion Hf].
  - destruct (IH (step acc f)) as [Hn He].
    { destruct f as [[i0 i1] i2]. cbn. now repeat apply set_add_NoDup. }
    split; [exact Hn|]. intros e. rewrite He. clear He Hn IH.
    assert (Hs : e ∈ step acc f <-> e ∈ acc \/ e ∈ edges_of f).
    { destruct f as [[i0 i1] i2]. cbn. rewrite !set_add_elem.
      rewrite !elem_of_cons, elem_of_nil. tauto. }
    rewrite Hs. split.
    + intros [[H|H]|(g & Hg & H)].
      * now left.
      * right. exists f. split; [left|exact H].
      * right. exists g. split; [now right|exact H].
    + intros [H|(g & Hg & H)]; [now left; left|].
      apply elem_of_cons in Hg as [->|Hg]; [left; now right|].
      right. exists g. auto.
Qed.

(** X8: the edge set derived from the faces holds no edge twice, holds
    exactly the edges of the faces, and holds each edge with its smaller
    index first; an edge shared by two faces, in whatever direction each
    face runs through it, is there once. *)
Theorem face_edges_is_the_edge_set fcs :
  NoDup (Wireframe.face_edges fcs) /\
  (forall e, e ∈ Wireframe.face_edges fcs <->
             exists f, f ∈ fcs /\ e ∈ edges_of f) /\
  (forall e, e ∈ Wireframe.face_edges fcs -> (e.1 <= e.2)%Z) /\
  (forall i j, Wireframe.sorted_pair i j = Wireframe.sorted_pair j i).
Proof.
  destruct (face_edges_acc fcs [] (NoDup_nil_2)) as [Hn He].
  assert (Hsp : forall i j,
    ((Wireframe.sorted_pair i j).1 <= (Wireframe.sorted_pair i j).2)%Z).
  { intros i j. unfold Wireframe.sorted_pair.
    destruct (j <? i)%Z eqn:E; cbn; lia. }
  split; [exact Hn|]. split; [|split].
  - intros e. unfold Wireframe.face_edges. rewrite He. split.
    + intros [H|H]; [inversion H|exact H].
    + now right.
  - intros e H. apply He in H as [H|([[i0 i1] i2] & _ & H)]; [inversion H|].
    cbn in H. rewrite !elem_of_cons, elem_of_nil in H.
    destruct H as [->|[->|[->|[]]]]; apply Hsp.
  - intros i j. unfold Wireframe.sorted_pair.
    destruct (j <? i)%Z eqn:E1, (i <? j)%Z eqn:E2; try reflexivity; try lia.
    assert (i = j) by lia. now subst.
Qed.

Lemma draw_segment_step cam cam_pts col out seg out' :
  Wireframe.draw_segment cam cam_pts col out seg = Ok out' ->
  out' = out \/
  exists sx0 sy0 sx1 sy1, out' = out ++ [Line sx0 sy0 sx1 sy1 col].
Proof.
  destruct seg as [i j]. unfold Wireframe.draw_segment.
  destruct (py_index cam_pts i) as [[[x0 y0] z0]|]; [|discriminate].
  destruct (py_index cam_pts j) as [[[x1 y1] z1]|]; [|discriminate].
  cbn -[clip_segment_fast project].
  destruct (_ && _); [intros [= <-]; now left|].
  destruct (clip_segment_fast _ _ _ _ _ _ _ _)
    as [[[[[[[F a0] b0] c0] a1] b1] c1]|]; [|discriminate].
  cbn -[project]. destruct (negb _); [intros [= <-]; now left|].
  destruct (project cam a0 b0 c0) as [[sx0 sy0]|]; [|discriminate].
  cbn -[project].
  destruct (project cam a1 b1 c1) as [[sx1 sy1]|]; [|discriminate].
  cbn. intros [= <-]. right. eauto.
Qed.

(** X9: what the wireframe renderer draws is lines only, all in the one
    colour asked for (the renderer's own when none is given), and at
    most one for each segment of the mesh, or for each distinct edge of
    its faces when it has no segments. *)
Theorem wireframe_draws_one_colour M self mesh col out :
  Wireframe.draw_mesh M self mesh col = Ok out ->
  let c := match col with None => Wireframe.color self | Some c => c end in
  let segs := match segments mesh, faces mesh with
              | [], _ :: _ => Wireframe.face_edges (faces mesh)
              | _, _ => segments mesh
              end in
  (length out <= length segs)%nat /\
  forall cmd, cmd ∈ out ->
    exists sx0 sy0 sx1 sy1, cmd = Line sx0 sy0 sx1 sy1 c.
Proof.
  unfold Wireframe.draw_mesh. cbv zeta.
  set (c := match col with None => _ | Some c => c end).
  set (segs := match segments mesh with [] => _ | _ => _ end).
  set (cam_pts := camera_points M (Wireframe.camera self) mesh).
  assert (G : forall l out0 out1,
    for_each (Wireframe.draw_segment (Wireframe.camera self) cam_pts c) l out0
      = Ok out1 ->
    (length out1 <= length out0 + length l)%nat /\
    forall cmd, cmd ∈ out1 ->
      cmd ∈ out0 \/ exists sx0 sy0 sx1 sy1, cmd = Line sx0 sy0 sx1 sy1 c).
  { induction l as [|seg l IH]; intros out0 out1; cbn [for_each].
    - intros [= <-]. split; [cbn; lia|auto].
    - destruct (Wireframe.draw_segment _ _ _ out0 seg) as [o|] eqn:E;
        [|discriminate].
      cbn. intros H. destruct (IH _ _ H) as [Hl Hc].
      apply draw_segment_step in E as [->|(a & b & d & e & ->)].
      + split; [cbn; lia|exact Hc].
      + rewrite length_app in Hl. cbn in *. split; [lia|].
        intros cmd Hcmd. destruct (Hc cmd Hcmd) as [H'|H']; [|now right].
        apply elem_of_app in H' as [H'|H']; [now left|right].
        apply list_elem_of_singleton in H' as ->. eauto. }
  intros H. destruct (G _ _ _ H) as [Hl Hc]. split; [exact Hl|].
  intros cmd Hcmd. destruct (Hc cmd Hcmd) as [H'|H']; [inversion H'|exact H'].
Qed.

Lemma wireframe_draws_one_colour_witness :
  (length [Line 3 3 4 4 3] <= 3)%nat /\
  forall cmd, cmd ∈ [Line 3 3 4 4 3] ->
    exists sx0 sy0 sx1 sy1, cmd = Line sx0 sy0 sx1 sy1 3.
Proof.
  apply (wireframe_draws_one_colour rational_math
           {| Wireframe.camera := small_camera; Wireframe.color := 7 |}
           (one_triangle (0, 1, 2)%Z) (Some 3%Z)).
  vm_compute. reflexivity.
Defined.

(** X10: the hidden-line renderer, which goes through
    [transformed_points], and the other renderers, which transform point
    by point, work on the same camera-space points; there is one for
    every point of the mesh. *)
Theorem camera_points_agree M cam mesh :
  map (fun '(x, y, z) => world_to_camera M cam x y z)
    (transformed_points M mesh)
  = camera_points M cam mesh /\
  length (camera_points M cam mesh) = length (points mesh).
Proof.
  split; [|apply camera_points_length].
  unfold transformed_points, camera_points. rewrite map_map.
  apply map_ext. intros [[x y] z].
  destruct (local_to_world M mesh x y z) as [[wx wy] wz]. reflexivity.
Qed.

(** ** More on the hidden-line renderer *)

Lemma insert_by_depth_sorted x l :
  StronglySorted farther_or_equal l ->
  StronglySorted farther_or_equal (HiddenLine.insert_by_depth x l).
Proof.
  induction 1 as [|y l Hl IH Hy]; cbn.
  - repeat constructor.
  - destruct (Qlt_bool y.1.1.1 x.1.1.1) eqn:E.
    + apply Qlt_bool_iff in E. constructor; [now constructor|].
      constructor; [unfold farther_or_equal; lra|].
      eapply Forall_impl; [exact Hy|].
      intros z Hz. unfold farther_or_equal in *. lra.
    + apply Qlt_bool_false in E. constructor; [exact IH|].
      rewrite insert_by_depth_perm. constructor; [exact E|exact Hy].
Qed.

Lemma at_depth_none d l :
  Forall (fun e : HiddenLine.FaceInfo => ~ e.1.1.1 == d) l -> at_depth d l = [].
Proof.
  unfold at_depth. induction 1 as [|y l Hy Hl IH]; [reflexivity|].
  rewrite filter_cons_False; [exact IH|].
  intros H. apply Qeq_bool_iff in H. contradiction.
Qed.

Lemma at_depth_cons d x l :
  at_depth d (x :: l)
  = (if Qeq_bool x.1.1.1 d then [x] else []) ++ at_depth d l.
Proof.
  unfold at_depth. rewrite filter_cons.
  destruct (decide (Qeq_bool x.1.1.1 d = true)) as [E|E].
  - now rewrite E.
  - apply not_true_is_false in E. now rewrite E.
Qed.

Lemma insert_by_depth_at_depth d x l :
  StronglySorted farther_or_equal l ->
  at_depth d (HiddenLine.insert_by_depth x l)
  = at_depth d l ++ at_depth d [x].
Proof.
  induction 1 as [|y l Hl IH Hy]; cbn [HiddenLine.insert_by_depth].
  - reflexivity.
  - destruct (Qlt_bool y.1.1.1 x.1.1.1) eqn:E.
    + apply Qlt_bool_iff in E.
      rewrite (at_depth_cons d x (y :: l)), (at_depth_cons d x []).
      destruct (Qeq_bool x.1.1.1 d) eqn:Ex.
      * apply Qeq_bool_iff in Ex.
        rewrite (at_depth_none d (y :: l)); [reflexivity|].
        constructor; [lra|].
        eapply Forall_impl; [exact Hy|].
        intros z Hz; unfold farther_or_equal in Hz; lra.
      * cbn. now rewrite app_nil_r.
    + rewrite !(at_depth_cons d y), IH. now rewrite app_assoc.
Qed.

(** X11: sorting the faces for the painter's algorithm puts them in
    order of non-increasing depth, farthest first, keeps every face and
    adds none, and keeps faces of equal depth in the order of the mesh. *)
Theorem sort_by_depth_is_stable_painter_order l :
  StronglySorted farther_or_equal (HiddenLine.sort_by_depth l) /\
  HiddenLine.sort_by_depth l ≡ₚ l /\
  forall d, at_depth d (HiddenLine.sort_by_depth l) = at_depth d l.
Proof.
  assert (G : forall acc, StronglySorted farther_or_equal acc ->
    StronglySorted farther_or_equal
      (foldl (fun sorted x => HiddenLine.insert_by_depth x sorted) acc l) /\
    forall d,
      at_depth d (foldl (fun sorted x => HiddenLine.insert_by_depth x sorted) acc l)
      = at_depth d acc ++ at_depth d l).
  { induction l as [|x l IH]; intros acc Hacc; cbn [foldl].
    - split; [exact Hacc|]. intros d. unfold at_depth.
      now rewrite filter_nil, app_nil_r.
    - destruct (IH _ (insert_by_depth_sorted x acc Hacc)) as [Hs Hd].
      split; [exact Hs|]. intros d.
      rewrite Hd, insert_by_depth_at_depth by exact Hacc.
      rewrite <- app_assoc. f_equal. unfold at_depth.
      change (x :: l) with ([x] ++ l). now rewrite filter_app. }
  destruct (G [] (SSorted_nil _)) as [Hs Hd].
  split; [exact Hs|]. split; [apply sort_by_depth_perm|].
  intros d. apply Hd.
Qed.

(** ** Intensities and shade indices *)

Lemma py_max_min_range i : 0 <= py_max 0 (py_min 1 i) /\ py_max 0 (py_min 1 i) <= 1.
Proof.
  unfold py_max, py_min.
  destruct (Qlt_bool i 1) eqn:E1;
    [destruct (Qlt_bool 0 i) eqn:E2|destruct (Qlt_bool 0 1) eqn:E2];
    q_bool_hyps; split; lra.
Qed.

Lemma intensities_range_phong ph nx ny nz :
  0 <= Phong.phong_intensity ph nx ny nz /\
  Phong.phong_intensity ph nx ny nz <= 1.
Proof.
  unfold Phong.phong_intensity.
  destruct (Phong.light_dir ph) as [[lx ly] lz]. apply py_max_min_range.
Qed.



Lemma py_int_range v n :
  0 <= v -> v <= inject_Z n -> (0 <= py_int v <= n)%Z.
Proof.
  intros H0 Hn. destruct (py_int_truncation v) as [Hpos _].
  destruct (Hpos H0) as [Hlo Hhi].
  split.
  - assert (H : inject_Z (-1) < inject_Z (py_int v)).
    { change (inject_Z (-1)) with (-1). lra. }
    rewrite <- Zlt_Qlt in H. lia.
  - rewrite Zle_Qle. lra.
Qed.

Lemma scaled_intensity_range c n :
  0 <= c -> c <= 1 -> (0 <= n)%Z ->
  0 <= c * inject_Z n /\ c * inject_Z n <= inject_Z n.
Proof.
  intros H0 H1 Hn. rewrite Zle_Qle in Hn. change (inject_Z 0) with 0 in Hn.
  split; nra.
Qed.

Lemma zg_shade_at_range zg (t : Triangle Q) y x :
  (1 <= ZGouraud.shade_levels zg)%Z ->
  (0 <= ZGouraud.shade_at zg t y x <= ZGouraud.shade_levels zg - 1)%Z.
Proof.
  intros Hl. destruct t as [[p0 p1] p2]. unfold ZGouraud.shade_at.
  destruct (bary _ _ _) as [[w0 w1] w2]. cbv zeta.
  set (c := w0 * c_attr p0 + w1 * c_attr p1 + w2 * c_attr p2).
  set (c1 := if Qlt_bool c 0 then 0 else c).
  set (c2 := if Qlt_bool 1 c1 then 1 else c1).
  assert (Hc : 0 <= c2 /\ c2 <= 1).
  { subst c2 c1. destruct (Qlt_bool c 0) eqn:E1;
      [destruct (Qlt_bool 1 0) eqn:E2 | destruct (Qlt_bool 1 c) eqn:E2];
      q_bool_hyps; split; lra. }
  destruct Hc as [Hc0 Hc1].
  destruct (scaled_intensity_range c2 (ZGouraud.shade_levels zg - 1) Hc0 Hc1)
    as [Hv0 Hv1]; [lia|].
  exact (py_int_range _ _ Hv0 Hv1).
Qed.

Lemma ph_choose_shade_cases ph x y c :
  (1 <= Phong.shade_levels ph)%Z -> 0 <= c -> c <= 1 ->
  let s0 := py_int (c * inject_Z (Phong.shade_levels ph - 1)) in
  (0 <= Phong.choose_shade ph x y c <= Phong.shade_levels ph - 1)%Z /\
  (Phong.choose_shade ph x y c = s0 \/
   Phong.choose_shade ph x y c = (s0 + 1)%Z).
Proof.
  intros Hl Hc0 Hc1 s0.
  destruct (scaled_intensity_range c (Phong.shade_levels ph - 1) Hc0 Hc1)
    as [Hv0 Hv1]; [lia|].
  pose proof (py_int_range _ _ Hv0 Hv1) as Hs0. fold s0 in Hs0.
  unfold Phong.choose_shade. fold s0.
  destruct (Phong.dithering ph); [|split; [exact Hs0|now left]].
  destruct (Qlt_bool _ _); [|split; [exact Hs0|now left]].
  destruct (Z.min_spec (s0 + 1) (Phong.shade_levels ph - 1)) as [[Hlt ->]|[Hge ->]].
  - split; [lia|now right].
  - split; [lia|].
    assert (Phong.shade_levels ph - 1 = s0 \/
            Phong.shade_levels ph - 1 = s0 + 1)%Z as [E|E] by lia;
      [left|right]; exact E.
Qed.

(** X13: with at least one shade level, the shade index that a
    z-buffered renderer writes lies between 0 and [levels - 1]; with
    dithering it is the truncated index or the next one. *)
Theorem shade_indices_in_palette zg (t : Triangle Q) ph nx ny nz x y :
  ((1 <= ZGouraud.shade_levels zg)%Z ->
   (0 <= ZGouraud.shade_at zg t y x <= ZGouraud.shade_levels zg - 1)%Z) /\
  ((1 <= Phong.shade_levels ph)%Z ->
   let c := Phong.phong_intensity ph nx ny nz in
   let s0 := py_int (c * inject_Z (Phong.shade_levels ph - 1)) in
   (0 <= Phong.choose_shade ph x y c <= Phong.shade_levels ph - 1)%Z /\
   (Phong.choose_shade ph x y c = s0 \/
    Phong.choose_shade ph x y c = (s0 + 1)%Z)).
Proof.
  split.
  - apply zg_shade_at_range.
  - intros Hl c s0.
    destruct (intensities_range_phong ph nx ny nz) as [Hc0 Hc1].
    exact (ph_choose_shade_cases ph x y c Hl Hc0 Hc1).
Qed.

Lemma shade_indices_in_palette_witness :
  (0 <= ZGouraud.shade_at small8_zgouraud near_triangle 1 1 <= 8 - 1)%Z /\
  (0 <= Phong.choose_shade dither_phong 1 1
          (Phong.phong_intensity dither_phong 0 0 (-1)) <= 16 - 1)%Z.
Proof.
  destruct (shade_indices_in_palette small8_zgouraud near_triangle
              dither_phong 0 0 (-1) 1 1) as [H1 H2].
  split.
  - apply H1. vm_compute. discriminate.
  - apply H2. vm_compute. discriminate.
Defined.


(** ** What drawing does to the depth buffer *)

Lemma grid_get_set_Some {A : Type} (g : list (list A)) y x a s :
  grid_get (grid_set g y x a) y x = Some s -> s = a.
Proof.
  destruct (grid_get g y x) as [c|] eqn:Hc.
  - rewrite grid_get_set_eq by eauto. congruence.
  - unfold grid_get, grid_set in *.
    destruct (g !! y) as [row|] eqn:Hrow; [|rewrite Hrow; discriminate].
    cbn in Hc.
    rewrite list_lookup_insert_eq by (eapply lookup_lt_Some; eauto). cbn.
    apply lookup_ge_None in Hc.
    intros H. apply lookup_lt_Some in H. rewrite length_insert in H. lia.
Qed.

Lemma brought_nearer_refl L fr : brought_nearer L fr fr.
Proof. intros y x. left. split; reflexivity. Qed.

Lemma brought_nearer_trans L a b c :
  brought_nearer L a b -> brought_nearer L b c -> brought_nearer L a c.
Proof.
  intros H1 H2 y x.
  destruct (H1 y x) as [[Ez Es]|(p & q & Ep & Eq & Hq & Hlt & Hs)],
    (H2 y x) as [[Ez' Es']|(p' & q' & Ep' & Eq' & Hq' & Hlt' & Hs')].
  - left. split; congruence.
  - right. exists p', q'. split; [congruence|]. auto.
  - right. exists p, q. split; [exact Ep|]. split; [congruence|].
    split; [exact Hq|]. split; [exact Hlt|].
    intros s E. apply Hs. congruence.
  - right. exists p, q'. split; [exact Ep|]. split; [exact Eq'|].
    split; [exact Hq'|]. split; [|exact Hs'].
    assert (p' = q) as -> by congruence. lra.
Qed.

Lemma for_each_ok_rel {A S : Type} (R : S -> S -> Prop)
    (f : S -> A -> result S) l :
  (forall st, R st st) -> (forall a b c, R a b -> R b c -> R a c) ->
  (forall st a st', a ∈ l -> f st a = Ok st' -> R st st') ->
  forall st st', for_each f l st = Ok st' -> R st st'.
Proof.
  intros Hr Ht. induction l as [|a l IH]; intros Hf st st' E; cbn in E.
  - injection E as <-. apply Hr.
  - destruct (f st a) as [st1|e] eqn:E1; cbn in E; [|discriminate].
    apply (Ht _ st1); [apply (Hf st a); [left|exact E1]|].
    apply IH; [|exact E]. intros st0 b st0' Hb. apply Hf. now right.
Qed.

Lemma put_brought_nearer L fr y x cur z s :
  grid_get (zbuf fr) y x = Some cur -> 0 < z -> z < cur -> (0 <= s < L)%Z ->
  brought_nearer L fr (put fr y x z s).
Proof.
  intros Hc Hz Hlt Hs y' x'. destruct (decide ((y, x) = (y', x'))) as [E|Hne].
  - injection E as <- <-. right. exists cur, z. split; [exact Hc|]. split.
    + cbn. apply grid_get_set_eq. eauto.
    + split; [exact Hz|split; [exact Hlt|]]. intros s' Hs'. cbn in Hs'.
      apply grid_get_set_Some in Hs'. now subst s'.
  - left. cbn. split; now apply grid_get_set_ne.
Qed.

Lemma depth_test_put_brought_nearer L fr y x z s fr' :
  0 < z -> (0 <= s < L)%Z ->
  depth_test_put fr y x z s = Ok fr' -> brought_nearer L fr fr'.
Proof.
  intros Hz Hs. unfold depth_test_put.
  destruct (grid_get (zbuf fr) y x) as [cur|] eqn:Hc; [|discriminate].
  destruct (Qle_bool cur z) eqn:E; intros [= <-].
  - apply brought_nearer_refl.
  - apply (put_brought_nearer L fr y x cur); auto.
    apply not_true_iff_false in E. rewrite Qle_bool_iff in E. lra.
Qed.

Lemma zg_draw_triangle_brought_nearer self (t : Triangle Q) fr fr' :
  (1 <= ZGouraud.shade_levels self)%Z ->
  ZGouraud._draw_triangle self t fr = Ok fr' ->
  brought_nearer (ZGouraud.shade_levels self) fr fr'.
Proof.
  intros Hl.
  destruct (zg_draw_triangle_cases self t) as [H|(ys & xs & Hy & Hx & H)];
    rewrite H.
  - intros [= <-]. apply brought_nearer_refl.
  - apply for_each_ok_rel;
      [apply brought_nearer_refl|apply brought_nearer_trans|].
    intros st y st' Hyin.
    apply for_each_ok_rel;
      [apply brought_nearer_refl|apply brought_nearer_trans|].
    intros st0 x st0' Hxin.
    pose proof (Hy y Hyin). pose proof (Hx x Hxin).
    rewrite zg_draw_pixel_view by lia.
    destruct (covers t y x && negb (Qle_bool (depth_at t y x) 0)) eqn:E.
    + apply andb_true_iff in E as [_ E]. apply negb_true_iff in E.
      apply depth_test_put_brought_nearer.
      * apply not_true_iff_false in E. rewrite Qle_bool_iff in E. lra.
      * pose proof (zg_shade_at_range self t y x Hl). lia.
    + intros [= <-]. apply brought_nearer_refl.
Qed.

Lemma ph_draw_pixel_brought_nearer M self (t : Triangle Vec3) inv_denom y x
    fr fr' :
  (1 <= Phong.shade_levels self)%Z -> (0 <= y)%Z -> (0 <= x)%Z ->
  Phong.draw_pixel M self t inv_denom y fr x = Ok fr' ->
  brought_nearer (Phong.shade_levels self) fr fr'.
Proof.
  intros Hl Hy Hx. destruct t as [[p0 p1] p2].
  unfold Phong.draw_pixel. cbv zeta beta iota.
  destruct (c_attr p0) as [[nx0 ny0] nz0].
  destruct (c_attr p1) as [[nx1 ny1] nz1].
  destruct (c_attr p2) as [[nx2 ny2] nz2].
  destruct (Qlt_bool _ 0); [intros [= <-]; apply brought_nearer_refl|].
  destruct (Qlt_bool _ 0); [intros [= <-]; apply brought_nearer_refl|].
  destruct (Qlt_bool _ 0); [intros [= <-]; apply brought_nearer_refl|].
  match goal with |- context [Qle_bool ?z 0] =>
    set (zv := z); destruct (Qle_bool zv 0) eqn:Ez end;
    [intros [= <-]; apply brought_nearer_refl|].
  rewrite zbuf_get_nonneg by done.
  destruct (grid_get (zbuf fr) (Z.to_nat y) (Z.to_nat x)) as [cur|] eqn:Hc;
    [|discriminate].
  cbn -[Phong.phong_intensity Phong.choose_shade].
  destruct (Qle_bool cur zv) eqn:Ec;
    [intros [= <-]; apply brought_nearer_refl|].
  rewrite zbuf_set_nonneg by eauto.
  cbn -[Phong.phong_intensity Phong.choose_shade].
  apply not_true_iff_false in Ez, Ec. rewrite Qle_bool_iff in Ez, Ec.
  destruct (Qlt_bool 0 _); rewrite pset_nonneg by done; intros [= <-];
    (apply (put_brought_nearer _ fr _ _ cur); [exact Hc|lra|lra|]);
    match goal with |- context [Phong.choose_shade self x y ?c] =>
      destruct (ph_choose_shade_cases self x y c Hl) as [Hr _];
        [apply intensities_range_phong|apply intensities_range_phong|lia]
    end.
Qed.

Lemma ph_draw_triangle_brought_nearer M self (t : Triangle Vec3) fr fr' :
  (1 <= Phong.shade_levels self)%Z ->
  Phong._draw_triangle M self t fr = Ok fr' ->
  brought_nearer (Phong.shade_levels self) fr fr'.
Proof.
  intros Hl. destruct t as [[p0 p1] p2].
  unfold Phong._draw_triangle. cbv zeta beta iota.
  destruct (Qeq_bool _ 0); [intros [= <-]; apply brought_nearer_refl|].
  destruct (_ || _)%Z; [intros [= <-]; apply brought_nearer_refl|].
  apply for_each_ok_rel;
    [apply brought_nearer_refl|apply brought_nearer_trans|].
  intros st y st' Hy%range_elem.
  apply for_each_ok_rel;
    [apply brought_nearer_refl|apply brought_nearer_trans|].
  intros st0 x st0' Hx%range_elem.
  apply ph_draw_pixel_brought_nearer; [exact Hl|lia|lia].
Qed.

Lemma zg_draw_face_cases self proj intens fr f fr' :
  ZGouraud.draw_face self proj intens fr f = Ok fr' ->
  fr' = fr \/ exists t, ZGouraud._draw_triangle self t fr = Ok fr'.
Proof.
  destruct f as [[i0 i1] i2]. unfold ZGouraud.draw_face.
  destruct (py_index proj i0) as [q0|]; [|discriminate].
  cbn -[ZGouraud._draw_triangle].
  destruct q0 as [[[x0 y0] z0]|]; cbn -[ZGouraud._draw_triangle];
    [|intros [= <-]; now left].
  destruct (py_index proj i1) as [q1|]; [|discriminate].
  cbn -[ZGouraud._draw_triangle].
  destruct q1 as [[[x1 y1] z1]|]; cbn -[ZGouraud._draw_triangle];
    [|intros [= <-]; now left].
  destruct (py_index proj i2) as [q2|]; [|discriminate].
  cbn -[ZGouraud._draw_triangle].
  destruct q2 as [[[x2 y2] z2]|]; cbn -[ZGouraud._draw_triangle];
    [|intros [= <-]; now left].
  destruct (py_index intens i0) as [c0|]; [|discriminate].
  destruct (py_index intens i1) as [c1|]; [|discriminate].
  destruct (py_index intens i2) as [c2|]; [|discriminate].
  cbn -[ZGouraud._draw_triangle]. eauto.
Qed.

Lemma ph_draw_face_cases M self proj vnorm fr f fr' :
  Phong.draw_face M self proj vnorm fr f = Ok fr' ->
  fr' = fr \/ exists t, Phong._draw_triangle M self t fr = Ok fr'.
Proof.
  destruct f as [[i0 i1] i2]. unfold Phong.draw_face.
  destruct (py_index proj i0) as [q0|]; [|discriminate].
  cbn -[Phong._draw_triangle].
  destruct q0 as [[[x0 y0] z0]|]; cbn -[Phong._draw_triangle];
    [|intros [= <-]; now left].
  destruct (py_index proj i1) as [q1|]; [|discriminate].
  cbn -[Phong._draw_triangle].
  destruct q1 as [[[x1 y1] z1]|]; cbn -[Phong._draw_triangle];
    [|intros [= <-]; now left].
  destruct (py_index proj i2) as [q2|]; [|discriminate].
  cbn -[Phong._draw_triangle].
  destruct q2 as [[[x2 y2] z2]|]; cbn -[Phong._draw_triangle];
    [|intros [= <-]; now left].
  destruct (py_index vnorm i0) as [n0|]; [|discriminate].
  destruct (py_index vnorm i1) as [n1|]; [|discriminate].
  destruct (py_index vnorm i2) as [n2|]; [|discriminate].
  cbn -[Phong._draw_triangle]. eauto.
Qed.

(** [draw_mesh] of a z-buffered renderer is a loop of [_draw_triangle]
    calls: a relation that every call keeps is kept by the whole. *)
Lemma zg_draw_mesh_rel (R : Frame -> Frame -> Prop) M self mesh fr fr' :
  (forall st, R st st) -> (forall a b c, R a b -> R b c -> R a c) ->
  (forall t st st', R fr st ->
     ZGouraud._draw_triangle self t st = Ok st' -> R st st') ->
  ZGouraud.draw_mesh M self mesh fr = Ok fr' -> R fr fr'.
Proof.
  intros Hr Ht Hd. unfold ZGouraud.draw_mesh. cbv zeta.
  destruct (project_visible _ _) as [proj|]; [|discriminate].
  destruct (accumulate_normals _ _ _) as [vnorm|]; [|discriminate].
  cbn -[ZGouraud.draw_face].
  generalize (faces mesh). intros l. revert fr'.
  induction l as [|f l IH] using rev_ind; intros fr'.
  - intros [= <-]. apply Hr.
  - rewrite for_each_app.
    destruct (for_each _ l fr) as [st|] eqn:E; [|discriminate].
    specialize (IH st eq_refl). cbn -[ZGouraud.draw_face].
    destruct (ZGouraud.draw_face _ _ _ st f) as [st'|] eqn:E'; [|discriminate].
    cbn. intros [= <-].
    apply zg_draw_face_cases in E' as [->|[t E']]; [exact IH|].
    apply (Ht _ st); [exact IH|]. now apply (Hd t).
Qed.

Lemma ph_draw_mesh_rel (R : Frame -> Frame -> Prop) M self mesh fr fr' :
  (forall st, R st st) -> (forall a b c, R a b -> R b c -> R a c) ->
  (forall t st st', R fr st ->
     Phong._draw_triangle M self t st = Ok st' -> R st st') ->
  Phong.draw_mesh M self mesh fr = Ok fr' -> R fr fr'.
Proof.
  intros Hr Ht Hd. unfold Phong.draw_mesh. cbv zeta.
  destruct (project_visible _ _) as [proj|]; [|discriminate].
  destruct (accumulate_normals _ _ _) as [vnorm|]; [|discriminate].
  cbn -[Phong.draw_face].
  generalize (faces mesh). intros l. revert fr'.
  induction l as [|f l IH] using rev_ind; intros fr'.
  - intros [= <-]. apply Hr.
  - rewrite for_each_app.
    destruct (for_each _ l fr) as [st|] eqn:E; [|discriminate].
    specialize (IH st eq_refl). cbn -[Phong.draw_face].
    destruct (Phong.draw_face _ _ _ _ st f) as [st'|] eqn:E'; [|discriminate].
    cbn. intros [= <-].
    apply ph_draw_face_cases in E' as [->|[t E']]; [exact IH|].
    apply (Ht _ st); [exact IH|]. now apply (Hd t).
Qed.

(** X14: whatever mesh a z-buffered renderer draws, every cell of the
    frame either keeps its depth and its colour, or its depth strictly
    decreases to a positive value and its colour becomes a shade index
    below [shade_levels]. *)
Theorem zbuffered_draw_mesh_brings_nearer M zg ph mesh fr fr' :
  ((1 <= ZGouraud.shade_levels zg)%Z ->
   ZGouraud.draw_mesh M zg mesh fr = Ok fr' ->
   brought_nearer (ZGouraud.shade_levels zg) fr fr') /\
  ((1 <= Phong.shade_levels ph)%Z ->
   Phong.draw_mesh M ph mesh fr = Ok fr' ->
   brought_nearer (Phong.shade_levels ph) fr fr').
Proof.
  split; intros Hl.
  - apply zg_draw_mesh_rel;
      [apply brought_nearer_refl|apply brought_nearer_trans|].
    intros t st st' _. now apply zg_draw_triangle_brought_nearer.
  - apply ph_draw_mesh_rel;
      [apply brought_nearer_refl|apply brought_nearer_trans|].
    intros t st st' _. now apply ph_draw_triangle_brought_nearer.
Qed.

Lemma zbuffered_draw_mesh_brings_nearer_witness :
  brought_nearer 8 frame8 drawn8_zgouraud /\
  brought_nearer 16 frame8 drawn8_phong.
Proof.
  split.
  - apply (zbuffered_draw_mesh_brings_nearer rational_math small8_zgouraud
             (small8_phong false) (one_triangle (0, 1, 2)%Z) frame8
             drawn8_zgouraud).
    + vm_compute. discriminate.
    + vm_compute. reflexivity.
  - apply (zbuffered_draw_mesh_brings_nearer rational_math small8_zgouraud
             (small8_phong false) (one_triangle (0, 1, 2)%Z) frame8
             drawn8_phong).
    + vm_compute. discriminate.
    + vm_compute. reflexivity.
Defined.

Lemma same_size_refl h w fr : same_size h w fr fr.
Proof. intros H. exact H. Qed.

Lemma same_size_trans h w a b c :
  same_size h w a b -> same_size h w b c -> same_size h w a c.
Proof. unfold same_size. auto. Qed.

(** X15: after a z-buffered [draw_mesh] that was given a depth buffer
    of the renderer's size and returned, [clear_zbuffer] gives back the
    buffer the constructor made, every cell at [z_far], and leaves the
    surface as it was drawn. *)
Theorem clear_zbuffer_restores_fresh_buffer M cam light amb dif spec shin
    levels dith high mesh fr1 fr1' fr2 fr2' :
  let zg := (ZGouraud.init M cam light amb levels).1 in
  let ph := (Phong.init M cam light amb dif spec shin levels dith high).1 in
  (zbuf_shaped (ZGouraud.height zg) (ZGouraud.width zg) (zbuf fr1) ->
   ZGouraud.draw_mesh M zg mesh fr1 = Ok fr1' ->
   ZGouraud.clear_zbuffer zg fr1'
   = Ok {| zbuf := (ZGouraud.init M cam light amb levels).2;
           screen := screen fr1' |}) /\
  (zbuf_shaped (Phong.height ph) (Phong.width ph) (zbuf fr2) ->
   Phong.draw_mesh M ph mesh fr2 = Ok fr2' ->
   Phong.clear_zbuffer ph fr2'
   = Ok {| zbuf := (Phong.init M cam light amb dif spec shin levels dith
                      high).2;
           screen := screen fr2' |}).
Proof.
  intros zg ph. split; intros Hs Hd.
  - assert (Hs' : zbuf_shaped (ZGouraud.height zg) (ZGouraud.width zg)
                    (zbuf fr1')).
    { revert Hs. change (same_size (ZGouraud.height zg) (ZGouraud.width zg)
                           fr1 fr1').
      eapply zg_draw_mesh_rel; [apply same_size_refl|apply same_size_trans| |
                                exact Hd].
      intros t st st' _ E Hst.
      destruct (zg_draw_triangle_total zg t st Hst) as (st'' & E'' & H'').
      congruence. }
    unfold ZGouraud.clear_zbuffer.
    rewrite (clear_rows_shaped _ _ _ _ Hs'). cbn.
    subst zg. unfold ZGouraud.init. destruct light as [[lx ly] lz].
    reflexivity.
  - assert (Hs' : zbuf_shaped (Phong.height ph) (Phong.width ph)
                    (zbuf fr2')).
    { revert Hs. change (same_size (Phong.height ph) (Phong.width ph)
                           fr2 fr2').
      eapply ph_draw_mesh_rel; [apply same_size_refl|apply same_size_trans| |
                                exact Hd].
      intros t st st' _ E Hst.
      destruct (ph_draw_triangle_total M ph t st Hst) as (st'' & E'' & H'').
      congruence. }
    unfold Phong.clear_zbuffer.
    rewrite (clear_rows_shaped _ _ _ _ Hs'). cbn.
    subst ph. unfold Phong.init. destruct light as [[lx ly] lz].
    reflexivity.
Qed.

Lemma clear_zbuffer_restores_fresh_buffer_witness :
  ZGouraud.clear_zbuffer small8_zgouraud drawn8_zgouraud
  = Ok {| zbuf := zbuf frame8; screen := screen drawn8_zgouraud |} /\
  Phong.clear_zbuffer (small8_phong false) drawn8_phong
  = Ok {| zbuf := zbuf frame8; screen := screen drawn8_phong |}.
Proof.
  split.
  - apply (clear_zbuffer_restores_fresh_buffer rational_math small_camera
             (0, 0, -1) (2 # 10) (8 # 10) (4 # 10) 32 8 false false
             (one_triangle (0, 1, 2)%Z) frame8 drawn8_zgouraud
             frame8 drawn8_phong).
    + split; [reflexivity|]. repeat constructor.
    + vm_compute. reflexivity.
  - apply (clear_zbuffer_restores_fresh_buffer rational_math small_camera
             (0, 0, -1) (2 # 10) (8 # 10) (4 # 10) 32 16 false false
             (one_triangle (0, 1, 2)%Z) frame8 drawn8_zgouraud
             frame8 drawn8_phong).
    + split; [reflexivity|]. repeat constructor.
    + vm_compute. reflexivity.
Defined.



(** ** The transforms of the mesh and of the camera *)

Lemma norm2_comp (a b : Vec3) : Vec3_eq a b -> norm2 a == norm2 b.
Proof.
  destruct a as [[ax ay] az], b as [[bx b_y] bz]. intros (Hx & Hy & Hz).
  unfold norm2. now rewrite Hx, Hy, Hz.
Qed.

(** The rotation is linear: the difference of two images is the image of
    the difference. *)
Lemma rotate_xyz_vsub M X Y Z X' Y' Z' RX RY RZ :
  Vec3_eq (vsub (rotate_xyz M X Y Z RX RY RZ) (rotate_xyz M X' Y' Z' RX RY RZ))
          (rotate_xyz M (X - X') (Y - Y') (Z - Z') RX RY RZ).
Proof. unfold rotate_xyz, vsub, Vec3_eq. cbv zeta. repeat split; ring. Qed.

(** X16: the camera transform keeps the distance between any two points
    and the mesh transform multiplies it by the scale (squared distances
    by its square), whenever the cosine and sine used for the three
    angles lie on the unit circle. *)
Theorem transforms_are_similarities M cam mesh x y z x' y' z' :
  (on_circle M (cam_rx cam) -> on_circle M (cam_ry cam) ->
   on_circle M (cam_rz cam) ->
   dist2 (world_to_camera M cam x y z) (world_to_camera M cam x' y' z')
   == dist2 (x, y, z) (x', y', z')) /\
  (on_circle M (mesh_rx mesh) -> on_circle M (mesh_ry mesh) ->
   on_circle M (mesh_rz mesh) ->
   dist2 (local_to_world M mesh x y z) (local_to_world M mesh x' y' z')
   == mesh_scale mesh * mesh_scale mesh * dist2 (x, y, z) (x', y', z')).
Proof.
  split; intros Hx Hy Hz.
  - unfold dist2, world_to_camera, rotate_xyz_fast.
    rewrite (norm2_comp _ _ (rotate_xyz_vsub M _ _ _ _ _ _ _ _ _)).
    rewrite (rotate_xyz_norm2 M _ _ _ _ _ _ Hx Hy Hz).
    unfold norm2, vsub. ring.
  - unfold dist2, local_to_world, rotate_xyz_fast. cbv zeta.
    set (s := mesh_scale mesh).
    pose proof (rotate_xyz_vsub M (x * s) (y * s) (z * s) (x' * s) (y' * s)
                  (z' * s) (mesh_rx mesh) (mesh_ry mesh) (mesh_rz mesh)) as Hl.
    pose proof (rotate_xyz_norm2 M (x * s - x' * s) (y * s - y' * s)
                  (z * s - z' * s) _ _ _ Hx Hy Hz) as Hn.
    destruct (rotate_xyz M (x * s) (y * s) (z * s) _ _ _) as [[a b] c].
    destruct (rotate_xyz M (x' * s) (y' * s) (z' * s) _ _ _) as [[a' b'] c'].
    transitivity (norm2 (vsub (a, b, c) (a', b', c'))).
    { unfold norm2, vsub. ring. }
    rewrite (norm2_comp _ _ Hl), Hn. unfold norm2, vsub. ring.
Qed.

Lemma transforms_are_similarities_witness :
  dist2 (world_to_camera circle_math turned_camera 1 2 3)
        (world_to_camera circle_math turned_camera 4 6 8)
  == dist2 (1, 2, 3) (4, 6, 8) /\
  dist2 (local_to_world circle_math turned_mesh 1 2 3)
        (local_to_world circle_math turned_mesh 4 6 8)
  == 2 * 2 * dist2 (1, 2, 3) (4, 6, 8).
Proof.
  split;
    apply (transforms_are_similarities circle_math turned_camera turned_mesh
             1 2 3 4 6 8); apply circle_math_on_circle.
Defined.

(** ** Points on one ray through the camera *)

Lemma py_int_comp a b : a == b -> py_int a = py_int b.
Proof.
  intros E.
  destruct (py_int_truncation a) as [Ha1 Ha2], (py_int_truncation b) as [Hb1 Hb2].
  set (n := py_int a) in *. set (m := py_int b) in *.
  assert (H : inject_Z n < inject_Z (m + 1) /\ inject_Z m < inject_Z (n + 1)).
  { rewrite !inject_Z_plus. change (inject_Z 1) with 1.
    destruct (Qlt_le_dec a 0) as [Hneg|Hpos].
    - destruct Ha2 as [? ?]; [lra|]. destruct Hb2 as [? ?]; [lra|]. lra.
    - destruct Ha1 as [? ?]; [lra|]. destruct Hb1 as [? ?]; [lra|]. lra. }
  destruct H as [H1 H2]. rewrite <- Zlt_Qlt in H1, H2. lia.
Qed.

(** X17: the projection depends on the direction only: multiplying the
    three camera coordinates by one non-zero factor, negative ones
    included, gives the same pixel or the same exception. *)
Theorem project_same_along_ray cam k x y z :
  ~ k == 0 -> project cam (k * x) (k * y) (k * z) = project cam x y z.
Proof.
  intros Hk. unfold project.
  destruct (Qeq_dec z 0) as [Ez|Hz].
  - rewrite (py_div_zero x z Ez).
    rewrite (py_div_zero (k * x) (k * z)); [reflexivity|]. rewrite Ez. ring.
  - assert (Hkz : ~ k * z == 0).
    { intros H. apply Qmult_integral in H. tauto. }
    rewrite !py_div_ok by assumption. cbn. f_equal. f_equal.
    + apply py_int_comp. field. tauto.
    + apply py_int_comp. field. tauto.
Qed.

Lemma project_same_along_ray_witness :
  project default_camera (-3 * 1) (-3 * 2) (-3 * 4) = project default_camera 1 2 4.
Proof.
  apply (project_same_along_ray default_camera (-3) 1 2 4). discriminate.
Defined.

(** ** The dither pattern *)

Lemma land_255_shift a c : Z.land (a + 256 * c) 255 = Z.land a 255.
Proof.
  change 255%Z with (Z.ones 8). rewrite !Z.land_ones by lia.
  change (2 ^ 8)%Z with 256%Z. rewrite Z.mul_comm. apply Z_mod_plus_full.
Qed.

Lemma lxor_land_255 a b :
  Z.land (Z.lxor a b) 255 = Z.lxor (Z.land a 255) (Z.land b 255).
Proof.
  apply Z.bits_inj'. intros n Hn.
  rewrite Z.land_spec, !Z.lxor_spec, !Z.land_spec.
  destruct (Z.testbit 255 n); [now rewrite !andb_true_r|].
  now rewrite !andb_false_r.
Qed.

(** X18: the dither threshold [hash01] takes one of the 256 values
    [k / 255] and repeats every 256 pixels along both axes. *)
Theorem hash01_pattern x y :
  (exists k, (0 <= k <= 255)%Z /\ Phong.hash01 x y = inject_Z k / 255) /\
  Phong.hash01 (x + 256) y = Phong.hash01 x y /\
  Phong.hash01 x (y + 256) = Phong.hash01 x y.
Proof.
  unfold Phong.hash01. split; [|split].
  - eexists. split; [|reflexivity].
    change 255%Z with (Z.ones 8). rewrite Z.land_ones by lia.
    pose proof (Z.mod_pos_bound (Z.lxor (x * 73856093) (y * 19349663))
                  (2 ^ 8) ltac:(lia)).
    change (2 ^ 8)%Z with 256%Z in *. change (Z.ones 8) with 255%Z. lia.
  - f_equal. f_equal.
    rewrite (lxor_land_255 ((x + 256) * _)), (lxor_land_255 (x * _)).
    f_equal.
    replace ((x + 256) * 73856093)%Z with (x * 73856093 + 256 * 73856093)%Z
      by ring.
    apply land_255_shift.
  - f_equal. f_equal.
    rewrite (lxor_land_255 _ ((y + 256) * _)), (lxor_land_255 _ (y * _)).
    f_equal.
    replace ((y + 256) * 19349663)%Z with (y * 19349663 + 256 * 19349663)%Z
      by ring.
    apply land_255_shift.
Qed.

(** ** A light direction of length zero *)

(** X19: the scanline Gouraud constructor raises ZeroDivisionError
    exactly when [math.sqrt] gives 0 for the squared length of the light
    direction; the two z-buffered constructors divide by 1 instead and
    by the length otherwise. *)
Theorem zero_light_direction M cam lx ly lz amb dif spec shin levels dith high :
  let L := m_sqrt M (norm2 (lx, ly, lz)) in
  (L == 0 ->
   Gouraud.init M cam (lx, ly, lz) amb = Raise ZeroDivisionError /\
   ZGouraud.light_dir (ZGouraud.init M cam (lx, ly, lz) amb levels).1
   = (lx / 1, ly / 1, lz / 1) /\
   Phong.light_dir
     (Phong.init M cam (lx, ly, lz) amb dif spec shin levels dith high).1
   = (lx / 1, ly / 1, lz / 1)) /\
  (~ L == 0 ->
   Gouraud.init M cam (lx, ly, lz) amb
   = Ok {| Gouraud.camera := cam; Gouraud.ambient := amb;
           Gouraud.light_dir := (lx / L, ly / L, lz / L) |} /\
   ZGouraud.light_dir (ZGouraud.init M cam (lx, ly, lz) amb levels).1
   = (lx / L, ly / L, lz / L) /\
   Phong.light_dir
     (Phong.init M cam (lx, ly, lz) amb dif spec shin levels dith high).1
   = (lx / L, ly / L, lz / L)).
Proof.
  intros L. unfold norm2 in L.
  unfold Gouraud.init, ZGouraud.init, Phong.init. cbv zeta. fold L.
  split; intros HL.
  - rewrite (py_div_zero lx L HL).
    apply Qeq_bool_iff in HL. rewrite HL. cbn. auto.
  - rewrite !py_div_ok by assumption.
    destruct (Qeq_bool L 0) eqn:E; [apply Qeq_bool_iff in E; tauto|]. auto.
Qed.

Lemma zero_light_direction_witness :
  Gouraud.init rational_math small_camera (0, 0, 0) (2 # 10)
  = Raise ZeroDivisionError /\
  Gouraud.init rational_math small_camera (0, 3, 4) (2 # 10)
  = Ok {| Gouraud.camera := small_camera; Gouraud.ambient := 2 # 10;
          Gouraud.light_dir := (0 / 5, 3 / 5, 4 / 5) |}.
Proof.
  split.
  - apply (zero_light_direction rational_math small_camera 0 0 0 (2 # 10)
             (8 # 10) (4 # 10) 32 8 false false).
    vm_compute. reflexivity.
  - apply (zero_light_direction rational_math small_camera 0 3 4 (2 # 10)
             (8 # 10) (4 # 10) 32 8 false false).
    vm_compute. discriminate.
Defined.

(** ** Unit normals *)




(** ** The UV sphere for any number of steps *)

Lemma result_bind_Ok {A B : Type} (a : A) (f : A -> result B) :
  (Ok a ≫= f) = f a.
Proof. reflexivity. Qed.

Lemma foldl_inv {A B : Type} (P : B -> Prop) (f : B -> A -> B) l :
  (forall b a, a ∈ l -> P b -> P (f b a)) ->
  forall acc, P acc -> P (foldl f acc l).
Proof.
  induction l as [|a l IH]; intros Hf acc Hacc; cbn; [exact Hacc|].
  apply IH; [|apply Hf; [left|exact Hacc]].
  intros b a' Ha'. apply Hf. now right.
Qed.

Lemma idx_bounds lat_steps lon_steps lat lon :
  (0 < lon_steps)%Z -> (0 <= lat <= lat_steps)%Z ->
  (0 <= Demo.idx lon_steps lat lon < (lat_steps + 1) * lon_steps)%Z.
Proof.
  intros Hlon Hlat. unfold Demo.idx.
  pose proof (Z.mod_pos_bound lon lon_steps Hlon). nia.
Qed.

Lemma sphere_faces_valid lat_steps lon_steps :
  Forall (valid_face (Z.to_nat (lat_steps + 1) * Z.to_nat lon_steps))
    (Demo.sphere_faces lat_steps lon_steps).
Proof.
  unfold Demo.sphere_faces.
  apply (foldl_inv (Forall _)); [|constructor].
  intros fcs lat Hlat%range_elem Hf.
  apply (foldl_inv (Forall _)); [|exact Hf].
  intros fcs' lon Hlon%range_elem Hf'. cbv zeta.
  assert (B : forall a b, (0 <= a <= lat_steps)%Z ->
            (0 <= Demo.idx lon_steps a b
             < Z.of_nat (Z.to_nat (lat_steps + 1) * Z.to_nat lon_steps))%Z).
  { intros a b Ha.
    pose proof (idx_bounds lat_steps lon_steps a b ltac:(lia) Ha). nia. }
  rewrite !Forall_app, !Forall_singleton. split; [split; [exact Hf'|]|];
    repeat split; apply B; lia.
Qed.

Lemma sphere_points_row M radius lon_steps (sin_theta cos_theta : Q) l pts :
  (forall lon, lon ∈ l -> lon_steps <> 0%Z) ->
  exists pts',
    for_each (fun pts lon =>
      phi ← py_div (2 * m_pi M * inject_Z lon) (inject_Z lon_steps);
      let sin_phi := m_sin M phi in
      let cos_phi := m_cos M phi in
      let x := radius * sin_theta * cos_phi in
      let y := radius * cos_theta in
      let z := radius * sin_theta * sin_phi in
      Ok (pts ++ [(x, y, z)])) l pts = Ok pts' /\
    length pts' = (length pts + length l)%nat.
Proof.
  revert pts. induction l as [|lon l IH]; intros pts Hl; cbn [for_each].
  - exists pts. split; [reflexivity|cbn; lia].
  - assert (Hn : ~ inject_Z lon_steps == 0).
    { change 0 with (inject_Z 0). rewrite inject_Z_injective.
      apply (Hl lon). left. }
    rewrite py_div_ok by exact Hn. cbn.
    match goal with |- context [for_each _ l ?p] =>
      destruct (IH p) as (pts' & E & Hlen) end.
    { intros lon' H'. apply (Hl lon'). now right. }
    exists pts'. split; [exact E|]. rewrite Hlen, length_app. cbn. lia.
Qed.

Lemma sphere_points_length M radius lat_steps lon_steps :
  lat_steps <> 0%Z ->
  exists pts,
    Demo.sphere_points M radius lat_steps lon_steps = Ok pts /\
    length pts = (Z.to_nat (lat_steps + 1) * Z.to_nat lon_steps)%nat.
Proof.
  intros Hlat. unfold Demo.sphere_points.
  assert (G : forall (l : list Z) acc, exists pts,
    for_each (fun pts lat =>
      theta ← py_div (m_pi M * inject_Z lat) (inject_Z lat_steps);
      let sin_theta := m_sin M theta in
      let cos_theta := m_cos M theta in
      for_each (fun pts lon =>
        phi ← py_div (2 * m_pi M * inject_Z lon) (inject_Z lon_steps);
        let sin_phi := m_sin M phi in
        let cos_phi := m_cos M phi in
        let x := radius * sin_theta * cos_phi in
        let y := radius * cos_theta in
        let z := radius * sin_theta * sin_phi in
        Ok (pts ++ [(x, y, z)]))
        (range 0 lon_steps) pts) l acc = Ok pts /\
    length pts = (length acc + length l * Z.to_nat lon_steps)%nat).
  { induction l as [|lat l IH]; intros acc; cbn [for_each].
    - exists acc. split; [reflexivity|cbn; lia].
    - assert (Hn : ~ inject_Z lat_steps == 0).
      { change 0 with (inject_Z 0). now rewrite inject_Z_injective. }
      rewrite py_div_ok by exact Hn. rewrite result_bind_Ok. cbv beta zeta.
      destruct (sphere_points_row M radius lon_steps
                  (m_sin M (m_pi M * inject_Z lat / inject_Z lat_steps))
                  (m_cos M (m_pi M * inject_Z lat / inject_Z lat_steps))
                  (range 0 lon_steps) acc) as (row & Erow & Hrow).
      { intros lon Hlon%range_elem. lia. }
      cbv beta zeta in Erow. rewrite Erow, result_bind_Ok.
      destruct (IH row) as (pts & E & Hlen).
      exists pts. split; [exact E|].
      refine (eq_trans Hlen _). unfold Vec3 in *.
      rewrite Hrow, range_length, Z.sub_0_r. cbn [length]. lia. }
  destruct (G (range 0 (lat_steps + 1)) []) as (pts & E & Hlen).
  exists pts. split; [exact E|].
  refine (eq_trans Hlen _).
  rewrite range_length, Z.sub_0_r. cbn [length]. lia.
Qed.

(** X21: the UV-sphere generator raises ZeroDivisionError when
    [lat_steps] is 0 and returns otherwise: [(lat_steps + 1) * lon_steps]
    points and [2 * lat_steps * lon_steps] faces (none when a factor is
    negative), every face index being a position of the point list. *)
Theorem uv_sphere_counts_and_indices M radius lat_steps lon_steps :
  (lat_steps = 0%Z ->
   Demo.generate_sphere_mesh_with_faces M radius lat_steps lon_steps
   = Raise ZeroDivisionError) /\
  (lat_steps <> 0%Z ->
   exists pts fcs,
     Demo.generate_sphere_mesh_with_faces M radius lat_steps lon_steps
     = Ok (pts, fcs) /\
     length pts = (Z.to_nat (lat_steps + 1) * Z.to_nat lon_steps)%nat /\
     length fcs = (2 * (Z.to_nat lat_steps * Z.to_nat lon_steps))%nat /\
     Forall (valid_face (length pts)) fcs).
Proof.
  split.
  - intros ->. unfold Demo.generate_sphere_mesh_with_faces, Demo.sphere_points.
    change (range 0 (0 + 1)) with [0%Z]. cbn [for_each].
    rewrite py_div_zero by reflexivity. reflexivity.
  - intros Hlat. unfold Demo.generate_sphere_mesh_with_faces.
    destruct (sphere_points_length M radius lat_steps lon_steps Hlat)
      as (pts & -> & Hlen).
    cbn. exists pts, (Demo.sphere_faces lat_steps lon_steps).
    split; [reflexivity|]. split; [exact Hlen|].
    split; [apply sphere_faces_length|].
    rewrite Hlen. apply sphere_faces_valid.
Qed.

Lemma uv_sphere_counts_and_indices_witness :
  Demo.generate_sphere_mesh_with_faces rational_math 1 0 4
  = Raise ZeroDivisionError /\
  exists pts fcs,
    Demo.generate_sphere_mesh_with_faces rational_math 1 2 3 = Ok (pts, fcs) /\
    length pts = 9%nat /\ length fcs = 12%nat /\
    Forall (valid_face (length pts)) fcs.
Proof.
  split.
  - apply (uv_sphere_counts_and_indices rational_math 1 0 4). reflexivity.
  - apply (uv_sphere_counts_and_indices rational_math 1 2 3). discriminate.
Defined.


(** ** The filled mode of the hidden-line renderer *)

Lemma for_each_ok_inv {A S : Type} (P : S -> Prop)
    (f : S -> A -> result S) l :
  (forall st a st', a ∈ l -> P st -> f st a = Ok st' -> P st') ->
  forall st st', P st -> for_each f l st = Ok st' -> P st'.
Proof.
  induction l as [|a l IH]; intros Hf st st' Hst E; cbn in E.
  - now injection E as <-.
  - destruct (f st a) as [st1|e] eqn:E1; cbn in E; [|discriminate].
    apply (IH (fun st0 b st0' Hb => Hf st0 b st0' (list_elem_of_further _ _ _ Hb))
              st1 st'); [|exact E].
    apply (Hf st a); [left|exact Hst|exact E1].
Qed.

Lemma hl_draw_face_filled self proj_pts out fi out' :
  HiddenLine.wired self = false ->
  Forall (filled_cmd self) out ->
  HiddenLine.draw_face self proj_pts out fi = Ok out' ->
  Forall (filled_cmd self) out'.
Proof.
  intros Hw Ho. destruct fi as [[[depth nz] intensity] [[i0 i1] i2]].
  unfold HiddenLine.draw_face. rewrite Hw.
  destruct (py_index proj_pts i0) as [[x0 y0]|]; [|discriminate].
  destruct (py_index proj_pts i1) as [[x1 y1]|]; [|discriminate].
  destruct (py_index proj_pts i2) as [[x2 y2]|]; [|discriminate].
  cbn -[Z.max Z.min].
  set (shd := if HiddenLine.shade self then _ else _).
  assert (Hs : filled_cmd self (Tri x0 y0 x1 y1 x2 y2 shd)).
  { subst shd. cbn -[Z.max Z.min].
    destruct (HiddenLine.shade self); split; try lia; try discriminate;
      reflexivity. }
  destruct (Qle_bool nz 0); intros [= <-].
  - rewrite !Forall_app.
    split; [split; [exact Ho|apply Forall_singleton; exact Hs]|].
    unfold HiddenLine.outline.
    repeat (apply Forall_cons; split; [reflexivity|]). apply Forall_nil.
    exact I.
  - rewrite Forall_app. split; [exact Ho|]. apply Forall_singleton. exact Hs.
Qed.

(** X22: with [wired] unset the hidden-line renderer issues nothing but
    triangles, in colour 7 without shading and in a colour between 0 and
    15 with it, and outline segments in colour 0; the colour 0 of the
    outline is fixed, the stored [bg_color] changing nothing of what is
    drawn. *)
Theorem hidden_line_filled_commands M self mesh out :
  HiddenLine.wired self = false ->
  HiddenLine.draw_mesh M self mesh = Ok out ->
  Forall (filled_cmd self) out /\
  forall bg, HiddenLine.draw_mesh M (with_bg_color self bg) mesh = Ok out.
Proof.
  intros Hw Hd. split; [|intros bg; exact Hd].
  revert Hd. unfold HiddenLine.draw_mesh. cbv zeta.
  destruct (HiddenLine.project_points _ _) as [proj_pts|]; [|discriminate].
  destruct (HiddenLine.face_infos _ _ _ _) as [face_info|]; [|discriminate].
  cbn -[HiddenLine.draw_face].
  apply for_each_ok_inv; [|constructor].
  intros st fi st' _ Hst. now apply hl_draw_face_filled.
Qed.

Lemma hidden_line_filled_commands_witness :
  Forall (filled_cmd shaded_renderer)
    [Tri 2 6 2 2 6 6 2; Line 2 6 2 2 0; Line 2 2 6 6 0; Line 6 6 2 6 0]%Z.
Proof.
  apply (hidden_line_filled_commands rational_math shaded_renderer
           (one_triangle (0, 2, 1)%Z)).
  - reflexivity.
  - vm_compute. reflexivity.
Defined.

(** ** The scanline Gouraud renderer *)

Lemma entry_lt_lex a b : Gouraud.entry_lt a b = true <-> lex_lt a b.
Proof.
  destruct a as [[[za a0] a1] a2], b as [[[zb b0] b1] b2].
  unfold Gouraud.entry_lt, lex_lt.
  destruct (Qlt_bool za zb) eqn:E1; q_bool_hyps; [split; auto|].
  destruct (Qlt_bool zb za) eqn:E2; q_bool_hyps.
  { split; [discriminate|]. intros [H|[H _]]; lra. }
  assert (Ez : za == zb) by lra.
  destruct (Z.ltb_spec a0 b0); [split; auto|].
  destruct (Z.ltb_spec b0 a0).
  { split; [discriminate|]. intros [H'|[_ [H'|[H' _]]]]; [lra|lia|lia]. }
  assert (a0 = b0) by lia.
  destruct (Z.ltb_spec a1 b1); [split; auto 10|].
  destruct (Z.ltb_spec b1 a1).
  { split; [discriminate|].
    intros [H'|[_ [H'|[_ [H'|[H' _]]]]]]; [lra|lia|lia|lia]. }
  assert (a1 = b1) by lia.
  destruct (Z.ltb_spec a2 b2).
  - split; auto 10.
  - split; [discriminate|].
    intros [H'|[_ [H'|[_ [H'|[_ H']]]]]]; [lra|lia|lia|lia].
Qed.

Lemma lex_lt_trans a b c : lex_lt a b -> lex_lt b c -> lex_lt a c.
Proof.
  destruct a as [[[za a0] a1] a2], b as [[[zb b0] b1] b2],
    c as [[[zc c0] c1] c2].
  unfold lex_lt.
  intros [H|[Hz H]] [H'|[Hz' H']]; try (left; lra).
  right. split; [lra|].
  destruct H as [H|[H0 H]], H' as [H'|[H0' H']]; try (left; lia).
  right. split; [lia|].
  destruct H as [H|[H1 H]], H' as [H'|[H1' H']]; try (left; lia).
  right. split; lia.
Qed.

Lemma lex_lt_irrefl a : ~ lex_lt a a.
Proof.
  destruct a as [[[za a0] a1] a2]. unfold lex_lt.
  intros [H|[_ [H|[_ [H|[_ H]]]]]]; [lra|lia|lia|lia].
Qed.

Lemma entry_ge_avgz a b : entry_ge a b -> b.1.1.1 <= a.1.1.1.
Proof.
  destruct a as [[[za a0] a1] a2], b as [[[zb b0] b1] b2].
  unfold entry_ge, Gouraud.entry_lt. cbn.
  destruct (Qlt_bool za zb) eqn:E; [discriminate|]. q_bool_hyps. auto.
Qed.

Lemma insert_entry_sorted x l :
  StronglySorted entry_ge l -> StronglySorted entry_ge (Gouraud.insert_entry x l).
Proof.
  induction 1 as [|y l Hl IH Hy]; cbn.
  - repeat constructor.
  - destruct (Gouraud.entry_lt y x) eqn:E.
    + apply entry_lt_lex in E. constructor; [now constructor|].
      constructor.
      * unfold entry_ge. apply not_true_iff_false. rewrite entry_lt_lex.
        intros H. exact (lex_lt_irrefl _ (lex_lt_trans _ _ _ E H)).
      * eapply Forall_impl; [exact Hy|]. intros z Hz. unfold entry_ge in *.
        apply not_true_iff_false. rewrite entry_lt_lex. intros H.
        apply not_true_iff_false in Hz. apply Hz. rewrite entry_lt_lex.
        exact (lex_lt_trans _ _ _ E H).
    + constructor; [exact IH|].
      rewrite insert_entry_perm. constructor; [exact E|exact Hy].
Qed.

(** X23: the scanline renderer paints its faces in descending order of
    the tuples [(avgz, i0, i1, i2)], so farthest first: no entry of the
    sorted list is below a later one, the average depths never increase
    along it, and it is a rearrangement of the list given. *)
Theorem gouraud_paints_farthest_first l :
  StronglySorted entry_ge (Gouraud.sort_reverse l) /\
  StronglySorted (fun a b : Gouraud.FaceEntry => b.1.1.1 <= a.1.1.1)
    (Gouraud.sort_reverse l) /\
  Gouraud.sort_reverse l ≡ₚ l.
Proof.
  assert (S : StronglySorted entry_ge (Gouraud.sort_reverse l)).
  { unfold Gouraud.sort_reverse.
    apply (foldl_inv (StronglySorted entry_ge)); [|constructor].
    intros b a _ Hb. now apply insert_entry_sorted. }
  split; [exact S|]. split; [|apply sort_reverse_perm].
  induction S as [|a s Hs IH Ha]; constructor; [exact IH|].
  eapply Forall_impl; [exact Ha|]. intros b. apply entry_ge_avgz.
Qed.

Lemma painted_within_refl hi scr : painted_within hi scr scr.
Proof. intros y x s H. now left. Qed.

Lemma painted_within_trans hi a b c :
  painted_within hi a b -> painted_within hi b c -> painted_within hi a c.
Proof.
  intros H1 H2 y x s H. destruct (H2 y x s H) as [H'|H']; [|now right].
  exact (H1 y x s H').
Qed.

Lemma pset_painted_within hi scr x y s :
  (0 <= s <= hi)%Z -> painted_within hi scr (pset scr x y s).
Proof.
  intros Hs. unfold pset. destruct (_ || _)%Z; [apply painted_within_refl|].
  intros y' x' s' H.
  destruct (decide ((Z.to_nat y, Z.to_nat x) = (y', x'))) as [E|Hne].
  - injection E as <- <-. apply grid_get_set_Some in H. subst s'. now right.
  - rewrite grid_get_set_ne in H by exact Hne. now left.
Qed.

Lemma guarded_ratio_range a b v :
  a <= v -> v <= b ->
  0 <= (if negb (Qeq_bool b a) then (v - a) / (b - a) else 0) /\
  (if negb (Qeq_bool b a) then (v - a) / (b - a) else 0) <= 1.
Proof.
  intros H1 H2. destruct (Qeq_bool b a) eqn:E; cbn; [split; lra|].
  assert (Hn : ~ b == a).
  { intros H. apply Qeq_bool_iff in H. congruence. }
  assert (Hp : 0 < b - a) by lra.
  split.
  - apply Qle_shift_div_l; [exact Hp|]. lra.
  - apply Qle_shift_div_r; [exact Hp|]. lra.
Qed.

Lemma interp_range a b t :
  0 <= a -> a <= 1 -> 0 <= b -> b <= 1 -> 0 <= t -> t <= 1 ->
  0 <= Gouraud.interp a b t /\ Gouraud.interp a b t <= 1.
Proof.
  intros Ha0 Ha1 Hb0 Hb1 Ht0 Ht1. unfold Gouraud.interp.
  assert (E : a + (b - a) * t == a * (1 - t) + b * t) by ring.
  rewrite E. split; nra.
Qed.

Lemma draw_span_painted xl cl xr cr y scr :
  0 <= cl -> cl <= 1 -> 0 <= cr -> cr <= 1 ->
  painted_within 7 scr (Gouraud.draw_span xl cl xr cr y scr).
Proof.
  intros Hl0 Hl1 Hr0 Hr1. unfold Gouraud.draw_span. cbv zeta.
  apply (foldl_inv (painted_within 7 scr)); [|apply painted_within_refl].
  intros st x Hx%range_elem Hst.
  apply (painted_within_trans _ _ st); [exact Hst|].
  apply pset_painted_within.
  assert (Hxl : xl <= inject_Z x).
  { apply Qle_trans with (inject_Z (Qceiling xl)); [apply Qle_ceiling|].
    rewrite <- Zle_Qle. lia. }
  assert (Hxr : inject_Z x <= xr).
  { apply Qle_trans with (inject_Z (Qfloor xr)); [|apply Qfloor_le].
    rewrite <- Zle_Qle. lia. }
  destruct (guarded_ratio_range xl xr (inject_Z x) Hxl Hxr) as [Ht0 Ht1].
  destruct (interp_range cl cr _ Hl0 Hl1 Hr0 Hr1 Ht0 Ht1) as [Hc0 Hc1].
  apply py_int_range.
  - nra.
  - change (inject_Z 7) with 7. nra.
Qed.

(** The rows of one triangle whose corners are in ascending order of y. *)
Lemma scan_rows_painted x0 y0 c0 x1 y1 c1 x2 y2 c2 scr :
  y0 <= y1 -> y1 <= y2 ->
  0 <= c0 -> c0 <= 1 -> 0 <= c1 -> c1 <= 1 -> 0 <= c2 -> c2 <= 1 ->
  painted_within 7 scr
    (let part2 := Qeq_bool y1 y2 in
     let y_start := Qceiling y0 in
     let y_end := Qfloor y2 in
     foldl (fun scr y =>
              let yq := inject_Z y in
              let t_long := if negb (Qeq_bool y2 y0)
                            then (yq - y0) / (y2 - y0) else 0 in
              let xl := Gouraud.interp x0 x2 t_long in
              let cl := Gouraud.interp c0 c2 t_long in
              let '(xr, cr) :=
                if Qlt_bool yq y1 || part2 then
                  let t_short := if negb (Qeq_bool y1 y0)
                                 then (yq - y0) / (y1 - y0) else 0 in
                  (Gouraud.interp x0 x1 t_short, Gouraud.interp c0 c1 t_short)
                else
                  let t_short := if negb (Qeq_bool y2 y1)
                                 then (yq - y1) / (y2 - y1) else 0 in
                  (Gouraud.interp x1 x2 t_short, Gouraud.interp c1 c2 t_short) in
              let '(xl, cl, xr, cr) :=
                if Qlt_bool xr xl then (xr, cr, xl, cl) else (xl, cl, xr, cr) in
              Gouraud.draw_span xl cl xr cr y scr)
       scr (range y_start (y_end + 1))).
Proof.
  intros H01 H12 A0 A1 B0 B1 C0 C1. cbv zeta.
  apply (foldl_inv (painted_within 7 scr)); [|apply painted_within_refl].
  intros st y Hy%range_elem Hst.
  apply (painted_within_trans _ _ st); [exact Hst|].
  assert (Hy0 : y0 <= inject_Z y).
  { apply Qle_trans with (inject_Z (Qceiling y0)); [apply Qle_ceiling|].
    rewrite <- Zle_Qle. lia. }
  assert (Hy2 : inject_Z y <= y2).
  { apply Qle_trans with (inject_Z (Qfloor y2)); [|apply Qfloor_le].
    rewrite <- Zle_Qle. lia. }
  destruct (guarded_ratio_range y0 y2 (inject_Z y) Hy0 Hy2) as [Tl0 Tl1].
  destruct (interp_range c0 c2 _ A0 A1 C0 C1 Tl0 Tl1) as [Hl0 Hl1].
  assert (Hr : forall xr cr,
            0 <= cr -> cr <= 1 ->
            painted_within 7 st
              (let '(xl, cl, xr, cr) :=
                 if Qlt_bool xr
                      (Gouraud.interp x0 x2
                         (if negb (Qeq_bool y2 y0)
                          then (inject_Z y - y0) / (y2 - y0) else 0))
                 then (xr, cr,
                       Gouraud.interp x0 x2
                         (if negb (Qeq_bool y2 y0)
                          then (inject_Z y - y0) / (y2 - y0) else 0),
                       Gouraud.interp c0 c2
                         (if negb (Qeq_bool y2 y0)
                          then (inject_Z y - y0) / (y2 - y0) else 0))
                 else (Gouraud.interp x0 x2
                         (if negb (Qeq_bool y2 y0)
                          then (inject_Z y - y0) / (y2 - y0) else 0),
                       Gouraud.interp c0 c2
                         (if negb (Qeq_bool y2 y0)
                          then (inject_Z y - y0) / (y2 - y0) else 0),
                       xr, cr) in
               Gouraud.draw_span xl cl xr cr y st)).
  { intros xr cr Hc0 Hc1. destruct (Qlt_bool xr _);
      now apply draw_span_painted. }
  destruct (Qlt_bool (inject_Z y) y1 || Qeq_bool y1 y2) eqn:Eb.
  - assert (Hy1 : inject_Z y <= y1).
    { apply orb_true_iff in Eb as [Eb|Eb].
      - q_bool_hyps. lra.
      - apply Qeq_bool_iff in Eb. lra. }
    destruct (guarded_ratio_range y0 y1 (inject_Z y) Hy0 Hy1) as [Ts0 Ts1].
    destruct (interp_range c0 c1 _ A0 A1 B0 B1 Ts0 Ts1) as [Hr0 Hr1].
    now apply Hr.
  - apply orb_false_iff in Eb as [Eb _]. q_bool_hyps.
    destruct (guarded_ratio_range y1 y2 (inject_Z y) Eb Hy2) as [Ts0 Ts1].
    destruct (interp_range c1 c2 _ B0 B1 C0 C1 Ts0 Ts1) as [Hr0 Hr1].
    now apply Hr.
Qed.

Lemma draw_gouraud_tri_painted p0 c0 p1 c1 p2 c2 scr :
  0 <= c0 -> c0 <= 1 -> 0 <= c1 -> c1 <= 1 -> 0 <= c2 -> c2 <= 1 ->
  painted_within 7 scr (Gouraud.draw_gouraud_tri p0 c0 p1 c1 p2 c2 scr).
Proof.
  intros A0 A1 B0 B1 C0 C1.
  destruct p0 as [x0 y0], p1 as [x1 y1], p2 as [x2 y2].
  unfold Gouraud.draw_gouraud_tri, Gouraud.sorted_by_y.
  cbn [foldl Gouraud.insert_by_y fst snd].
  destruct (Qlt_bool y1 y0) eqn:E1; cbn [Gouraud.insert_by_y fst snd].
  - destruct (Qlt_bool y2 y1) eqn:E2; cbn [Gouraud.insert_by_y fst snd].
    + q_bool_hyps. apply scan_rows_painted; auto; lra.
    + destruct (Qlt_bool y2 y0) eqn:E3; q_bool_hyps;
        apply scan_rows_painted; auto; lra.
  - destruct (Qlt_bool y2 y0) eqn:E2; cbn [Gouraud.insert_by_y fst snd].
    + q_bool_hyps. apply scan_rows_painted; auto; lra.
    + destruct (Qlt_bool y2 y1) eqn:E3; q_bool_hyps;
        apply scan_rows_painted; auto; lra.
Qed.

Lemma py_index_elem {A : Type} (l : list A) (i : Z) (a : A) :
  py_index l i = Ok a -> a ∈ l.
Proof.
  unfold py_index. destruct (_ || _)%Z; [discriminate|].
  destruct (l !! _) eqn:E; [|discriminate].
  intros [= <-]. eapply list_elem_of_lookup_2; eauto.
Qed.

Lemma g_intensities_range self mesh c :
  0 <= Gouraud.ambient self -> c ∈ Gouraud.intensities self mesh ->
  0 <= c /\ c <= 1.
Proof.
  intros Ha. unfold Gouraud.intensities. rewrite list_elem_of_fmap.
  intros ([[nx ny] nz] & -> & _).
  unfold Gouraud.compute_intensity, py_min.
  destruct (Gouraud.light_dir self) as [[lx ly] lz]. cbv zeta.
  repeat match goal with
         | |- context [Qlt_bool ?a ?b] => destruct (Qlt_bool a b) eqn:?
         end; q_bool_hyps; split; lra.
Qed.

(** X24: with a non-negative ambient coefficient the scanline Gouraud
    renderer only ever writes shade indices between 0 and 7: after
    [draw_mesh] every cell of the surface holds what it held before or
    such an index. *)
Theorem gouraud_paints_shades_0_to_7 M self mesh scr scr' :
  0 <= Gouraud.ambient self ->
  Gouraud.draw_mesh M self mesh scr = Ok scr' ->
  painted_within 7 scr scr'.
Proof.
  intros Ha. unfold Gouraud.draw_mesh. cbv zeta.
  set (cam_pts := camera_points M (Gouraud.camera self) mesh).
  destruct (Gouraud.project_visible _ _) as [proj_pts|]; [|discriminate].
  destruct (Gouraud.face_list _ _) as [fl|]; [|discriminate].
  cbn -[Gouraud.draw_face].
  apply for_each_ok_rel;
    [apply painted_within_refl|apply painted_within_trans|].
  intros st [[[avgz i0] i1] i2] st' _. unfold Gouraud.draw_face.
  destruct (py_index proj_pts i0) as [q0|]; [|discriminate].
  cbn -[Gouraud.draw_gouraud_tri].
  destruct q0 as [[sx0 sy0]|]; cbn -[Gouraud.draw_gouraud_tri];
    [|intros [= <-]; apply painted_within_refl].
  destruct (py_index proj_pts i1) as [q1|]; [|discriminate].
  cbn -[Gouraud.draw_gouraud_tri].
  destruct q1 as [[sx1 sy1]|]; cbn -[Gouraud.draw_gouraud_tri];
    [|intros [= <-]; apply painted_within_refl].
  destruct (py_index proj_pts i2) as [q2|]; [|discriminate].
  cbn -[Gouraud.draw_gouraud_tri].
  destruct q2 as [[sx2 sy2]|]; cbn -[Gouraud.draw_gouraud_tri];
    [|intros [= <-]; apply painted_within_refl].
  destruct (py_index cam_pts i0) as [v0|]; [|discriminate].
  destruct (py_index cam_pts i1) as [v1|]; [|discriminate].
  destruct (py_index cam_pts i2) as [v2|]; [|discriminate].
  cbn -[Gouraud.draw_gouraud_tri].
  destruct (face_normal v0 v1 v2) as [[nx ny] nz].
  destruct (Qle_bool nz 0); [intros [= <-]; apply painted_within_refl|].
  destruct (py_index _ i0) as [c0|] eqn:E0; [|discriminate].
  destruct (py_index _ i1) as [c1|] eqn:E1; [|discriminate].
  destruct (py_index _ i2) as [c2|] eqn:E2; [|discriminate].
  cbn -[Gouraud.draw_gouraud_tri]. intros [= <-].
  apply py_index_elem, (g_intensities_range _ _ _ Ha) in E0, E1, E2.
  apply draw_gouraud_tri_painted; tauto.
Qed.

Lemma gouraud_paints_shades_0_to_7_witness :
  painted_within 7 (screen used_frame8) drawn8_gouraud.
Proof.
  apply (gouraud_paints_shades_0_to_7 rational_math small8_gouraud
           (one_triangle (0, 1, 2)%Z) (screen used_frame8) drawn8_gouraud).
  - vm_compute. discriminate.
  - vm_compute. reflexivity.
Defined.


(** ** What the z-buffered rasterizer writes, cell by cell *)

Lemma grid_get_set_fmap {A : Type} (g : list (list A)) y x a :
  grid_get (grid_set g y x a) y x = (fun _ => a) <$> grid_get g y x.
Proof.
  destruct (grid_get g y x) as [c|] eqn:Hc.
  - rewrite grid_get_set_eq by eauto. reflexivity.
  - cbn. unfold grid_get, grid_set in *.
    destruct (g !! y) as [row|] eqn:Hrow; [|now rewrite Hrow].
    cbn in Hc.
    rewrite list_lookup_insert_eq by (eapply lookup_lt_Some; eauto). cbn.
    apply lookup_ge_None. rewrite length_insert.
    now apply lookup_ge_None.
Qed.

Lemma shaped_outside h w zb Y X :
  zbuf_shaped h w zb ->
  ~ ((Z.of_nat Y < h)%Z /\ (Z.of_nat X < w)%Z) ->
  grid_get zb Y X = None.
Proof.
  intros [Hh Hw] Hn. unfold grid_get.
  destruct (zb !! Y) as [row|] eqn:Hrow; [|reflexivity]. cbn.
  apply lookup_ge_None.
  pose proof (lookup_lt_Some _ _ _ Hrow) as HY.
  eapply Forall_lookup_1 in Hw; [|exact Hrow]. cbn in Hw. lia.
Qed.

(** The pixel loops of a z-buffered rasterizer, for any body [step]
    that is the depth test and the writes of [depth_test_put] at the
    pixels the triangle covers in front of the camera. *)
Section PixelLoops.
Context {A : Type} (t : Triangle A) (h w : Z) (shade : Z -> Z -> Z).
Context (step : Z -> Frame -> Z -> result Frame).
Hypothesis Hview : forall y x fr,
  (0 <= y)%Z -> (0 <= x)%Z ->
  step y fr x
  = if covers t y x && negb (Qle_bool (depth_at t y x) 0)
    then depth_test_put fr (Z.to_nat y) (Z.to_nat x) (depth_at t y x)
           (shade y x)
    else Ok fr.
Hypothesis Hd : Qeq_bool (tri_denom t) 0 = false.

Lemma pixel_cells y x fr :
  zbuf_shaped h w (zbuf fr) -> (0 <= y < h)%Z -> (0 <= x < w)%Z ->
  exists fr',
    step y fr x = Ok fr' /\
    zbuf_shaped h w (zbuf fr') /\
    forall Y X,
      ((Y, X) = (Z.to_nat y, Z.to_nat x) ->
       frame_cell fr' Y X = painted_cell t shade Y X (frame_cell fr Y X)) /\
      ((Y, X) <> (Z.to_nat y, Z.to_nat x) ->
       frame_cell fr' Y X = frame_cell fr Y X).
Proof.
  intros Hs Hy Hx. rewrite Hview by lia.
  destruct (zbuf_cell_shaped _ _ _ y x Hs Hy Hx) as [cur Hcur].
  assert (P : forall Y X, (Y, X) = (Z.to_nat y, Z.to_nat x) ->
            painted_cell t shade Y X (frame_cell fr Y X)
            = if covers t y x && negb (Qle_bool (depth_at t y x) 0)
                 && negb (Qle_bool cur (depth_at t y x))
              then (Some (depth_at t y x),
                    (fun _ => shade y x)
                      <$> grid_get (screen fr) (Z.to_nat y) (Z.to_nat x))
              else frame_cell fr (Z.to_nat y) (Z.to_nat x)).
  { intros Y X [= -> ->]. unfold painted_cell, frame_cell. cbn [fst snd].
    rewrite !Z2Nat.id by lia. rewrite Hcur, Hd. reflexivity. }
  destruct (covers t y x && negb (Qle_bool (depth_at t y x) 0)) eqn:Hit.
  - unfold depth_test_put. rewrite Hcur.
    destruct (Qle_bool cur (depth_at t y x)) eqn:Ec.
    + exists fr. split; [reflexivity|]. split; [exact Hs|].
      intros Y X. split; [|reflexivity]. intros E.
      rewrite (P Y X E). cbn. now injection E as -> ->.
    + eexists. split; [reflexivity|]. split; [now apply grid_set_shaped|].
      intros Y X. split; intros E.
      * rewrite (P Y X E). cbn. injection E as -> ->.
        unfold frame_cell, put. cbn [zbuf screen].
        rewrite grid_get_set_eq by eauto. now rewrite grid_get_set_fmap.
      * unfold frame_cell, put. cbn [zbuf screen].
        now rewrite !grid_get_set_ne by congruence.
  - exists fr. split; [reflexivity|]. split; [exact Hs|].
    intros Y X. split; [|reflexivity]. intros E.
    rewrite (P Y X E). cbn. now injection E as -> ->.
Qed.

Lemma row_cells y xs :
  (0 <= y < h)%Z -> NoDup xs ->
  (forall x, x ∈ xs -> (0 <= x < w)%Z) ->
  forall fr,
    zbuf_shaped h w (zbuf fr) ->
    exists fr',
      for_each (step y) xs fr = Ok fr' /\
      zbuf_shaped h w (zbuf fr') /\
      forall Y X,
        (Y = Z.to_nat y /\ Z.of_nat X ∈ xs ->
         frame_cell fr' Y X = painted_cell t shade Y X (frame_cell fr Y X)) /\
        (~ (Y = Z.to_nat y /\ Z.of_nat X ∈ xs) ->
         frame_cell fr' Y X = frame_cell fr Y X).
Proof.
  intros Hy Hnd. induction Hnd as [|x xs Hx Hnd IH]; intros Hxs fr Hs.
  - exists fr. split; [reflexivity|]. split; [exact Hs|].
    intros Y X. split; [|reflexivity]. intros [_ E]. inversion E.
  - cbn [for_each].
    destruct (pixel_cells y x fr Hs Hy) as (fr1 & -> & Hs1 & C1).
    { apply Hxs. left. }
    cbn.
    destruct (IH (fun x' H' => Hxs x' (list_elem_of_further _ _ _ H')) fr1 Hs1)
      as (fr' & -> & Hs' & C').
    exists fr'. split; [reflexivity|]. split; [exact Hs'|].
    assert (Hx0 : (0 <= x)%Z) by (specialize (Hxs x (list_elem_of_here _ _)); lia).
    intros Y X. destruct (C' Y X) as [In' Out'], (C1 Y X) as [In1 Out1].
    destruct (decide ((Y, X) = (Z.to_nat y, Z.to_nat x))) as [E|Hne].
    + assert (Hnot : ~ (Y = Z.to_nat y /\ Z.of_nat X ∈ xs)).
      { injection E as -> ->. rewrite Z2Nat.id by lia. tauto. }
      split; [|intros Hn; exfalso; apply Hn; injection E as -> ->;
                split; [reflexivity|rewrite Z2Nat.id by lia; left]].
      intros _. rewrite (Out' Hnot). now apply In1.
    + split.
      * intros [-> Hin]. apply elem_of_cons in Hin as [Hin|Hin].
        { exfalso. apply Hne. f_equal. lia. }
        rewrite In' by auto. now rewrite Out1.
      * intros Hn. rewrite Out', Out1; [reflexivity|exact Hne|].
        intros [-> Hin]. apply Hn. split; [reflexivity|now right].
Qed.

Lemma rows_cells ys xs :
  NoDup ys -> NoDup xs ->
  (forall y, y ∈ ys -> (0 <= y < h)%Z) ->
  (forall x, x ∈ xs -> (0 <= x < w)%Z) ->
  forall fr,
    zbuf_shaped h w (zbuf fr) ->
    exists fr',
      for_each (fun fr y => for_each (step y) xs fr) ys fr = Ok fr' /\
      zbuf_shaped h w (zbuf fr') /\
      forall Y X,
        (Z.of_nat Y ∈ ys /\ Z.of_nat X ∈ xs ->
         frame_cell fr' Y X = painted_cell t shade Y X (frame_cell fr Y X)) /\
        (~ (Z.of_nat Y ∈ ys /\ Z.of_nat X ∈ xs) ->
         frame_cell fr' Y X = frame_cell fr Y X).
Proof.
  intros Hnd Hndx. induction Hnd as [|y ys Hy Hnd IH]; intros Hys Hxs fr Hs.
  - exists fr. split; [reflexivity|]. split; [exact Hs|].
    intros Y X. split; [|reflexivity]. intros [E _]. inversion E.
  - cbn [for_each].
    destruct (row_cells y xs (Hys y (list_elem_of_here _ _)) Hndx Hxs
                fr Hs) as (fr1 & -> & Hs1 & C1).
    cbn.
    destruct (IH (fun y' H' => Hys y' (list_elem_of_further _ _ _ H')) Hxs fr1 Hs1)
      as (fr' & -> & Hs' & C').
    exists fr'. split; [reflexivity|]. split; [exact Hs'|].
    assert (Hy0 : (0 <= y)%Z) by (specialize (Hys y (list_elem_of_here _ _)); lia).
    intros Y X. destruct (C' Y X) as [In' Out'], (C1 Y X) as [In1 Out1].
    destruct (decide (Y = Z.to_nat y)) as [->|Hne].
    + assert (Hnot : ~ (Z.of_nat (Z.to_nat y) ∈ ys /\ Z.of_nat X ∈ xs)).
      { rewrite Z2Nat.id by lia. tauto. }
      rewrite (Out' Hnot). split.
      * intros [_ Hin]. apply In1. auto.
      * intros Hn. apply Out1. intros [_ Hin]. apply Hn.
        split; [rewrite Z2Nat.id by lia; left|exact Hin].
    + assert (E1 : frame_cell fr1 Y X = frame_cell fr Y X).
      { apply Out1. tauto. }
      rewrite <- E1. split.
      * intros [Hin Hinx]. apply In'. split; [|exact Hinx].
        apply elem_of_cons in Hin as [Hin|Hin]; [|exact Hin].
        exfalso. apply Hne. lia.
      * intros Hn. apply Out'. intros [Hin Hinx]. apply Hn.
        split; [now right|exact Hinx].
Qed.

(** The loops over a box of the surface that holds every covered
    pixel. *)
Lemma box_cells min_x max_x min_y max_y fr :
  (0 <= min_x)%Z -> (max_x <= w - 1)%Z ->
  (0 <= min_y)%Z -> (max_y <= h - 1)%Z ->
  (forall Y X, covers t (Z.of_nat Y) (Z.of_nat X) = true ->
     (Z.of_nat Y < h)%Z -> (Z.of_nat X < w)%Z ->
     (min_y <= Z.of_nat Y <= max_y)%Z /\ (min_x <= Z.of_nat X <= max_x)%Z) ->
  zbuf_shaped h w (zbuf fr) ->
  exists fr',
    (if ((max_x <? min_x) || (max_y <? min_y))%Z then Ok fr
     else for_each (fun fr y => for_each (step y) (range min_x (max_x + 1)) fr)
            (range min_y (max_y + 1)) fr) = Ok fr' /\
    zbuf_shaped h w (zbuf fr') /\
    forall y x,
      frame_cell fr' y x = painted_cell t shade y x (frame_cell fr y x).
Proof.
  intros Hx0 Hx1 Hy0 Hy1 Box Hs.
  assert (Out : forall Y X,
            ~ ((min_y <= Z.of_nat Y <= max_y)%Z /\
               (min_x <= Z.of_nat X <= max_x)%Z) ->
            frame_cell fr Y X = painted_cell t shade Y X (frame_cell fr Y X)).
  { intros Y X Hn. unfold painted_cell.
    destruct (frame_cell fr Y X).1 as [cur|] eqn:Ec; [|reflexivity].
    destruct (covers t (Z.of_nat Y) (Z.of_nat X)) eqn:Hc;
      [|now rewrite andb_false_r].
    exfalso. apply Hn. apply Box; [exact Hc| |].
    - destruct (decide (Z.of_nat Y < h)%Z) as [H|H]; [exact H|].
      unfold frame_cell in Ec. cbn [fst] in Ec.
      rewrite (shaped_outside h w _ Y X Hs) in Ec by tauto. discriminate.
    - destruct (decide (Z.of_nat X < w)%Z) as [H|H]; [exact H|].
      unfold frame_cell in Ec. cbn [fst] in Ec.
      rewrite (shaped_outside h w _ Y X Hs) in Ec by tauto. discriminate. }
  destruct ((max_x <? min_x) || (max_y <? min_y))%Z eqn:Hb.
  { exists fr. split; [reflexivity|]. split; [exact Hs|].
    intros y x. apply Out. apply orb_true_iff in Hb. lia. }
  destruct (rows_cells (range min_y (max_y + 1)) (range min_x (max_x + 1)))
    with (fr := fr) as (fr' & E & Hs' & C).
  - apply NoDup_seqZ.
  - apply NoDup_seqZ.
  - intros y Hy%range_elem. lia.
  - intros x Hx%range_elem. lia.
  - exact Hs.
  - exists fr'. split; [exact E|]. split; [exact Hs'|].
    intros y x. destruct (C y x) as [In Outside].
    destruct (decide (Z.of_nat y ∈ range min_y (max_y + 1) /\
                      Z.of_nat x ∈ range min_x (max_x + 1))) as [Hin|Hin].
    + now apply In.
    + rewrite (Outside Hin). apply Out. intros [Hy Hx]. apply Hin.
      unfold range. rewrite !elem_of_seqZ. lia.
Qed.

End PixelLoops.

Lemma painted_cell_degenerate {A : Type} (t : Triangle A) shade y x c :
  Qeq_bool (tri_denom t) 0 = true -> painted_cell t shade y x c = c.
Proof. intros H. unfold painted_cell. rewrite H. now destruct c.1. Qed.

Lemma py_min3_le a b c :
  py_min3 a b c <= a /\ py_min3 a b c <= b /\ py_min3 a b c <= c.
Proof.
  unfold py_min3, py_min.
  destruct (Qlt_bool b a) eqn:E1;
    [destruct (Qlt_bool c b) eqn:E2|destruct (Qlt_bool c a) eqn:E2];
    q_bool_hyps; repeat split; lra.
Qed.

Lemma py_max3_ge a b c :
  a <= py_max3 a b c /\ b <= py_max3 a b c /\ c <= py_max3 a b c.
Proof.
  unfold py_max3, py_max.
  destruct (Qlt_bool a b) eqn:E1;
    [destruct (Qlt_bool b c) eqn:E2|destruct (Qlt_bool a c) eqn:E2];
    q_bool_hyps; repeat split; lra.
Qed.

(** A convex combination lies between the least and the greatest of the
    three values. *)
Lemma convex_between w0 w1 w2 a b c v :
  0 <= w0 -> 0 <= w1 -> 0 <= w2 -> w0 + w1 + w2 == 1 ->
  v == w0 * a + w1 * b + w2 * c ->
  py_min3 a b c <= v /\ v <= py_max3 a b c.
Proof.
  intros H0 H1 H2 Hs Hv.
  destruct (py_min3_le a b c) as (La & Lb & Lc).
  destruct (py_max3_ge a b c) as (Ua & Ub & Uc).
  set (m := py_min3 a b c) in *. set (M := py_max3 a b c) in *.
  assert (0 <= w0 * (a - m)) by (apply Qmult_le_0_compat; lra).
  assert (0 <= w1 * (b - m)) by (apply Qmult_le_0_compat; lra).
  assert (0 <= w2 * (c - m)) by (apply Qmult_le_0_compat; lra).
  assert (0 <= w0 * (M - a)) by (apply Qmult_le_0_compat; lra).
  assert (0 <= w1 * (M - b)) by (apply Qmult_le_0_compat; lra).
  assert (0 <= w2 * (M - c)) by (apply Qmult_le_0_compat; lra).
  assert (Em : m == (w0 + w1 + w2) * m) by (rewrite Hs; ring).
  assert (EM : M == (w0 + w1 + w2) * M) by (rewrite Hs; ring).
  split; lra.
Qed.

(** The centre of a pixel that the triangle covers lies in the bounding
    box of the three corners. *)
Lemma covers_in_box {A : Type} (t : Triangle A) y x :
  Qeq_bool (tri_denom t) 0 = false -> covers t y x = true ->
  let '(p0, p1, p2) := t in
  (py_min3 (c_x p0) (c_x p1) (c_x p2) <= inject_Z x + (1 # 2) /\
   inject_Z x + (1 # 2) <= py_max3 (c_x p0) (c_x p1) (c_x p2)) /\
  (py_min3 (c_y p0) (c_y p1) (c_y p2) <= inject_Z y + (1 # 2) /\
   inject_Z y + (1 # 2) <= py_max3 (c_y p0) (c_y p1) (c_y p2)).
Proof.
  destruct t as [[p0 p1] p2]. unfold tri_denom, covers, bary. cbv zeta.
  set (x0 := c_x p0). set (y0 := c_y p0). set (x1 := c_x p1).
  set (y1 := c_y p1). set (x2 := c_x p2). set (y2 := c_y p2).
  set (d := (y1 - y2) * (x0 - x2) + (x2 - x1) * (y0 - y2)).
  set (xx := inject_Z x + (1 # 2)). set (yy := inject_Z y + (1 # 2)).
  set (w0 := ((y1 - y2) * (xx - x2) + (x2 - x1) * (yy - y2)) * (1 / d)).
  set (w1 := ((y2 - y0) * (xx - x2) + (x0 - x2) * (yy - y2)) * (1 / d)).
  intros Hd Hc.
  assert (Hn : ~ d == 0).
  { intros H. apply Qeq_bool_iff in H. congruence. }
  apply negb_true_iff, orb_false_iff in Hc as [Hc H2].
  apply orb_false_iff in Hc as [H0 H1]. q_bool_hyps.
  assert (Ex : xx == w0 * x0 + w1 * x1 + (1 - w0 - w1) * x2).
  { unfold w0, w1, d. field. exact Hn. }
  assert (Ey : yy == w0 * y0 + w1 * y1 + (1 - w0 - w1) * y2).
  { unfold w0, w1, d. field. exact Hn. }
  assert (Es : w0 + w1 + (1 - w0 - w1) == 1) by ring.
  split; [exact (convex_between _ _ _ _ _ _ _ H0 H1 H2 Es Ex)|
          exact (convex_between _ _ _ _ _ _ _ H0 H1 H2 Es Ey)].
Qed.

(** The box of [ZBufferedGouraudRenderer._draw_triangle], from [floor]
    and [ceil]. *)
Lemma box_floor_ceil m M v :
  m <= inject_Z v + (1 # 2) -> inject_Z v + (1 # 2) <= M ->
  (Qfloor m <= v <= Qceiling M)%Z.
Proof.
  intros Hm HM.
  pose proof (Qfloor_le m). pose proof (Qle_ceiling M).
  assert (A1 : inject_Z (Qfloor m) < inject_Z (v + 1)).
  { rewrite inject_Z_plus. change (inject_Z 1) with 1. lra. }
  assert (A2 : inject_Z v < inject_Z (Qceiling M)) by lra.
  rewrite <- Zlt_Qlt in A1, A2. lia.
Qed.

(** The box of [PhongRenderer._draw_triangle], from [int]: truncation
    toward zero loses no pixel of the surface. *)
Lemma box_int m M v :
  (0 <= v)%Z ->
  m <= inject_Z v + (1 # 2) -> inject_Z v + (1 # 2) <= M ->
  (Z.max (py_int m) 0 <= v <= py_int M)%Z.
Proof.
  intros Hv Hm HM.
  assert (Hv' : 0 <= inject_Z v).
  { change 0 with (inject_Z 0). now rewrite <- Zle_Qle. }
  destruct (py_int_truncation m) as [Pm Nm], (py_int_truncation M) as [PM _].
  destruct PM as [PM1 PM2]; [lra|].
  assert (A2 : inject_Z v < inject_Z (py_int M + 1)).
  { rewrite inject_Z_plus. change (inject_Z 1) with 1. lra. }
  rewrite <- Zlt_Qlt in A2.
  assert (A1 : inject_Z (py_int m) < inject_Z (v + 1)).
  { rewrite inject_Z_plus. change (inject_Z 1) with 1.
    destruct (Qlt_le_dec m 0) as [Hneg|Hpos].
    - destruct Nm as [N1 N2]; [lra|]. lra.
    - destruct Pm as [P1 P2]; [exact Hpos|]. lra. }
  rewrite <- Zlt_Qlt in A1. lia.
Qed.

Lemma zg_draw_triangle_cells self (t : Triangle Q) fr :
  zbuf_shaped (ZGouraud.height self) (ZGouraud.width self) (zbuf fr) ->
  exists fr',
    ZGouraud._draw_triangle self t fr = Ok fr' /\
    zbuf_shaped (ZGouraud.height self) (ZGouraud.width self) (zbuf fr') /\
    forall y x,
      frame_cell fr' y x
      = painted_cell t (ZGouraud.shade_at self t) y x (frame_cell fr y x).
Proof.
  intros Hs.
  destruct (Qeq_bool (tri_denom t) 0) eqn:Hd.
  { exists fr. split; [|split; [exact Hs|]].
    - destruct t as [[p0 p1] p2]. unfold ZGouraud._draw_triangle.
      unfold tri_denom in Hd. cbv zeta beta iota. now rewrite Hd.
    - intros y x. now rewrite painted_cell_degenerate. }
  pose proof (fun y x => covers_in_box t y x Hd) as Box.
  destruct t as [[p0 p1] p2].
  unfold ZGouraud._draw_triangle. cbv zeta beta iota.
  change ((c_y p1 - c_y p2) * (c_x p0 - c_x p2)
          + (c_x p2 - c_x p1) * (c_y p0 - c_y p2))
    with (tri_denom (p0, p1, p2)).
  rewrite Hd.
  apply (box_cells (p0, p1, p2) _ _ (ZGouraud.shade_at self (p0, p1, p2))
           (ZGouraud.draw_pixel self (p0, p1, p2) (1 / tri_denom (p0, p1, p2))));
    try lia; try assumption.
  - intros y x fr0 Hy Hx. now apply zg_draw_pixel_view.
  - intros Y X Hc HY HX. destruct (Box _ _ Hc) as [[Lx Ux] [Ly Uy]].
    pose proof (box_floor_ceil _ _ _ Lx Ux).
    pose proof (box_floor_ceil _ _ _ Ly Uy). lia.
Qed.

Lemma ph_draw_pixel_view M self (t : Triangle Vec3) y x fr :
  (0 <= y)%Z -> (0 <= x)%Z ->
  Phong.draw_pixel M self t (1 / tri_denom t) y fr x
  = if covers t y x && negb (Qle_bool (depth_at t y x) 0)
    then depth_test_put fr (Z.to_nat y) (Z.to_nat x)
           (depth_at t y x) (ph_shade_at M self t y x)
    else Ok fr.
Proof.
  intros Hy Hx. destruct t as [[p0 p1] p2].
  unfold Phong.draw_pixel, covers, depth_at, ph_shade_at, bary,
    tri_denom, depth_test_put.
  cbv zeta beta iota.
  destruct (c_attr p0) as [[nx0 ny0] nz0].
  destruct (c_attr p1) as [[nx1 ny1] nz1].
  destruct (c_attr p2) as [[nx2 ny2] nz2].
  match goal with |- context [negb (?a || ?b || ?c)] =>
    destruct a eqn:Ea; [reflexivity|];
    destruct b eqn:Eb; [reflexivity|];
    destruct c eqn:Ec; [reflexivity|] end.
  cbn [negb andb orb].
  match goal with |- context [Qle_bool ?z 0] =>
    destruct (Qle_bool z 0) eqn:Ez end; [reflexivity|].
  cbn [negb].
  rewrite zbuf_get_nonneg by done.
  destruct (grid_get (zbuf fr) (Z.to_nat y) (Z.to_nat x)) as [cur|] eqn:Hc;
    [|reflexivity].
  cbn -[Phong.phong_intensity Phong.choose_shade].
  match goal with |- context [Qle_bool cur ?z] =>
    destruct (Qle_bool cur z) eqn:Ecur end; [reflexivity|].
  rewrite zbuf_set_nonneg by eauto.
  cbn -[Phong.phong_intensity Phong.choose_shade].
  destruct (Qlt_bool 0 _); rewrite pset_nonneg by done; reflexivity.
Qed.

Lemma ph_draw_triangle_cells M self (t : Triangle Vec3) fr :
  zbuf_shaped (Phong.height self) (Phong.width self) (zbuf fr) ->
  exists fr',
    Phong._draw_triangle M self t fr = Ok fr' /\
    zbuf_shaped (Phong.height self) (Phong.width self) (zbuf fr') /\
    forall y x,
      frame_cell fr' y x
      = painted_cell t (ph_shade_at M self t) y x (frame_cell fr y x).
Proof.
  intros Hs.
  destruct (Qeq_bool (tri_denom t) 0) eqn:Hd.
  { exists fr. split; [|split; [exact Hs|]].
    - destruct t as [[p0 p1] p2]. unfold Phong._draw_triangle.
      unfold tri_denom in Hd. cbv zeta beta iota. now rewrite Hd.
    - intros y x. now rewrite painted_cell_degenerate. }
  pose proof (fun y x => covers_in_box t y x Hd) as Box.
  destruct t as [[p0 p1] p2].
  unfold Phong._draw_triangle. cbv zeta beta iota.
  change ((c_y p1 - c_y p2) * (c_x p0 - c_x p2)
          + (c_x p2 - c_x p1) * (c_y p0 - c_y p2))
    with (tri_denom (p0, p1, p2)).
  rewrite Hd.
  apply (box_cells (p0, p1, p2) _ _ (ph_shade_at M self (p0, p1, p2))
           (Phong.draw_pixel M self (p0, p1, p2) (1 / tri_denom (p0, p1, p2))));
    try lia; try assumption.
  - intros y x fr0 Hy Hx. now apply ph_draw_pixel_view.
  - intros Y X Hc HY HX. destruct (Box _ _ Hc) as [[Lx Ux] [Ly Uy]].
    pose proof (box_int _ _ (Z.of_nat X) ltac:(lia) Lx Ux).
    pose proof (box_int _ _ (Z.of_nat Y) ltac:(lia) Ly Uy). lia.
Qed.

(** X25: on a depth buffer of the renderer's size [_draw_triangle] of
    either z-buffered renderer returns, and it changes exactly the cells
    whose pixel centre the triangle covers, at a positive interpolated
    depth below the stored one: there the depth becomes the interpolated
    depth and the colour the shade computed for the pixel; a degenerate
    triangle changes nothing. *)
Theorem zbuffered_draw_triangle_cell_by_cell M zg ph (t : Triangle Q)
    (u : Triangle Vec3) fr :
  (zbuf_shaped (ZGouraud.height zg) (ZGouraud.width zg) (zbuf fr) ->
   exists fr',
     ZGouraud._draw_triangle zg t fr = Ok fr' /\
     forall y x,
       frame_cell fr' y x
       = painted_cell t (ZGouraud.shade_at zg t) y x (frame_cell fr y x)) /\
  (zbuf_shaped (Phong.height ph) (Phong.width ph) (zbuf fr) ->
   exists fr',
     Phong._draw_triangle M ph u fr = Ok fr' /\
     forall y x,
       frame_cell fr' y x
       = painted_cell u (ph_shade_at M ph u) y x (frame_cell fr y x)).
Proof.
  split; intros Hs.
  - destruct (zg_draw_triangle_cells zg t fr Hs) as (fr' & E & _ & C). eauto.
  - destruct (ph_draw_triangle_cells M ph u fr Hs) as (fr' & E & _ & C). eauto.
Qed.

Lemma zbuffered_draw_triangle_cell_by_cell_witness :
  (exists fr',
     ZGouraud._draw_triangle small_zgouraud near_triangle small_frame = Ok fr' /\
     forall y x,
       frame_cell fr' y x
       = painted_cell near_triangle
           (ZGouraud.shade_at small_zgouraud near_triangle) y x
           (frame_cell small_frame y x)) /\
  (exists fr',
     Phong._draw_triangle rational_math (small_phong false)
       near_triangle_normals small_frame = Ok fr' /\
     forall y x,
       frame_cell fr' y x
       = painted_cell near_triangle_normals
           (ph_shade_at rational_math (small_phong false)
              near_triangle_normals) y x
           (frame_cell small_frame y x)).
Proof.
  split;
    apply (zbuffered_draw_triangle_cell_by_cell rational_math small_zgouraud
             (small_phong false) near_triangle near_triangle_normals
             small_frame);
    (split; [reflexivity|]; repeat constructor).
Defined.

Lemma painted_cell_twice {A : Type} (t : Triangle A) shade y x c :
  painted_cell t shade y x (painted_cell t shade y x c)
  = painted_cell t shade y x c.
Proof.
  unfold painted_cell at 2. destruct c as [[cur|] s]; cbn [fst snd];
    [|reflexivity].
  destruct (_ && _) eqn:E; [|unfold painted_cell; cbn [fst]; now rewrite E].
  unfold painted_cell. cbn [fst snd].
  assert (H : Qlt_bool (depth_at t (Z.of_nat y) (Z.of_nat x))
                (depth_at t (Z.of_nat y) (Z.of_nat x)) = false).
  { apply Qlt_bool_false. lra. }
  now rewrite H, andb_false_r, E.
Qed.

(** X26: drawing the same triangle a second time changes no cell of the
    frame, neither a depth nor a colour, in either z-buffered
    renderer. *)
Theorem zbuffered_draw_triangle_twice M zg ph (t : Triangle Q)
    (u : Triangle Vec3) fr :
  (zbuf_shaped (ZGouraud.height zg) (ZGouraud.width zg) (zbuf fr) ->
   exists fr1 fr2,
     ZGouraud._draw_triangle zg t fr = Ok fr1 /\
     ZGouraud._draw_triangle zg t fr1 = Ok fr2 /\
     forall y x, frame_cell fr2 y x = frame_cell fr1 y x) /\
  (zbuf_shaped (Phong.height ph) (Phong.width ph) (zbuf fr) ->
   exists fr1 fr2,
     Phong._draw_triangle M ph u fr = Ok fr1 /\
     Phong._draw_triangle M ph u fr1 = Ok fr2 /\
     forall y x, frame_cell fr2 y x = frame_cell fr1 y x).
Proof.
  split; intros Hs.
  - destruct (zg_draw_triangle_cells zg t fr Hs) as (fr1 & E1 & Hs1 & C1).
    destruct (zg_draw_triangle_cells zg t fr1 Hs1) as (fr2 & E2 & _ & C2).
    exists fr1, fr2. split; [exact E1|]. split; [exact E2|].
    intros y x. rewrite C2, C1. apply painted_cell_twice.
  - destruct (ph_draw_triangle_cells M ph u fr Hs) as (fr1 & E1 & Hs1 & C1).
    destruct (ph_draw_triangle_cells M ph u fr1 Hs1) as (fr2 & E2 & _ & C2).
    exists fr1, fr2. split; [exact E1|]. split; [exact E2|].
    intros y x. rewrite C2, C1. apply painted_cell_twice.
Qed.

Lemma zbuffered_draw_triangle_twice_witness :
  (exists fr1 fr2,
     ZGouraud._draw_triangle small_zgouraud near_triangle small_frame = Ok fr1 /\
     ZGouraud._draw_triangle small_zgouraud near_triangle fr1 = Ok fr2 /\
     forall y x, frame_cell fr2 y x = frame_cell fr1 y x) /\
  (exists fr1 fr2,
     Phong._draw_triangle rational_math (small_phong false)
       near_triangle_normals small_frame = Ok fr1 /\
     Phong._draw_triangle rational_math (small_phong false)
       near_triangle_normals fr1 = Ok fr2 /\
     forall y x, frame_cell fr2 y x = frame_cell fr1 y x).
Proof.
  split;
    apply (zbuffered_draw_triangle_twice rational_math small_zgouraud
             (small_phong false) near_triangle near_triangle_normals
             small_frame);
    (split; [reflexivity|]; repeat constructor).
Defined.

Lemma same_geometry_views {A B : Type} (t : Triangle A) (u : Triangle B) :
  same_geometry t u ->
  tri_denom t = tri_denom u /\
  forall y x, covers t y x = covers u y x /\ depth_at t y x = depth_at u y x.
Proof.
  destruct t as [[p0 p1] p2], u as [[q0 q1] q2].
  intros ((X0 & Y0 & Z0) & (X1 & Y1 & Z1) & (X2 & Y2 & Z2)).
  unfold tri_denom, covers, depth_at, bary. cbv zeta.
  rewrite X0, Y0, Z0, X1, Y1, Z1, X2, Y2, Z2. auto.
Qed.

(** X28: the two z-buffered rasterizers leave the same depth buffer:
    for triangles with the same corners on the screen and the same
    depths, drawn into the same buffer of the renderers' common size,
    every cell holds the same depth afterwards, although one takes the
    bounding box by [floor] and [ceil] and the other by truncation. *)
Theorem z_gouraud_and_phong_depths_agree M zg ph (t : Triangle Q)
    (u : Triangle Vec3) fr1 fr2 :
  same_geometry t u ->
  ZGouraud.height zg = Phong.height ph ->
  ZGouraud.width zg = Phong.width ph ->
  zbuf fr1 = zbuf fr2 ->
  zbuf_shaped (ZGouraud.height zg) (ZGouraud.width zg) (zbuf fr1) ->
  exists fr1' fr2',
    ZGouraud._draw_triangle zg t fr1 = Ok fr1' /\
    Phong._draw_triangle M ph u fr2 = Ok fr2' /\
    forall y x, grid_get (zbuf fr1') y x = grid_get (zbuf fr2') y x.
Proof.
  intros Hg Hh Hw Hz Hs.
  destruct (zg_draw_triangle_cells zg t fr1 Hs) as (fr1' & E1 & _ & C1).
  rewrite Hh, Hw, Hz in Hs.
  destruct (ph_draw_triangle_cells M ph u fr2 Hs) as (fr2' & E2 & _ & C2).
  exists fr1', fr2'. split; [exact E1|]. split; [exact E2|].
  intros y x. specialize (C1 y x). specialize (C2 y x).
  apply (f_equal fst) in C1, C2. cbn [frame_cell fst] in C1, C2.
  rewrite C1, C2. unfold painted_cell, frame_cell. cbn [fst snd].
  rewrite Hz.
  destruct (same_geometry_views t u Hg) as [Ed Ev].
  destruct (Ev (Z.of_nat y) (Z.of_nat x)) as [Ec Ez].
  rewrite Ed, Ec, Ez.
  destruct (grid_get (zbuf fr2) y x) as [cur|]; [|reflexivity].
  now destruct (_ && _).
Qed.

Lemma z_gouraud_and_phong_depths_agree_witness :
  exists fr1' fr2',
    ZGouraud._draw_triangle small_zgouraud near_triangle small_frame = Ok fr1' /\
    Phong._draw_triangle rational_math (small_phong false)
      near_triangle_normals small_frame = Ok fr2' /\
    forall y x, grid_get (zbuf fr1') y x = grid_get (zbuf fr2') y x.
Proof.
  apply (z_gouraud_and_phong_depths_agree rational_math small_zgouraud
           (small_phong false) near_triangle near_triangle_normals
           small_frame small_frame).
  - repeat split.
  - reflexivity.
  - reflexivity.
  - reflexivity.
  - split; [reflexivity|]. repeat constructor.
Defined.

(** ** The icosphere generator *)

Lemma valid_face_mono n m f : valid_face n f -> (n <= m)%nat -> valid_face m f.
Proof. destruct f as [[i0 i1] i2]. unfold valid_face. lia. Qed.

Lemma norm_good M radius v :
  ok_or_zero_division (fun _ => True) (Ico.norm M radius v).
Proof.
  destruct v as [[x y] z]. unfold Ico.norm, py_div. cbv zeta.
  destruct (Qeq_bool _ 0); cbn; auto.
Qed.

Lemma midpoint_good M radius (st : Ico.State) i0 i1 :
  cache_valid st ->
  (0 <= i0 < Z.of_nat (length st.1))%Z ->
  (0 <= i1 < Z.of_nat (length st.1))%Z ->
  ok_or_zero_division
    (fun r : Ico.State * Z =>
       (length st.1 <= length r.1.1)%nat /\ cache_valid r.1 /\
       (0 <= r.2 < Z.of_nat (length r.1.1))%Z)
    (Ico.midpoint M radius st i0 i1).
Proof.
  destruct st as [verts cache]. cbn [fst snd]. intros Hc H0 H1.
  unfold Ico.midpoint.
  destruct (cache !! Wireframe.sorted_pair i0 i1) as [idx|] eqn:E.
  - cbn. split; [lia|]. split; [exact Hc|].
    exact (map_Forall_lookup_1 _ _ _ _ Hc E).
  - destruct (py_index_valid verts i0 H0) as (v0 & -> & _).
    destruct (py_index_valid verts i1 H1) as (v1 & -> & _).
    cbn -[Ico.norm].
    match goal with |- context [Ico.norm M radius ?v] =>
      pose proof (norm_good M radius v) as Hn;
      destruct (Ico.norm M radius v) as [m|e] end; [|exact Hn].
    cbn. rewrite length_app. cbn [length].
    split; [lia|]. split; [|lia].
    unfold cache_valid. cbn [fst snd]. rewrite length_app. cbn [length].
    apply map_Forall_insert_2; [lia|].
    eapply map_Forall_impl; [exact Hc|]. cbn. intros _ idx Hi. lia.
Qed.

Lemma split_face_good M radius (st : Ico.State) new_faces f :
  cache_valid st ->
  valid_face (length st.1) f ->
  Forall (valid_face (length st.1)) new_faces ->
  ok_or_zero_division
    (fun r : Ico.State * list (Z * Z * Z) =>
       (length st.1 <= length r.1.1)%nat /\ cache_valid r.1 /\
       Forall (valid_face (length r.1.1)) r.2 /\
       length r.2 = (length new_faces + 4)%nat)
    (Ico.split_face M radius (st, new_faces) f).
Proof.
  destruct f as [[i0 i1] i2]. intros Hc (H0 & H1 & H2) Hf.
  unfold Ico.split_face.
  pose proof (midpoint_good M radius st i0 i1 Hc H0 H1) as Ga.
  destruct (Ico.midpoint M radius st i0 i1) as [[sta a]|e]; [|exact Ga].
  cbn [ok_or_zero_division fst snd] in Ga. destruct Ga as (La & Ca & Ha).
  cbn -[Ico.midpoint].
  pose proof (midpoint_good M radius sta i1 i2 Ca ltac:(lia) ltac:(lia)) as Gb.
  destruct (Ico.midpoint M radius sta i1 i2) as [[stb b]|e]; [|exact Gb].
  cbn [ok_or_zero_division fst snd] in Gb. destruct Gb as (Lb & Cb & Hb).
  cbn -[Ico.midpoint].
  pose proof (midpoint_good M radius stb i2 i0 Cb ltac:(lia) ltac:(lia)) as Gc.
  destruct (Ico.midpoint M radius stb i2 i0) as [[stc c]|e]; [|exact Gc].
  cbn [ok_or_zero_division fst snd] in Gc. destruct Gc as (Lc & Cc & Hc').
  cbn. split; [lia|]. split; [exact Cc|]. split.
  - rewrite Forall_app. split.
    + eapply Forall_impl; [exact Hf|]. intros g Hg.
      apply (valid_face_mono _ _ _ Hg). lia.
    + repeat constructor; lia.
  - rewrite length_app. cbn. lia.
Qed.

Lemma split_faces_good M radius fcs :
  forall (st : Ico.State) new_faces,
    cache_valid st ->
    Forall (valid_face (length st.1)) fcs ->
    Forall (valid_face (length st.1)) new_faces ->
    ok_or_zero_division
      (fun r : Ico.State * list (Z * Z * Z) =>
         (length st.1 <= length r.1.1)%nat /\
         Forall (valid_face (length r.1.1)) r.2 /\
         length r.2 = (length new_faces + 4 * length fcs)%nat)
      (for_each (Ico.split_face M radius) fcs (st, new_faces)).
Proof.
  induction fcs as [|f fcs IH]; intros st new_faces Hc Hfs Hn.
  - cbn. split; [lia|]. split; [exact Hn|lia].
  - cbn [for_each]. apply Forall_cons in Hfs as [Hf Hfs].
    pose proof (split_face_good M radius st new_faces f Hc Hf Hn) as G.
    destruct (Ico.split_face M radius (st, new_faces) f) as [[st1 nf1]|e];
      [|exact G].
    cbn [ok_or_zero_division fst snd] in G. destruct G as (L1 & C1 & V1 & N1).
    cbn -[for_each].
    assert (Hfs1 : Forall (valid_face (length st1.1)) fcs).
    { eapply Forall_impl; [exact Hfs|]. intros g Hg.
      exact (valid_face_mono _ _ _ Hg L1). }
    pose proof (IH st1 nf1 C1 Hfs1 V1) as G'.
    destruct (for_each _ fcs (st1, nf1)) as [[st2 nf2]|e]; [|exact G'].
    cbn [ok_or_zero_division fst snd] in *. destruct G' as (L2 & V2 & N2).
    split; [lia|]. split; [exact V2|]. cbn [length]. lia.
Qed.

Lemma subdivide_good M radius k mesh :
  icosphere_shape k mesh ->
  ok_or_zero_division (icosphere_shape (S k)) (Ico.subdivide M radius mesh).
Proof.
  destruct mesh as [verts fcs]. intros (H12 & Hn & Hv). cbn [fst snd] in *.
  unfold Ico.subdivide.
  pose proof (split_faces_good M radius fcs (verts, ∅) []) as G.
  cbn [fst snd] in G. specialize (G (map_Forall_empty _) Hv (Forall_nil_2 _)).
  destruct (for_each _ fcs _) as [[[verts' cache'] nf]|e]; [|exact G].
  cbn [ok_or_zero_division fst snd] in *. destruct G as (L & V & N).
  unfold icosphere_shape. cbn. cbn [length] in N. unfold Vec3 in *.
  split; [lia|]. split; [|exact V].
  rewrite N, Hn. lia.
Qed.

Lemma base_verts_good M radius :
  ok_or_zero_division (fun verts : list Vec3 => length verts = 12%nat)
    (for_each (fun verts v => m ← Ico.norm M radius v; Ok (verts ++ [m]))
       (Ico.base_verts M) []).
Proof.
  assert (G : forall l acc,
            ok_or_zero_division
              (fun verts : list Vec3 =>
                 length verts = (length acc + length l)%nat)
              (for_each (fun verts v => m ← Ico.norm M radius v;
                                        Ok (verts ++ [m])) l acc)).
  { induction l as [|v l IH]; intros acc; cbn [for_each].
    - cbn. lia.
    - pose proof (norm_good M radius v) as Hn.
      destruct (Ico.norm M radius v) as [m|e]; [|exact Hn].
      cbn -[for_each]. specialize (IH (acc ++ [m])).
      destruct (for_each _ l (acc ++ [m])) as [verts|e]; [|exact IH].
      cbn in *. rewrite length_app in IH. cbn in IH. lia. }
  exact (G (Ico.base_verts M) []).
Qed.

Lemma base_faces_valid : Forall (valid_face 12) Ico.base_faces.
Proof. repeat constructor; lia. Qed.

(** X27: the icosphere generator raises nothing but ZeroDivisionError
    (from normalizing a vector whose length [math.sqrt] gives as 0), and
    when it returns the mesh has [20 * 4 ^ subdivisions] faces, at least
    the 12 vertices of the icosahedron, and every face index is a
    position of the vertex list. *)
Theorem icosphere_faces_and_indices M subdivisions radius :
  ok_or_zero_division (icosphere_shape (Z.to_nat subdivisions))
    (Ico.generate_icosphere_mesh M subdivisions radius).
Proof.
  unfold Ico.generate_icosphere_mesh.
  pose proof (base_verts_good M radius) as G.
  destruct (for_each _ (Ico.base_verts M) []) as [verts|e]; [|exact G].
  cbn [ok_or_zero_division] in G. cbn -[for_each Ico.subdivide range].
  assert (H0 : icosphere_shape 0 (verts, Ico.base_faces)).
  { split; [cbn; lia|]. split; [reflexivity|].
    cbn [fst snd]. rewrite G. exact base_faces_valid. }
  assert (L : forall (l : list Z) k mesh,
            icosphere_shape k mesh ->
            ok_or_zero_division (icosphere_shape (k + length l))
              (for_each (fun mesh _ => Ico.subdivide M radius mesh) l mesh)).
  { induction l as [|a l IH]; intros k mesh Hk; cbn [for_each].
    - cbn. now rewrite Nat.add_0_r.
    - pose proof (subdivide_good M radius k mesh Hk) as Gs.
      destruct (Ico.subdivide M radius mesh) as [mesh'|e]; [|exact Gs].
      cbn -[for_each]. specialize (IH (S k) mesh' Gs).
      cbn [length]. now rewrite Nat.add_succ_r. }
  specialize (L (range 0 subdivisions) 0%nat _ H0).
  rewrite range_length, Z.sub_0_r in L. exact L.
Qed.

(** The icosphere of the demo's kind after one subdivision: 42 vertices
    and 80 faces; with radius 0 the first subdivision divides by zero. *)
Lemma icosphere_examples :
  (length icosphere_1.1, length icosphere_1.2) = (42, 80)%nat /\
  Ico.generate_icosphere_mesh rational_math 1 0 = Raise ZeroDivisionError.
Proof. split; vm_compute; reflexivity. Qed.


(** ** The points of the UV sphere *)

Lemma circle_math_pythagorean : pythagorean circle_math.
Proof.
  intros t. cbn. rewrite !Qred_correct.
  assert (H : ~ 1 + t * t == 0).
  { pose proof (Qsquare_nonneg t). lra. }
  field. exact H.
Qed.

Lemma sphere_point_norm2 M radius theta phi :
  pythagorean M ->
  norm2 (radius * m_sin M theta * m_cos M phi, radius * m_cos M theta,
         radius * m_sin M theta * m_sin M phi)
  == radius * radius.
Proof.
  intros H. unfold norm2.
  pose proof (H theta) as Ht. pose proof (H phi) as Hp.
  set (st := m_sin M theta) in *. set (ct := m_cos M theta) in *.
  set (sp := m_sin M phi) in *. set (cp := m_cos M phi) in *.
  transitivity (radius * radius * (st * st * (cp * cp + sp * sp) + ct * ct));
    [ring|].
  rewrite Hp.
  transitivity (radius * radius * (ct * ct + st * st)); [ring|].
  rewrite Ht. ring.
Qed.

(** X29: every point that the UV-sphere generator returns is at
    distance [radius] from the origin, whenever the squares of
    [math.cos] and [math.sin] add up to one. *)
Theorem uv_sphere_points_on_sphere M radius lat_steps lon_steps pts fcs :
  pythagorean M ->
  Demo.generate_sphere_mesh_with_faces M radius lat_steps lon_steps
  = Ok (pts, fcs) ->
  Forall (fun p => norm2 p == radius * radius) pts.
Proof.
  intros HM. unfold Demo.generate_sphere_mesh_with_faces.
  destruct (Demo.sphere_points M radius lat_steps lon_steps) as [pts'|] eqn:E;
    [|discriminate].
  cbn. intros [= <- _]. revert E. unfold Demo.sphere_points.
  apply (for_each_ok_inv (Forall (fun p => norm2 p == radius * radius)));
    [|constructor].
  intros st lat st' _ Hst.
  destruct (py_div _ _) as [theta|]; [|discriminate].
  rewrite result_bind_Ok. cbv beta zeta.
  apply (for_each_ok_inv (Forall (fun p => norm2 p == radius * radius)));
    [|exact Hst].
  intros st0 lon st0' _ Hst0.
  destruct (py_div _ _) as [phi|]; [|discriminate].
  rewrite result_bind_Ok. cbv beta zeta. intros [= <-].
  rewrite Forall_app. split; [exact Hst0|].
  apply Forall_singleton. now apply sphere_point_norm2.
Qed.

Lemma uv_sphere_points_on_sphere_witness :
  Forall (fun p => norm2 p == 2 * 2) sphere_2_3.1.
Proof.
  apply (uv_sphere_points_on_sphere circle_math 2 2 3 sphere_2_3.1
           sphere_2_3.2).
  - exact circle_math_pythagorean.
  - vm_compute. reflexivity.
Defined.

(** ** The clipped segment and the line it came from *)

Lemma on_line_first a b : on_line a b a.
Proof.
  exists 0. destruct a as [[ax ay] az], b as [[bx b_y] bz].
  repeat split; ring.
Qed.

Lemma on_line_second a b : on_line a b b.
Proof.
  exists 1. destruct a as [[ax ay] az], b as [[bx b_y] bz].
  repeat split; ring.
Qed.

Lemma on_line_between a b (p q : Vec3) T :
  on_line a b p -> on_line a b q ->
  on_line a b (p.1.1 + (q.1.1 - p.1.1) * T, p.1.2 + (q.1.2 - p.1.2) * T,
               p.2 + (q.2 - p.2) * T).
Proof.
  destruct a as [[ax ay] az], b as [[bx b_y] bz], p as [[px py] pz],
    q as [[qx qy] qz].
  intros [s (Hx & Hy & Hz)] [s' (Hx' & Hy' & Hz')]. cbn [fst snd].
  exists (s + (s' - s) * T). rewrite Hx, Hy, Hz, Hx', Hy', Hz'.
  repeat split; ring.
Qed.

(** A pass that goes on moves one end along the segment and keeps the
    other. *)
Lemma clip_body_continue AX AY x0 y0 z0 x1 y1 z1 s' :
  clip_body AX AY (x0, y0, z0, x1, y1, z1) = Ok (Continue s') ->
  exists T,
    s' = (x0 + (x1 - x0) * T, y0 + (y1 - y0) * T, z0 + (z1 - z0) * T,
          x1, y1, z1) \/
    s' = (x1 + (x0 - x1) * T, y1 + (y0 - y1) * T, z1 + (z0 - z1) * T,
          x0, y0, z0).
Proof.
  unfold clip_body.
  destruct (Z.lor _ _ =? 0)%Z; [discriminate|].
  destruct (negb _); [discriminate|].
  destruct (outcode AX AY x0 y0 z0 =? 0)%Z;
    match goal with
    | |- context [mbind _ ?m] => destruct m as [T|]; cbn; [|discriminate]
    end; intros [= <-]; exists T; auto.
Qed.

Lemma clip_for_on_line AX AY (a b : Vec3) n :
  forall x0 y0 z0 x1 y1 z1 F a0 b0 c0 a1 b1 c1,
    on_line a b (x0, y0, z0) -> on_line a b (x1, y1, z1) ->
    clip_for n AX AY (x0, y0, z0, x1, y1, z1)
    = Ok (F, a0, b0, c0, a1, b1, c1) ->
    on_line a b (a0, b0, c0) /\ on_line a b (a1, b1, c1).
Proof.
  induction n as [|n IH]; intros x0 y0 z0 x1 y1 z1 F a0 b0 c0 a1 b1 c1 H0 H1.
  - cbn. intros [= <- <- <- <- <- <- <-]. auto.
  - cbn [clip_for].
    destruct (clip_body AX AY (x0, y0, z0, x1, y1, z1)) as [[s'|r]|e] eqn:E;
      cbn; try discriminate.
    + apply clip_body_continue in E as [T [-> | ->]]; apply IH; try assumption.
      * exact (on_line_between a b (x0, y0, z0) (x1, y1, z1) T H0 H1).
      * exact (on_line_between a b (x1, y1, z1) (x0, y0, z0) T H1 H0).
    + intros [= ->]. apply clip_body_return in E.
      destruct E as [(E & _)|E]; injection E as -> -> -> -> -> -> ->; auto.
Qed.

(** X30: whatever flag [clip_segment] returns, the two endpoints it
    returns lie on the line through the two endpoints it was given:
    clipping shortens the segment and never moves it off its line. *)
Theorem clip_segment_stays_on_line
    x0 y0 z0 x1 y1 z1 AX AY F a0 b0 c0 a1 b1 c1 :
  clip_segment x0 y0 z0 x1 y1 z1 AX AY = Ok (F, a0, b0, c0, a1, b1, c1) ->
  on_line (x0, y0, z0) (x1, y1, z1) (a0, b0, c0) /\
  on_line (x0, y0, z0) (x1, y1, z1) (a1, b1, c1).
Proof.
  unfold clip_segment. apply clip_for_on_line.
  - apply on_line_first.
  - apply on_line_second.
Qed.

Lemma clip_segment_stays_on_line_witness :
  on_line (2, 0, 1) (0, 0, 1) (2 # 2, 0 # 2, 2 # 2) /\
  on_line (2, 0, 1) (0, 0, 1) (0, 0, 1).
Proof.
  apply (clip_segment_stays_on_line 2 0 1 0 0 1 1 1 0%Z).
  vm_compute. reflexivity.
Defined.
